(** * upb wire-format encoder (upb/encode.c): a shallow embedding

    The encoder writes its output back to front into a growable buffer.
    This development models the C code on an LP64 little-endian target:
    a flat byte memory indexed by integer addresses, the encoder state
    [upb_encstate] as three addresses, machine integers as [Z] with the
    wrap-around written out, and the [bool]-returning functions as a
    small state-and-failure monad. *)

From Stdlib Require Import ZArith List Bool Lia.
Import ListNotations.
Local Open Scope Z_scope.

(** ** Machine integers *)

Module Int.

Definition wrap32 (x : Z) : Z := x mod 2 ^ 32.
Definition wrap64 (x : Z) : Z := x mod 2 ^ 64.

(** Two's-complement reading of the low [w] bits. *)
Definition signed (w : Z) (x : Z) : Z :=
  let r := x mod 2 ^ w in
  if r <? 2 ^ (w - 1) then r else r - 2 ^ w.

Definition signed32 := signed 32.
Definition signed64 := signed 64.

Definition is_u32 (x : Z) : Prop := 0 <= x < 2 ^ 32.
Definition is_u64 (x : Z) : Prop := 0 <= x < 2 ^ 64.
Definition is_i32 (x : Z) : Prop := - 2 ^ 31 <= x < 2 ^ 31.
Definition is_i64 (x : Z) : Prop := - 2 ^ 63 <= x < 2 ^ 63.

End Int.
Import Int.

(** ** Varint and zigzag codec (encode.c, lines 33-47) *)

Definition UPB_PB_VARINT_MAX_LEN : Z := 10.

(** The [while (val)] loop of [upb_encode_varint]; the list is the bytes
    stored at [buf[0]], [buf[1]], ...  A 64-bit value is exhausted after
    at most ten shifts by seven, so ten rounds of fuel are what the loop
    can use. *)
Fixpoint varint_loop (fuel : nat) (val : Z) : list Z :=
  match fuel with
  | O => []
  | S k =>
      if val =? 0 then []
      else
        let byte := Z.land val 127 in
        let val' := Z.shiftr val 7 in
        let byte := if val' =? 0 then byte else Z.lor byte 128 in
        byte :: varint_loop k val'
  end.

(** [upb_encode_varint]: the bytes written to [buf]; the return value of
    the C function is their number. *)
Definition upb_encode_varint (val : Z) : list Z :=
  if val <? 128 then [val] else varint_loop 10 val.

(** [upb_zzencode_32]: [(n << 1) ^ (n >> 31)] on [int32_t], returned as
    [uint32_t]. *)
Definition upb_zzencode_32 (n : Z) : Z :=
  wrap32 (Z.lxor (signed32 (Z.shiftl n 1)) (Z.shiftr n 31)).

(** [upb_zzencode_64]: [(n << 1) ^ (n >> 63)] on [int64_t], returned as
    [uint64_t]. *)
Definition upb_zzencode_64 (n : Z) : Z :=
  wrap64 (Z.lxor (signed64 (Z.shiftl n 1)) (Z.shiftr n 63)).

(** Modelled from the spec: the decoder is an external collaborator; the
    zigzag decoding named by the spec is the protocol's inverse map
    [(u >> 1) ^ -(u & 1)], read as a signed value of the same width. *)
Definition zigzagDecode32 (u : Z) : Z :=
  signed32 (Z.lxor (Z.shiftr u 1) (- Z.land u 1)).

Definition zigzagDecode64 (u : Z) : Z :=
  signed64 (Z.lxor (Z.shiftr u 1) (- Z.land u 1)).

(** Reading a base-128 little-endian varint back (the protocol's decoding
    rule): seven payload bits per byte, least significant group first. *)
Fixpoint varint_value (bs : list Z) : Z :=
  match bs with
  | [] => 0
  | b :: rest => Z.land b 127 + 128 * varint_value rest
  end.

(** A byte string is a well-formed varint when it is non-empty, every
    byte fits eight bits, and exactly the last byte has its top bit clear. *)
Fixpoint varint_wf (bs : list Z) : Prop :=
  match bs with
  | [] => False
  | [b] => 0 <= b < 128
  | b :: rest => 128 <= b < 256 /\ varint_wf rest
  end.

(** Minimal length: no redundant most-significant zero group. *)
Definition varint_minimal (bs : list Z) : Prop :=
  (1 < length bs)%nat -> last bs 0 <> 0.

(** ** Flat byte memory *)

(** Memory maps an address to the byte stored there; a load reads the low
    eight bits. Address 0 is the null pointer. *)
Definition memory := Z -> Z.

Definition load_u8 (m : memory) (a : Z) : Z := m a mod 256.

Fixpoint load_bytes (m : memory) (a : Z) (n : nat) : list Z :=
  match n with
  | O => []
  | S k => load_u8 m a :: load_bytes m (a + 1) k
  end.

(** Storing the bytes [bs] at addresses [a], [a+1], ... *)
Definition store_bytes (m : memory) (a : Z) (bs : list Z) : memory :=
  fun x =>
    if (a <=? x) && (x <? a + Z.of_nat (length bs))
    then nth (Z.to_nat (x - a)) bs 0
    else m x.

(** Little-endian value of a byte string, and the [n] little-endian bytes
    of a value. *)
Fixpoint le_value (bs : list Z) : Z :=
  match bs with
  | [] => 0
  | b :: rest => b + 256 * le_value rest
  end.

Fixpoint le_bytes (n : nat) (v : Z) : list Z :=
  match n with
  | O => []
  | S k => v mod 256 :: le_bytes k (v / 256)
  end.

Definition load_u32 (m : memory) (a : Z) : Z := le_value (load_bytes m a 4).
Definition load_u64 (m : memory) (a : Z) : Z := le_value (load_bytes m a 8).

(** [*(bool * )p]: a [bool] object holds 0 or 1. *)
Definition load_bool (m : memory) (a : Z) : Z :=
  if load_u8 m a =? 0 then 0 else 1.

(** [memmove(dst, src, n)]: the source bytes are read before any is
    written. *)
Definition mem_move (m : memory) (dst src n : Z) : memory :=
  store_bytes m dst (load_bytes m src (Z.to_nat n)).

(** ** Schema descriptors (read-only during an encode) *)

(** Descriptor types, in the order of the comments of
    [upb_desctype_to_fieldtype2]. *)
Inductive upb_descriptortype_t :=
| UPB_DESCRIPTOR_TYPE_DOUBLE
| UPB_DESCRIPTOR_TYPE_FLOAT
| UPB_DESCRIPTOR_TYPE_INT64
| UPB_DESCRIPTOR_TYPE_UINT64
| UPB_DESCRIPTOR_TYPE_INT32
| UPB_DESCRIPTOR_TYPE_FIXED64
| UPB_DESCRIPTOR_TYPE_FIXED32
| UPB_DESCRIPTOR_TYPE_BOOL
| UPB_DESCRIPTOR_TYPE_STRING
| UPB_DESCRIPTOR_TYPE_GROUP
| UPB_DESCRIPTOR_TYPE_MESSAGE
| UPB_DESCRIPTOR_TYPE_BYTES
| UPB_DESCRIPTOR_TYPE_UINT32
| UPB_DESCRIPTOR_TYPE_ENUM
| UPB_DESCRIPTOR_TYPE_SFIXED32
| UPB_DESCRIPTOR_TYPE_SFIXED64
| UPB_DESCRIPTOR_TYPE_SINT32
| UPB_DESCRIPTOR_TYPE_SINT64.

Inductive upb_fieldtype_t :=
| UPB_TYPE_BOOL
| UPB_TYPE_FLOAT
| UPB_TYPE_INT32
| UPB_TYPE_UINT32
| UPB_TYPE_ENUM
| UPB_TYPE_STRING
| UPB_TYPE_BYTES
| UPB_TYPE_MESSAGE
| UPB_TYPE_DOUBLE
| UPB_TYPE_INT64
| UPB_TYPE_UINT64.

Inductive upb_label_t :=
| UPB_LABEL_OPTIONAL
| UPB_LABEL_REQUIRED
| UPB_LABEL_REPEATED.

Scheme Equality for upb_fieldtype_t.
Scheme Equality for upb_label_t.

(** [upb_desctype_to_fieldtype2]: descriptor type -> upb field type (the
    table's entry 0 stands for no descriptor type). *)
Definition upb_desctype_to_fieldtype2 (t : upb_descriptortype_t)
  : upb_fieldtype_t :=
  match t with
  | UPB_DESCRIPTOR_TYPE_DOUBLE => UPB_TYPE_DOUBLE
  | UPB_DESCRIPTOR_TYPE_FLOAT => UPB_TYPE_FLOAT
  | UPB_DESCRIPTOR_TYPE_INT64 => UPB_TYPE_INT64
  | UPB_DESCRIPTOR_TYPE_UINT64 => UPB_TYPE_UINT64
  | UPB_DESCRIPTOR_TYPE_INT32 => UPB_TYPE_INT32
  | UPB_DESCRIPTOR_TYPE_FIXED64 => UPB_TYPE_UINT64
  | UPB_DESCRIPTOR_TYPE_FIXED32 => UPB_TYPE_UINT32
  | UPB_DESCRIPTOR_TYPE_BOOL => UPB_TYPE_BOOL
  | UPB_DESCRIPTOR_TYPE_STRING => UPB_TYPE_STRING
  | UPB_DESCRIPTOR_TYPE_GROUP => UPB_TYPE_MESSAGE
  | UPB_DESCRIPTOR_TYPE_MESSAGE => UPB_TYPE_MESSAGE
  | UPB_DESCRIPTOR_TYPE_BYTES => UPB_TYPE_BYTES
  | UPB_DESCRIPTOR_TYPE_UINT32 => UPB_TYPE_UINT32
  | UPB_DESCRIPTOR_TYPE_ENUM => UPB_TYPE_ENUM
  | UPB_DESCRIPTOR_TYPE_SFIXED32 => UPB_TYPE_INT32
  | UPB_DESCRIPTOR_TYPE_SFIXED64 => UPB_TYPE_INT64
  | UPB_DESCRIPTOR_TYPE_SINT32 => UPB_TYPE_INT32
  | UPB_DESCRIPTOR_TYPE_SINT64 => UPB_TYPE_INT64
  end.

(** Wire types (spec, section 6). *)
Definition UPB_WIRE_TYPE_VARINT : Z := 0.
Definition UPB_WIRE_TYPE_64BIT : Z := 1.
Definition UPB_WIRE_TYPE_DELIMITED : Z := 2.
Definition UPB_WIRE_TYPE_START_GROUP : Z := 3.
Definition UPB_WIRE_TYPE_END_GROUP : Z := 4.
Definition UPB_WIRE_TYPE_32BIT : Z := 5.

(** Modelled from the spec: the descriptor structs of upb/structs.int.h
    (absent). [hasbit = None] is the sentinel [UPB_NO_HASBIT],
    [oneof_index = None] the sentinel [UPB_NOT_IN_ONEOF]. *)
Record upb_msglayout_fieldinit_v1 := {
  number : Z;
  offset : Z;
  hasbit : option Z;
  oneof_index : option nat;
  submsg_index : nat;
  type : upb_descriptortype_t;
  label : upb_label_t
}.

Record upb_msglayout_oneofinit_v1 := {
  case_offset : Z
}.

(** A layout refers to its submessage layouts by reference, so that
    message types may be recursive: [submsgs] holds indices into the
    table of all layouts. [field_count] is the length of [fields]. *)
Record upb_msglayout_msginit_v1 := {
  submsgs : list nat;
  fields : list upb_msglayout_fieldinit_v1;
  oneofs : list upb_msglayout_oneofinit_v1;
  is_proto2 : bool
}.

(** Modelled from the spec: the array header [upb_array] of
    upb/structs.int.h (absent): element-type tag, element count, pointer
    to the contiguous elements. *)
Record upb_array := {
  arr_type : upb_fieldtype_t;
  arr_len : Z;
  arr_data : Z
}.

(** ** Machine state *)

(** The memory, the typed view of the array headers living in it, the
    allocator behind [upb_env] (its [n]-th call answers [alloc n]; 0 is
    NULL), the value an uninitialised [size_t] local holds, and the
    fields of the one [upb_encstate]. *)
Record machine := {
  mem : memory;
  arrays : Z -> upb_array;
  alloc : nat -> Z;
  ncalls : nat;
  junk : Z;
  buf : Z;
  ptr : Z;
  limit : Z
}.

Definition with_mem (w : machine) (m : memory) : machine :=
  {| mem := m; arrays := arrays w; alloc := alloc w; ncalls := ncalls w;
     junk := junk w; buf := buf w; ptr := ptr w; limit := limit w |}.

Definition with_ncalls (w : machine) (n : nat) : machine :=
  {| mem := mem w; arrays := arrays w; alloc := alloc w; ncalls := n;
     junk := junk w; buf := buf w; ptr := ptr w; limit := limit w |}.

Definition with_buf (w : machine) (a : Z) : machine :=
  {| mem := mem w; arrays := arrays w; alloc := alloc w; ncalls := ncalls w;
     junk := junk w; buf := a; ptr := ptr w; limit := limit w |}.

Definition with_ptr (w : machine) (a : Z) : machine :=
  {| mem := mem w; arrays := arrays w; alloc := alloc w; ncalls := ncalls w;
     junk := junk w; buf := buf w; ptr := a; limit := limit w |}.

Definition with_limit (w : machine) (a : Z) : machine :=
  {| mem := mem w; arrays := arrays w; alloc := alloc w; ncalls := ncalls w;
     junk := junk w; buf := buf w; ptr := ptr w; limit := a |}.

(** Bytes already written: [e->limit - e->ptr]. *)
Definition used (w : machine) : Z := limit w - ptr w.

(** The written region [[ptr, limit)] as a byte string, read forward. *)
Definition output (w : machine) : list Z :=
  load_bytes (mem w) (ptr w) (Z.to_nat (used w)).

(** ** The monad of the [bool]-returning C functions *)

(** [Ok]: returned true. [Fail]: returned false (a [CHK] failed).
    [Undef]: a [UPB_ASSERT] failed or a descriptor index was out of
    range. [Timeout]: the model ran out of fuel (the C code would not
    return). *)
Inductive outcome (A : Type) :=
| Ok (a : A) (w : machine)
| Fail (w : machine)
| Undef
| Timeout.

Arguments Ok {A} a w.
Arguments Fail {A} w.
Arguments Undef {A}.
Arguments Timeout {A}.

Definition M (A : Type) := machine -> outcome A.

Definition ret {A} (a : A) : M A := fun w => Ok a w.

Definition bind {A B} (c : M A) (f : A -> M B) : M B :=
  fun w =>
    match c w with
    | Ok a w' => f a w'
    | Fail w' => Fail w'
    | Undef => Undef
    | Timeout => Timeout
    end.

Notation "x <- c ;; k" := (bind c (fun x => k))
  (at level 61, c at next level, right associativity).
Notation "c ;; k" := (bind c (fun _ => k))
  (at level 61, right associativity).

Definition get : M machine := fun w => Ok w w.
Definition set_mem (m : memory) : M unit := fun w => Ok tt (with_mem w m).
Definition set_buf (a : Z) : M unit := fun w => Ok tt (with_buf w a).
Definition set_ptr (a : Z) : M unit := fun w => Ok tt (with_ptr w a).
Definition set_limit (a : Z) : M unit := fun w => Ok tt (with_limit w a).

(** [CHK(x)]: return false unless [x]. *)
Definition CHK (x : bool) : M unit := fun w => if x then Ok tt w else Fail w.

(** [UPB_ASSERT(x)]. *)
Definition UPB_ASSERT (x : bool) : M unit :=
  fun w => if x then Ok tt w else Undef.

Definition undefined {A} : M A := fun _ => Undef.
Definition timeout {A} : M A := fun _ => Timeout.

Definition memmove (dst src n : Z) : M unit :=
  e <- get ;; set_mem (mem_move (mem e) dst src n).

Definition store (dst : Z) (bs : list Z) : M unit :=
  e <- get ;; set_mem (store_bytes (mem e) dst bs).

(** ** Growable reverse buffer (encode.c, lines 54-113) *)

(** The loop of [upb_roundup_pow2]. Once [ret] has wrapped to 0 (after 57
    doublings) it stays 0, so 64 rounds without leaving the loop mean the
    C loop never ends. *)
Fixpoint roundup_loop (fuel : nat) (ret bytes : Z) : option Z :=
  match fuel with
  | O => None
  | S k =>
      if ret <? bytes then roundup_loop k (wrap64 (ret * 2)) bytes
      else Some ret
  end.

Definition upb_roundup_pow2 (bytes : Z) : M Z :=
  match roundup_loop 64 128 bytes with
  | Some r => ret r
  | None => timeout
  end.

(** Modelled from the spec: [upb_env_realloc] of upb/upb.h (absent), the
    one capability of the external allocator: given the old region, its
    size and the requested size, it returns a new base pointer or NULL;
    like [realloc] it leaves the old contents at the beginning of the new
    region and touches nothing else. *)
Definition upb_env_realloc (old oldsize size : Z) : M Z :=
  fun w =>
    let p := alloc w (ncalls w) in
    let w' := with_ncalls w (S (ncalls w)) in
    if p =? 0 then Ok p w'
    else Ok p (with_mem w' (mem_move (mem w) p old (Z.min oldsize size))).

Definition upb_encode_growbuffer (bytes : Z) : M unit :=
  e <- get ;;
  let old_size := wrap64 (limit e - buf e) in
  new_size <- upb_roundup_pow2 (wrap64 (bytes + (limit e - ptr e))) ;;
  new_buf <- upb_env_realloc (buf e) old_size new_size ;;
  CHK (negb (new_buf =? 0)) ;;
  (* We want previous data at the end, realloc() put it at the beginning. *)
  memmove (limit e - old_size) (buf e) old_size ;;
  set_ptr (new_buf + new_size - (limit e - ptr e)) ;;
  set_limit (new_buf + new_size) ;;
  set_buf new_buf.

Definition upb_encode_reserve (bytes : Z) : M unit :=
  e <- get ;;
  (if bytes <=? wrap64 (ptr e - buf e) then ret tt
   else upb_encode_growbuffer bytes) ;;
  e <- get ;;
  set_ptr (ptr e - bytes).

(** A [const void *data] argument: bytes in memory, or the bytes of a
    local variable of the caller ([&val]). *)
Inductive data_ptr :=
| InMem (a : Z)
| Local (bs : list Z).

Definition read_data (m : memory) (data : data_ptr) (len : Z) : list Z :=
  match data with
  | InMem a => load_bytes m a (Z.to_nat len)
  | Local bs => firstn (Z.to_nat len) bs
  end.

Definition memcpy (dst : Z) (data : data_ptr) (len : Z) : M unit :=
  e <- get ;; set_mem (store_bytes (mem e) dst (read_data (mem e) data len)).

Definition upb_put_bytes (data : data_ptr) (len : Z) : M unit :=
  upb_encode_reserve len ;;
  e <- get ;;
  memcpy (ptr e) data len.

Definition upb_put_fixed64 (val : Z) : M unit :=
  upb_put_bytes (Local (le_bytes 8 val)) 8.

Definition upb_put_fixed32 (val : Z) : M unit :=
  upb_put_bytes (Local (le_bytes 4 val)) 4.

Definition upb_put_varint (val : Z) : M unit :=
  upb_encode_reserve UPB_PB_VARINT_MAX_LEN ;;
  e <- get ;;
  store (ptr e) (upb_encode_varint val) ;;
  let len := Z.of_nat (length (upb_encode_varint val)) in
  let start := ptr e + UPB_PB_VARINT_MAX_LEN - len in
  memmove start (ptr e) len ;;
  set_ptr start.

(** [upb_put_double] and [upb_put_float] copy the bits of their argument
    into an integer of the same width; the model carries floating-point
    values as their bit patterns. *)
Definition upb_put_double (d : Z) : M unit := upb_put_fixed64 d.
Definition upb_put_float (d : Z) : M unit := upb_put_fixed32 d.

Definition upb_readcase (msg : Z) (m : upb_msglayout_msginit_v1)
    (oneof_index : nat) : M Z :=
  match nth_error (oneofs m) oneof_index with
  | None => undefined
  | Some o => e <- get ;; ret (load_u32 (mem e) (msg + case_offset o))
  end.

Definition upb_readhasbit (msg : Z) (f : upb_msglayout_fieldinit_v1)
  : M bool :=
  match hasbit f with
  | None => undefined   (* UPB_ASSERT(f->hasbit != UPB_NO_HASBIT) *)
  | Some h =>
      e <- get ;;
      ret (negb (Z.land (load_u8 (mem e) (msg + h / 8))
                        (Z.shiftl 1 (h mod 8)) =? 0))
  end.

(** [field_number] and [wire_type] are [int]; the tag is converted to
    [uint64_t] at the call of [upb_put_varint]. *)
Definition upb_put_tag (field_number wire_type : Z) : M unit :=
  upb_put_varint
    (wrap64 (Z.lor (signed32 (Z.shiftl field_number 3)) wire_type)).

Definition upb_put_fixedarray (arr : upb_array) (size : Z) : M unit :=
  let bytes := wrap64 (arr_len arr * size) in
  upb_put_bytes (InMem (arr_data arr)) bytes ;;
  upb_put_varint bytes.

(** ** Field and message encoders (encode.c, lines 152-368) *)

(** The loops [do { ptr--; ... } while (ptr != start)] over the elements
    of a non-empty array: the body runs for the indices [n-1], ..., 0. *)
Fixpoint array_loop (n : nat) (body : Z -> M unit) : M unit :=
  match n with
  | O => ret tt
  | S k => body (Z.of_nat k) ;; array_loop k body
  end.

(** The macro [VARINT_CASE(ctype, encode)]; [csize] is [sizeof(ctype)]
    and [encode m p] the value of the expression [encode] with [ptr = p]. *)
Definition VARINT_CASE (arr : upb_array) (csize : Z)
    (encode : memory -> Z -> Z) : M unit :=
  e <- get ;;
  let start := arr_data arr in
  let pre_len := wrap64 (limit e - ptr e) in
  array_loop (Z.to_nat (arr_len arr))
    (fun i => e <- get ;; upb_put_varint (encode (mem e) (start + i * csize))) ;;
  e <- get ;;
  upb_put_varint (wrap64 (limit e - ptr e - pre_len)).

(** [val == 0] on a [double] or a [float] given by its bits: true for
    both zeros. *)
Definition double_is_zero (bits : Z) : bool := Z.land bits (2 ^ 63 - 1) =? 0.
Definition float_is_zero (bits : Z) : bool := Z.land bits (2 ^ 31 - 1) =? 0.

(** The macro [CASE(ctype, type, wire_type, encodeval)] once [val] is
    read: [is_zero] is [val == 0], [put] is [upb_put_type(e, encodeval)]. *)
Definition CASE (skip_zero_value is_zero : bool) (put : M unit)
    (field_number wire_type : Z) : M unit :=
  if skip_zero_value && is_zero then ret tt
  else put ;; upb_put_tag field_number wire_type.

Section Encoder.

(** The table of all layouts; a layout pointer is an index into it. *)
Variable layouts : list upb_msglayout_msginit_v1.

(** [m->submsgs[f->submsg_index]]. *)
Definition submsg_layout (m : upb_msglayout_msginit_v1)
    (f : upb_msglayout_fieldinit_v1) : M upb_msglayout_msginit_v1 :=
  match nth_error (submsgs m) (submsg_index f) with
  | None => undefined
  | Some r =>
      match nth_error layouts r with
      | None => undefined
      | Some subm => ret subm
      end
  end.

(** The recursive call [upb_encode_message(e, msg, m, &size)]: it takes
    the value [*size] holds at the call and returns the value it holds
    at the return. *)
Variable encode_message : Z -> upb_msglayout_msginit_v1 -> Z -> M Z.

Definition upb_encode_array (field_mem : Z) (m : upb_msglayout_msginit_v1)
    (f : upb_msglayout_fieldinit_v1) : M unit :=
  e <- get ;;
  let arr := load_u64 (mem e) field_mem in
  if (arr =? 0) || (arr_len (arrays e arr) =? 0) then ret tt
  else
    let arr := arrays e arr in
    UPB_ASSERT (upb_fieldtype_t_beq (arr_type arr)
                  (upb_desctype_to_fieldtype2 (type f))) ;;
    let fn := signed32 (number f) in
    match type f with
    | UPB_DESCRIPTOR_TYPE_DOUBLE =>
        upb_put_fixedarray arr 8 ;; upb_put_tag fn UPB_WIRE_TYPE_DELIMITED
    | UPB_DESCRIPTOR_TYPE_FLOAT =>
        upb_put_fixedarray arr 4 ;; upb_put_tag fn UPB_WIRE_TYPE_DELIMITED
    | UPB_DESCRIPTOR_TYPE_SFIXED64
    | UPB_DESCRIPTOR_TYPE_FIXED64 =>
        upb_put_fixedarray arr 8 ;; upb_put_tag fn UPB_WIRE_TYPE_DELIMITED
    | UPB_DESCRIPTOR_TYPE_FIXED32
    | UPB_DESCRIPTOR_TYPE_SFIXED32 =>
        upb_put_fixedarray arr 4 ;; upb_put_tag fn UPB_WIRE_TYPE_DELIMITED
    | UPB_DESCRIPTOR_TYPE_INT64
    | UPB_DESCRIPTOR_TYPE_UINT64 =>
        VARINT_CASE arr 8 (fun m p => load_u64 m p) ;;
        upb_put_tag fn UPB_WIRE_TYPE_DELIMITED
    | UPB_DESCRIPTOR_TYPE_UINT32
    | UPB_DESCRIPTOR_TYPE_INT32
    | UPB_DESCRIPTOR_TYPE_ENUM =>
        VARINT_CASE arr 4 (fun m p => load_u32 m p) ;;
        upb_put_tag fn UPB_WIRE_TYPE_DELIMITED
    | UPB_DESCRIPTOR_TYPE_BOOL =>
        VARINT_CASE arr 1 (fun m p => load_bool m p) ;;
        upb_put_tag fn UPB_WIRE_TYPE_DELIMITED
    | UPB_DESCRIPTOR_TYPE_SINT32 =>
        VARINT_CASE arr 4
          (fun m p => upb_zzencode_32 (signed32 (load_u32 m p))) ;;
        upb_put_tag fn UPB_WIRE_TYPE_DELIMITED
    | UPB_DESCRIPTOR_TYPE_SINT64 =>
        VARINT_CASE arr 8
          (fun m p => upb_zzencode_64 (signed64 (load_u64 m p))) ;;
        upb_put_tag fn UPB_WIRE_TYPE_DELIMITED
    | UPB_DESCRIPTOR_TYPE_STRING
    | UPB_DESCRIPTOR_TYPE_BYTES =>
        let start := arr_data arr in
        array_loop (Z.to_nat (arr_len arr))
          (fun i =>
             e <- get ;;
             let p := start + i * 16 in
             let data := load_u64 (mem e) p in
             let size := load_u64 (mem e) (p + 8) in
             upb_put_bytes (InMem data) size ;;
             upb_put_varint size ;;
             upb_put_tag fn UPB_WIRE_TYPE_DELIMITED)
    | UPB_DESCRIPTOR_TYPE_GROUP =>
        let start := arr_data arr in
        subm <- submsg_layout m f ;;
        array_loop (Z.to_nat (arr_len arr))
          (fun i =>
             e <- get ;;
             let elem := load_u64 (mem e) (start + i * 8) in
             upb_put_tag fn UPB_WIRE_TYPE_END_GROUP ;;
             _ <- encode_message elem subm (junk e) ;;
             upb_put_tag fn UPB_WIRE_TYPE_START_GROUP)
    | UPB_DESCRIPTOR_TYPE_MESSAGE =>
        let start := arr_data arr in
        subm <- submsg_layout m f ;;
        array_loop (Z.to_nat (arr_len arr))
          (fun i =>
             e <- get ;;
             let elem := load_u64 (mem e) (start + i * 8) in
             size <- encode_message elem subm (junk e) ;;
             upb_put_varint size ;;
             upb_put_tag fn UPB_WIRE_TYPE_DELIMITED)
    end.

Definition upb_encode_scalarfield (field_mem : Z)
    (m : upb_msglayout_msginit_v1) (f : upb_msglayout_fieldinit_v1)
    (is_proto3 : bool) : M unit :=
  let skip_zero_value :=
    is_proto3 && match oneof_index f with None => true | Some _ => false end in
  let fn := signed32 (number f) in
  e <- get ;;
  match type f with
  | UPB_DESCRIPTOR_TYPE_DOUBLE =>
      let val := load_u64 (mem e) field_mem in
      CASE skip_zero_value (double_is_zero val) (upb_put_double val)
        fn UPB_WIRE_TYPE_64BIT
  | UPB_DESCRIPTOR_TYPE_FLOAT =>
      let val := load_u32 (mem e) field_mem in
      CASE skip_zero_value (float_is_zero val) (upb_put_float val)
        fn UPB_WIRE_TYPE_32BIT
  | UPB_DESCRIPTOR_TYPE_INT64
  | UPB_DESCRIPTOR_TYPE_UINT64 =>
      let val := load_u64 (mem e) field_mem in
      CASE skip_zero_value (val =? 0) (upb_put_varint val)
        fn UPB_WIRE_TYPE_VARINT
  | UPB_DESCRIPTOR_TYPE_UINT32
  | UPB_DESCRIPTOR_TYPE_INT32
  | UPB_DESCRIPTOR_TYPE_ENUM =>
      let val := load_u32 (mem e) field_mem in
      CASE skip_zero_value (val =? 0) (upb_put_varint val)
        fn UPB_WIRE_TYPE_VARINT
  | UPB_DESCRIPTOR_TYPE_SFIXED64
  | UPB_DESCRIPTOR_TYPE_FIXED64 =>
      let val := load_u64 (mem e) field_mem in
      CASE skip_zero_value (val =? 0) (upb_put_fixed64 val)
        fn UPB_WIRE_TYPE_64BIT
  | UPB_DESCRIPTOR_TYPE_FIXED32
  | UPB_DESCRIPTOR_TYPE_SFIXED32 =>
      let val := load_u32 (mem e) field_mem in
      CASE skip_zero_value (val =? 0) (upb_put_fixed32 val)
        fn UPB_WIRE_TYPE_32BIT
  | UPB_DESCRIPTOR_TYPE_BOOL =>
      let val := load_bool (mem e) field_mem in
      CASE skip_zero_value (val =? 0) (upb_put_varint val)
        fn UPB_WIRE_TYPE_VARINT
  | UPB_DESCRIPTOR_TYPE_SINT32 =>
      let val := signed32 (load_u32 (mem e) field_mem) in
      CASE skip_zero_value (val =? 0) (upb_put_varint (upb_zzencode_32 val))
        fn UPB_WIRE_TYPE_VARINT
  | UPB_DESCRIPTOR_TYPE_SINT64 =>
      let val := signed64 (load_u64 (mem e) field_mem) in
      CASE skip_zero_value (val =? 0) (upb_put_varint (upb_zzencode_64 val))
        fn UPB_WIRE_TYPE_VARINT
  | UPB_DESCRIPTOR_TYPE_STRING
  | UPB_DESCRIPTOR_TYPE_BYTES =>
      let data := load_u64 (mem e) field_mem in
      let size := load_u64 (mem e) (field_mem + 8) in
      if skip_zero_value && (size =? 0) then ret tt
      else
        upb_put_bytes (InMem data) size ;;
        upb_put_varint size ;;
        upb_put_tag fn UPB_WIRE_TYPE_DELIMITED
  | UPB_DESCRIPTOR_TYPE_GROUP =>
      let submsg := load_u64 (mem e) field_mem in
      subm <- submsg_layout m f ;;
      if skip_zero_value && (submsg =? 0) then ret tt
      else
        upb_put_tag fn UPB_WIRE_TYPE_END_GROUP ;;
        _ <- encode_message submsg subm (junk e) ;;
        upb_put_tag fn UPB_WIRE_TYPE_START_GROUP
  | UPB_DESCRIPTOR_TYPE_MESSAGE =>
      let submsg := load_u64 (mem e) field_mem in
      subm <- submsg_layout m f ;;
      if skip_zero_value && (submsg =? 0) then ret tt
      else
        size <- encode_message submsg subm (junk e) ;;
        upb_put_varint size ;;
        upb_put_tag fn UPB_WIRE_TYPE_DELIMITED
  end.

Definition upb_encode_hasscalarfield (msg : Z)
    (m : upb_msglayout_msginit_v1) (f : upb_msglayout_fieldinit_v1)
  : M bool :=
  match oneof_index f with
  | Some oi => c <- upb_readcase msg m oi ;; ret (c =? number f)
  | None =>
      if is_proto2 m then upb_readhasbit msg f
      else (* For proto3, we'll test for the field being empty later. *)
        ret true
  end.

(** The body of the [for] loop of [upb_encode_message] for the field [f]. *)
Definition encode_field (msg : Z) (m : upb_msglayout_msginit_v1)
    (f : upb_msglayout_fieldinit_v1) : M unit :=
  if upb_label_t_beq (label f) UPB_LABEL_REPEATED then
    upb_encode_array (msg + offset f) m f
  else
    has <- upb_encode_hasscalarfield msg m f ;;
    if has then
      upb_encode_scalarfield (msg + offset f) m f (negb (is_proto2 m))
    else ret tt.

(** [for (i = m->field_count - 1; i >= 0; i--)]: the fields in the order
    of the list [fs], which the caller reverses. *)
Fixpoint fields_loop (msg : Z) (m : upb_msglayout_msginit_v1)
    (fs : list upb_msglayout_fieldinit_v1) : M unit :=
  match fs with
  | [] => ret tt
  | f :: rest => encode_field msg m f ;; fields_loop msg m rest
  end.

End Encoder.

(** [upb_encode_message]; each unit of [fuel] is one level of message
    nesting. The argument [size] is what [*size] holds at the call; the
    result is what it holds at the return. *)
Fixpoint upb_encode_message (layouts : list upb_msglayout_msginit_v1)
    (fuel : nat) (msg : Z) (m : upb_msglayout_msginit_v1) (size : Z)
  : M Z :=
  match fuel with
  | O => timeout
  | S k =>
      e <- get ;;
      let buf_end := ptr e in
      if msg =? 0 then ret size
      else
        fields_loop layouts (upb_encode_message layouts k) msg m
          (rev (fields m)) ;;
        e <- get ;;
        ret (wrap64 (buf_end - ptr e))
  end.

(** The pointer [upb_encode] returns: NULL, the address of its static
    [char ch], or a pointer into the buffer. *)
Inductive encoded_ptr :=
| NullPtr
| StaticCh
| BufPtr (a : Z).

(** The encoder state [upb_encode] starts from: [e.buf], [e.limit] and
    [e.ptr] are NULL. *)
Definition empty_encstate (w : machine) : machine :=
  with_ptr (with_limit (with_buf w 0) 0) 0.

(** [upb_encode]: the returned pointer and the final [*size]. The
    encoder state [e] is a fresh local: the [buf], [ptr] and [limit] of
    the incoming machine are not read. *)
Definition upb_encode (layouts : list upb_msglayout_msginit_v1)
    (fuel : nat) (msg : Z) (m : upb_msglayout_msginit_v1) (size : Z)
  : M (encoded_ptr * Z) :=
  fun w =>
    let e := empty_encstate w in
    match upb_encode_message layouts fuel msg m size e with
    | Fail w' => Ok (NullPtr, 0) w'
    | Ok _ w' =>
        let size := wrap64 (limit w' - ptr w') in
        if size =? 0 then Ok (StaticCh, size) w'
        else if ptr w' =? 0 then Undef   (* UPB_ASSERT(e.ptr) *)
        else Ok (BufPtr (ptr w'), size) w'
    | Undef => Undef
    | Timeout => Timeout
    end.

(** ** Specification-side definitions *)

(** The write primitives of the growable reverse buffer, as one type. *)
Inductive write_primitive :=
| Reserve (n : Z)
| PutBytes (data : data_ptr) (len : Z)
| PutVarint (val : Z)
| PutFixed32 (val : Z)
| PutFixed64 (val : Z)
| PutTag (field_number wire_type : Z).

Definition run_primitive (p : write_primitive) : M unit :=
  match p with
  | Reserve n => upb_encode_reserve n
  | PutBytes data len => upb_put_bytes data len
  | PutVarint val => upb_put_varint val
  | PutFixed32 val => upb_put_fixed32 val
  | PutFixed64 val => upb_put_fixed64 val
  | PutTag fn wt => upb_put_tag fn wt
  end.

(** The number of bytes a primitive asks [upb_encode_reserve] for. *)
Definition reserved (p : write_primitive) : Z :=
  match p with
  | Reserve n => n
  | PutBytes _ len => len
  | PutVarint _ => UPB_PB_VARINT_MAX_LEN
  | PutFixed32 _ => 4
  | PutFixed64 _ => 8
  | PutTag _ _ => UPB_PB_VARINT_MAX_LEN
  end.

(** The tag value [upb_put_tag] hands to [upb_put_varint]. *)
Definition tag_value (field_number wire_type : Z) : Z :=
  wrap64 (Z.lor (signed32 (Z.shiftl field_number 3)) wire_type).

(** The number of bytes a primitive appends to the output. *)
Definition appended (p : write_primitive) : Z :=
  match p with
  | Reserve n => n
  | PutBytes _ len => len
  | PutVarint val => Z.of_nat (length (upb_encode_varint val))
  | PutFixed32 _ => 4
  | PutFixed64 _ => 8
  | PutTag fn wt => Z.of_nat (length (upb_encode_varint (tag_value fn wt)))
  end.

(** A primitive runs without growing the buffer when the room below the
    cursor, as [upb_encode_reserve] measures it, covers its request. *)
Definition no_growth (p : write_primitive) (w : machine) : Prop :=
  0 <= reserved p <= wrap64 (ptr w - buf w).

(** The spec's zero value of each wire category, read from the field's
    storage: numeric 0 (either sign, for floating point), false, empty
    string or bytes, null submessage pointer. *)
Definition zero_valued (mm : memory) (field_mem : Z)
    (t : upb_descriptortype_t) : bool :=
  match t with
  | UPB_DESCRIPTOR_TYPE_DOUBLE =>
      let bits := load_u64 mm field_mem in (bits =? 0) || (bits =? 2 ^ 63)
  | UPB_DESCRIPTOR_TYPE_FLOAT =>
      let bits := load_u32 mm field_mem in (bits =? 0) || (bits =? 2 ^ 31)
  | UPB_DESCRIPTOR_TYPE_INT64 | UPB_DESCRIPTOR_TYPE_UINT64
  | UPB_DESCRIPTOR_TYPE_FIXED64 | UPB_DESCRIPTOR_TYPE_SFIXED64
  | UPB_DESCRIPTOR_TYPE_SINT64 => load_u64 mm field_mem =? 0
  | UPB_DESCRIPTOR_TYPE_INT32 | UPB_DESCRIPTOR_TYPE_UINT32
  | UPB_DESCRIPTOR_TYPE_ENUM | UPB_DESCRIPTOR_TYPE_FIXED32
  | UPB_DESCRIPTOR_TYPE_SFIXED32
  | UPB_DESCRIPTOR_TYPE_SINT32 => load_u32 mm field_mem =? 0
  | UPB_DESCRIPTOR_TYPE_BOOL => load_u8 mm field_mem =? 0
  | UPB_DESCRIPTOR_TYPE_STRING
  | UPB_DESCRIPTOR_TYPE_BYTES => load_u64 mm (field_mem + 8) =? 0
  | UPB_DESCRIPTOR_TYPE_GROUP
  | UPB_DESCRIPTOR_TYPE_MESSAGE => load_u64 mm field_mem =? 0
  end.

(** The spec's presence rule for a singular field. *)
Definition field_present (mm : memory) (msg : Z)
    (m : upb_msglayout_msginit_v1) (f : upb_msglayout_fieldinit_v1) : bool :=
  match oneof_index f with
  | Some oi =>
      match nth_error (oneofs m) oi with
      | Some o => load_u32 mm (msg + case_offset o) =? number f
      | None => false
      end
  | None =>
      if is_proto2 m then
        match hasbit f with
        | Some h => Z.testbit (load_u8 mm (msg + h / 8)) (h mod 8)
        | None => false
        end
      else negb (zero_valued mm (msg + offset f) (type f))
  end.

(** The varint-representable element types of a repeated field: the
    size of an element and the value encoded for the element at [p]
    (zigzag-encoded first for sint32 and sint64). *)
Definition packed_varint (t : upb_descriptortype_t)
  : option (Z * (memory -> Z -> Z)) :=
  match t with
  | UPB_DESCRIPTOR_TYPE_INT64
  | UPB_DESCRIPTOR_TYPE_UINT64 => Some (8, fun m p => load_u64 m p)
  | UPB_DESCRIPTOR_TYPE_UINT32
  | UPB_DESCRIPTOR_TYPE_INT32
  | UPB_DESCRIPTOR_TYPE_ENUM => Some (4, fun m p => load_u32 m p)
  | UPB_DESCRIPTOR_TYPE_BOOL => Some (1, fun m p => load_bool m p)
  | UPB_DESCRIPTOR_TYPE_SINT32 =>
      Some (4, fun m p => upb_zzencode_32 (signed32 (load_u32 m p)))
  | UPB_DESCRIPTOR_TYPE_SINT64 =>
      Some (8, fun m p => upb_zzencode_64 (signed64 (load_u64 m p)))
  | _ => None
  end.

(** The values of the first [n] elements of an array, in array order. *)
Definition array_values (mm : memory) (start csize : Z)
    (encode : memory -> Z -> Z) (n : nat) : list Z :=
  map (fun i => encode mm (start + Z.of_nat i * csize)) (seq 0 n).

(** The [n] elements of size [csize] at [start] lie outside the buffer. *)
Definition outside_buffer (w : machine) (start csize : Z) (n : nat) : Prop :=
  start + Z.of_nat n * csize <= buf w \/ limit w <= start.

(** The packed record of the spec, read forward: one tag with wire type
    2, the length varint (the sum of the widths of the element varints),
    the element varints in array order. *)
Definition packed_record (field_number : Z) (values : list Z) : list Z :=
  let body := concat (map upb_encode_varint values) in
  upb_encode_varint (tag_value field_number UPB_WIRE_TYPE_DELIMITED)
  ++ upb_encode_varint (Z.of_nat (length body))
  ++ body.

(** The allocator grants every request. *)
Definition never_denies (w : machine) : Prop := forall n, alloc w n <> 0.

(** ** Sample inputs *)

Module Samples.

Definition no_array : upb_array :=
  {| arr_type := UPB_TYPE_BOOL; arr_len := 0; arr_data := 0 |}.

(** A machine about to encode: zero-filled memory holding the record
    [m], no buffer yet, an arena-like allocator handing out a fresh
    64 KiB-aligned region at each call. *)
Definition fresh (m : memory) (ar : Z -> upb_array) : machine :=
  {| mem := m; arrays := ar;
     alloc := fun n => 65536 * (Z.of_nat n + 1); ncalls := 0;
     junk := 7; buf := 0; ptr := 0; limit := 0 |}.

(** The same with an allocator that denies every request. *)
Definition starved (m : memory) (ar : Z -> upb_array) : machine :=
  {| mem := m; arrays := ar; alloc := fun _ => 0; ncalls := 0;
     junk := 7; buf := 0; ptr := 0; limit := 0 |}.

Definition zeros : memory := fun _ => 0.
Definition no_arrays : Z -> upb_array := fun _ => no_array.

Definition field (n off : Z) (ty : upb_descriptortype_t) (lab : upb_label_t)
  : upb_msglayout_fieldinit_v1 :=
  {| number := n; offset := off; hasbit := None; oneof_index := None;
     submsg_index := 0; type := ty; label := lab |}.

(** proto3 [message Inner { int32 a = 1; }] and
    [message Outer { Inner s = 1; }]; an Outer at 1000 pointing to an
    Inner at 2000 with [a = 5]. *)
Definition Inner : upb_msglayout_msginit_v1 :=
  {| submsgs := [];
     fields := [field 1 0 UPB_DESCRIPTOR_TYPE_INT32 UPB_LABEL_OPTIONAL];
     oneofs := []; is_proto2 := false |}.

Definition Outer : upb_msglayout_msginit_v1 :=
  {| submsgs := [1%nat];
     fields := [field 1 0 UPB_DESCRIPTOR_TYPE_MESSAGE UPB_LABEL_OPTIONAL];
     oneofs := []; is_proto2 := false |}.

Definition nested_layouts := [Outer; Inner].

Definition nested_mem : memory :=
  store_bytes (store_bytes zeros 1000 (le_bytes 8 2000)) 2000 (le_bytes 4 5).

(** proto2 [message Opt { optional Inner s = 1; }] whose hasbit 0 is set
    while the submessage pointer (at offset 8) is null. *)
Definition Opt : upb_msglayout_msginit_v1 :=
  {| submsgs := [1%nat];
     fields := [ {| number := 1; offset := 8; hasbit := Some 0;
                    oneof_index := None; submsg_index := 0;
                    type := UPB_DESCRIPTOR_TYPE_MESSAGE;
                    label := UPB_LABEL_OPTIONAL |} ];
     oneofs := []; is_proto2 := true |}.

Definition opt_layouts := [Opt; Inner].
Definition opt_mem : memory := store_bytes zeros 1000 [1].

(** proto3 [message Two { string name = 1; int32 id = 2; }]: a record
    at 1000 with a 125-byte name of 'A's stored at 3000 and [id = 5]. *)
Definition Two : upb_msglayout_msginit_v1 :=
  {| submsgs := [];
     fields := [field 1 0 UPB_DESCRIPTOR_TYPE_STRING UPB_LABEL_OPTIONAL;
                field 2 16 UPB_DESCRIPTOR_TYPE_INT32 UPB_LABEL_OPTIONAL];
     oneofs := []; is_proto2 := false |}.

Definition two_mem (name_len : Z) : memory :=
  store_bytes
    (store_bytes
       (store_bytes zeros 1000 (le_bytes 8 3000 ++ le_bytes 8 name_len))
       1016 (le_bytes 4 5))
    3000 (repeat 65 (Z.to_nat name_len)).

(** proto3 [message Three { int32 a = 1; int32 b = 2; int32 c = 3; }]
    with values 10, 20, 30. *)
Definition Three : upb_msglayout_msginit_v1 :=
  {| submsgs := [];
     fields := [field 1 0 UPB_DESCRIPTOR_TYPE_INT32 UPB_LABEL_OPTIONAL;
                field 2 4 UPB_DESCRIPTOR_TYPE_INT32 UPB_LABEL_OPTIONAL;
                field 3 8 UPB_DESCRIPTOR_TYPE_INT32 UPB_LABEL_OPTIONAL];
     oneofs := []; is_proto2 := false |}.

Definition three_mem : memory :=
  store_bytes zeros 1000 (le_bytes 4 10 ++ le_bytes 4 20 ++ le_bytes 4 30).

(** proto3 [message Rep { repeated int32 xs = 1; }]: a record at 1000
    whose array header is at 5000 and whose elements are at 6000. *)
Definition Rep (ty : upb_descriptortype_t) : upb_msglayout_msginit_v1 :=
  {| submsgs := [];
     fields := [field 1 0 ty UPB_LABEL_REPEATED];
     oneofs := []; is_proto2 := false |}.

Definition rep_arrays (ty : upb_fieldtype_t) (n : Z) : Z -> upb_array :=
  fun a =>
    if a =? 5000 then {| arr_type := ty; arr_len := n; arr_data := 6000 |}
    else no_array.

Definition rep_mem (elems : list Z) : memory :=
  store_bytes (store_bytes zeros 1000 (le_bytes 8 5000)) 6000 elems.

(** [[1, 300, -1]] as int32 elements. *)
Definition small_int32s : list Z :=
  le_bytes 4 1 ++ le_bytes 4 300 ++ le_bytes 4 (2 ^ 32 - 1).

(** Thirty int32 elements [-1]: 150 bytes once encoded. *)
Definition many_int32s : list Z := repeat 255 120.

End Samples.

(** ** Wire records of singular fields *)

(** The wire record of a singular field that is neither a message nor a
    group, read forward: the tag, then the value - a varint (zigzag
    first for sint32/sint64), the little-endian bytes of a fixed-width
    value, or a length varint and the bytes of a string. *)
Definition scalar_record (mm : memory) (field_mem : Z)
    (f : upb_msglayout_fieldinit_v1) : option (list Z) :=
  let tag wt := upb_encode_varint (tag_value (signed32 (number f)) wt) in
  match type f with
  | UPB_DESCRIPTOR_TYPE_DOUBLE
  | UPB_DESCRIPTOR_TYPE_FIXED64
  | UPB_DESCRIPTOR_TYPE_SFIXED64 =>
      Some (tag UPB_WIRE_TYPE_64BIT ++ le_bytes 8 (load_u64 mm field_mem))
  | UPB_DESCRIPTOR_TYPE_FLOAT
  | UPB_DESCRIPTOR_TYPE_FIXED32
  | UPB_DESCRIPTOR_TYPE_SFIXED32 =>
      Some (tag UPB_WIRE_TYPE_32BIT ++ le_bytes 4 (load_u32 mm field_mem))
  | UPB_DESCRIPTOR_TYPE_INT64
  | UPB_DESCRIPTOR_TYPE_UINT64 =>
      Some (tag UPB_WIRE_TYPE_VARINT
            ++ upb_encode_varint (load_u64 mm field_mem))
  | UPB_DESCRIPTOR_TYPE_UINT32
  | UPB_DESCRIPTOR_TYPE_INT32
  | UPB_DESCRIPTOR_TYPE_ENUM =>
      Some (tag UPB_WIRE_TYPE_VARINT
            ++ upb_encode_varint (load_u32 mm field_mem))
  | UPB_DESCRIPTOR_TYPE_BOOL =>
      Some (tag UPB_WIRE_TYPE_VARINT
            ++ upb_encode_varint (load_bool mm field_mem))
  | UPB_DESCRIPTOR_TYPE_SINT32 =>
      Some (tag UPB_WIRE_TYPE_VARINT
            ++ upb_encode_varint
                 (upb_zzencode_32 (signed32 (load_u32 mm field_mem))))
  | UPB_DESCRIPTOR_TYPE_SINT64 =>
      Some (tag UPB_WIRE_TYPE_VARINT
            ++ upb_encode_varint
                 (upb_zzencode_64 (signed64 (load_u64 mm field_mem))))
  | UPB_DESCRIPTOR_TYPE_STRING
  | UPB_DESCRIPTOR_TYPE_BYTES =>
      let data := load_u64 mm field_mem in
      let size := load_u64 mm (field_mem + 8) in
      Some (tag UPB_WIRE_TYPE_DELIMITED
            ++ upb_encode_varint size
            ++ load_bytes mm data (Z.to_nat size))
  | UPB_DESCRIPTOR_TYPE_GROUP
  | UPB_DESCRIPTOR_TYPE_MESSAGE => None
  end.

(** ** Records of repeated fields that are not packed *)

(** The record of the string or bytes element whose [upb_stringview]
    is stored at [p], read forward: the tag with wire type 2, the
    length, the bytes. *)
Definition string_record (mm : memory) (field_number p : Z) : list Z :=
  let data := load_u64 mm p in
  let size := load_u64 mm (p + 8) in
  upb_encode_varint (tag_value field_number UPB_WIRE_TYPE_DELIMITED)
  ++ upb_encode_varint size
  ++ load_bytes mm data (Z.to_nat size).



(** The indices [0], ..., [n-1] of an array. *)
Definition indices (n : nat) : list Z := map Z.of_nat (seq 0 n).

(** ** Fields that are not set *)

(** [m->submsgs[f->submsg_index]] names a layout, for the field types
    that read it. *)
Definition has_layout (layouts : list upb_msglayout_msginit_v1)
    (m : upb_msglayout_msginit_v1) (f : upb_msglayout_fieldinit_v1) : bool :=
  match type f with
  | UPB_DESCRIPTOR_TYPE_GROUP
  | UPB_DESCRIPTOR_TYPE_MESSAGE =>
      match nth_error (submsgs m) (submsg_index f) with
      | Some r =>
          match nth_error layouts r with Some _ => true | None => false end
      | None => false
      end
  | _ => true
  end.

(** A field that is not set in the record at [msg]: a repeated field
    whose array is null or empty; a oneof member that is not the
    current case; a proto2 field whose hasbit is clear; a proto3 field
    holding the zero value of its type. *)
Definition unset (layouts : list upb_msglayout_msginit_v1)
    (mm : memory) (ar : Z -> upb_array) (msg : Z)
    (m : upb_msglayout_msginit_v1) (f : upb_msglayout_fieldinit_v1) : bool :=
  if upb_label_t_beq (label f) UPB_LABEL_REPEATED then
    let arr := load_u64 mm (msg + offset f) in
    (arr =? 0) || (arr_len (ar arr) =? 0)
  else
    match oneof_index f with
    | Some oi =>
        match nth_error (oneofs m) oi with
        | Some o => negb (load_u32 mm (msg + case_offset o) =? number f)
        | None => false
        end
    | None =>
        if is_proto2 m then
          match hasbit f with
          | Some h => negb (Z.testbit (load_u8 mm (msg + h / 8)) (h mod 8))
          | None => false
          end
        else
          zero_valued mm (msg + offset f) (type f) && has_layout layouts m f
    end.

(** ** Packed records of fixed-width elements *)

(** The fixed-width element types of a repeated field and the size of
    an element. *)
Definition fixed_width (t : upb_descriptortype_t) : option nat :=
  match t with
  | UPB_DESCRIPTOR_TYPE_DOUBLE
  | UPB_DESCRIPTOR_TYPE_FIXED64
  | UPB_DESCRIPTOR_TYPE_SFIXED64 => Some 8%nat
  | UPB_DESCRIPTOR_TYPE_FLOAT
  | UPB_DESCRIPTOR_TYPE_FIXED32
  | UPB_DESCRIPTOR_TYPE_SFIXED32 => Some 4%nat
  | _ => None
  end.

(** The [n] elements of [size] bytes stored from [start] on, as
    unsigned little-endian values (bit patterns, for floating point). *)
Definition fixed_values (mm : memory) (start : Z) (size n : nat) : list Z :=
  map (fun i => le_value (load_bytes mm (start + Z.of_nat i * Z.of_nat size)
                            size))
    (seq 0 n).

(** The packed record of fixed-width values, read forward: the tag with
    wire type 2, the byte length, and the values in little-endian
    order, one after the other. *)
Definition fixed_record (field_number : Z) (size : nat) (values : list Z)
  : list Z :=
  upb_encode_varint (tag_value field_number UPB_WIRE_TYPE_DELIMITED)
  ++ upb_encode_varint (Z.of_nat (length values) * Z.of_nat size)
  ++ concat (map (le_bytes size) values).

(** [upb_encode_scalarfield] is asked to skip zero values and the value
    is the zero value. *)
Definition elided (mm : memory) (field_mem : Z)
    (f : upb_msglayout_fieldinit_v1) (is_proto3 : bool) : bool :=
  is_proto3
  && match oneof_index f with None => true | Some _ => false end
  && zero_valued mm field_mem (type f).

(** A [data_ptr] argument holds [len] bytes. *)
Definition exact_data (data : data_ptr) (len : Z) : Prop :=
  match data with
  | InMem _ => 0 <= len
  | Local bs =>
      Z.of_nat (length bs) = len /\ Forall (fun b => 0 <= b < 256) bs
  end.

(** ** Encoder states with a buffer *)

Module Fixtures.

(** A machine in the middle of an encode: a 128-byte buffer at 65536
    whose last [n] bytes are written, and an allocator answering with
    the regions at 131072, 196608, ... *)
Definition midway (m : memory) (ar : Z -> upb_array) (n : Z) : machine :=
  {| mem := m; arrays := ar;
     alloc := fun k => 65536 * (Z.of_nat k + 2); ncalls := 0;
     junk := 7; buf := 65536; ptr := 65664 - n; limit := 65664 |}.

(** The same with an allocator that denies every request. *)
Definition midway_starved (m : memory) (ar : Z -> upb_array) (n : Z)
  : machine :=
  {| mem := m; arrays := ar; alloc := fun _ => 0; ncalls := 0;
     junk := 7; buf := 65536; ptr := 65664 - n; limit := 65664 |}.

(** proto2 [message Holder { optional group G = 1 { int32 a = 1; } }]:
    the group's layout is [Samples.Inner]. *)
Definition group_field : upb_msglayout_fieldinit_v1 :=
  {| number := 1; offset := 0; hasbit := None; oneof_index := None;
     submsg_index := 0; type := UPB_DESCRIPTOR_TYPE_GROUP;
     label := UPB_LABEL_OPTIONAL |}.

Definition Holder : upb_msglayout_msginit_v1 :=
  {| submsgs := [1%nat]; fields := [group_field]; oneofs := [];
     is_proto2 := true |}.

Definition holder_layouts := [Holder; Samples.Inner].

(** A [Samples.Rep] record at 1000 whose array holds the two strings
    "hi" (at 7000) and "!" (at 7100). *)
Definition strings_mem : memory :=
  store_bytes
    (store_bytes
       (Samples.rep_mem
          (le_bytes 8 7000 ++ le_bytes 8 2 ++ le_bytes 8 7100 ++ le_bytes 8 1))
       7000 [104; 105])
    7100 [33].




End Fixtures.

(** The machine an outcome ends in ([d] when there is none). *)
Definition final_state {A} (o : outcome A) (d : machine) : machine :=
  match o with
  | Ok _ w' => w'
  | Fail w' => w'
  | Undef => d
  | Timeout => d
  end.

(** [returns o a]: the outcome is a true return with result [a]. *)
Definition returns {A} (o : outcome A) (a : A) : Prop :=
  match o with
  | Ok a' _ => a' = a
  | _ => False
  end.

(** ** Predicates on commands and states *)

(** A well-formed encoder state: the cursor lies inside the buffer, and
    the buffer size fits a [size_t]. *)
Definition well_formed (w : machine) : Prop :=
  buf w <= ptr w <= limit w /\ limit w - buf w < 2 ^ 64.

(** [extended w w']: the buffer of [w'] is the buffer of [w] written
    further down: same region, cursor not higher, no byte at or above
    the old cursor changed; and from a well-formed state the new state
    is well-formed and no byte below the buffer changed either. *)
Definition extended (w w' : machine) : Prop :=
  buf w' = buf w /\ limit w' = limit w /\ ptr w' <= ptr w /\
  (forall a, ptr w <= a -> mem w' a = mem w a) /\
  (well_formed w ->
   well_formed w' /\ forall a, a < buf w -> mem w' a = mem w a).

(** [grew k w w']: from [w] to [w'] the allocator is the same, at least
    [k] bytes were added to the output, and when the allocator was not
    called the buffer was only extended. *)
Definition grew (k : Z) (w w' : machine) : Prop :=
  alloc w' = alloc w /\ used w + k <= used w' /\
  (ncalls w <= ncalls w')%nat /\
  (ncalls w' = ncalls w -> extended w w').

(** [denied w w']: the last call of the allocator between [w] and [w']
    was answered NULL. *)
Definition denied (w w' : machine) : Prop :=
  alloc w' = alloc w /\ (ncalls w < ncalls w')%nat /\
  alloc w (pred (ncalls w')) = 0.

(** [adds k c]: whenever [c] returns true the machine [grew] by [k];
    whenever it returns false the allocator has [denied] a request. *)
Definition adds {A} (k : Z) (c : M A) : Prop :=
  forall w,
    match c w with
    | Ok _ w' => grew k w w'
    | Fail w' => denied w w'
    | Undef => True
    | Timeout => True
    end.

(** A write that follows a reservation of [n] bytes: it leaves
    everything but the memory below the reserved room and the cursor,
    and moves the cursor up by [back] inside that room. *)
Definition writes_within (n back : Z) (w1 w' : machine) : Prop :=
  alloc w' = alloc w1 /\ ncalls w' = ncalls w1 /\
  buf w' = buf w1 /\ limit w' = limit w1 /\ ptr w' = ptr w1 + back /\
  forall a, a < ptr w1 \/ ptr w1 + n <= a -> mem w' a = mem w1 a.


(** [refines c1 c2]: wherever [c1] does not run out of fuel, [c2] does
    the same as [c1]. *)
Definition refines {A} (c1 c2 : M A) : Prop :=
  forall w, c1 w = Timeout \/ c2 w = c1 w.

(** [outputs c bs]: every run of [c] from a well-formed state that
    returns true without calling the allocator puts the bytes [bs w] in
    front of the output, [w] being the state it started from. *)
Definition outputs (c : M unit) (bs : machine -> list Z) : Prop :=
  forall w w',
    well_formed w -> c w = Ok tt w' -> ncalls w' = ncalls w ->
    output w' = bs w ++ output w.

(** [granted w w']: every call of the allocator made from [w] to [w']
    was answered with a pointer that is not NULL. *)
Definition granted (w w' : machine) : Prop :=
  alloc w' = alloc w /\ (ncalls w <= ncalls w')%nat /\
  forall i, (ncalls w <= i < ncalls w')%nat -> alloc w i <> 0.

(** [first_denial w w']: from [w] to [w'] the allocator was called at
    least once, its last answer was NULL and every answer before was
    not. *)
Definition first_denial (w w' : machine) : Prop :=
  alloc w' = alloc w /\ (ncalls w < ncalls w')%nat /\
  alloc w (pred (ncalls w')) = 0 /\
  forall i, (ncalls w <= i < pred (ncalls w'))%nat -> alloc w i <> 0.

(** [stops_at_denial c]: [c] returns true only when every request was
    [granted], and returns false right after the [first_denial]. *)
Definition stops_at_denial {A} (c : M A) : Prop :=
  forall w,
    match c w with
    | Ok _ w' => granted w w'
    | Fail w' => first_denial w w'
    | Undef => True
    | Timeout => True
    end.

(** [pure_read c]: [c] reads the machine and leaves it untouched. *)
Definition pure_read {A} (c : M A) : Prop :=
  forall w, match c w with
            | Ok _ w' => w' = w
            | Fail _ => False
            | Undef => True
            | Timeout => True
            end.

(** [frame w w' n]: from [w] to [w'] the buffer is the same region, the
    cursor moved down by [n], and no byte at or above the old cursor
    changed. *)
Definition frame (w w' : machine) (n : Z) : Prop :=
  buf w' = buf w /\ limit w' = limit w /\ ptr w' = ptr w - n /\
  forall a, ptr w <= a -> mem w' a = mem w a.

(** * Theorems *)

(** ** Varint codec *)

Lemma land_127 (v : Z) : Z.land v 127 = v mod 128.
Proof. change 127 with (Z.ones 7). rewrite Z.land_ones by lia. reflexivity. Qed.

Lemma shiftr_7 (v : Z) : Z.shiftr v 7 = v / 128.
Proof. rewrite Z.shiftr_div_pow2 by lia. reflexivity. Qed.

Lemma lor_128 (x : Z) : 0 <= x < 128 -> Z.lor x 128 = x + 128.
Proof.
  intros Hx.
  assert (Hl : Z.land x 128 = 0).
  { rewrite <- (Z.mod_small x 128) by lia. rewrite <- land_127.
    rewrite <- Z.land_assoc. change (Z.land 127 128) with 0.
    apply Z.land_0_r. }
  rewrite <- Z.lxor_lor by exact Hl.
  symmetry. apply Z.add_nocarry_lxor. exact Hl.
Qed.

Lemma varint_loop_zero (k : nat) : varint_loop k 0 = [].
Proof. destruct k; reflexivity. Qed.

Lemma varint_loop_step (k : nat) (v : Z) :
  0 < v ->
  varint_loop (S k) v =
  (if v / 128 =? 0 then v mod 128 else v mod 128 + 128)
    :: varint_loop k (v / 128).
Proof.
  intros Hv. simpl.
  destruct (Z.eqb_spec v 0) as [->|_]; [lia|].
  rewrite shiftr_7, land_127.
  destruct (v / 128 =? 0); [reflexivity|].
  rewrite lor_128 by (apply Z.mod_pos_bound; lia). reflexivity.
Qed.

Lemma varint_wf_cons (b b2 : Z) (r : list Z) :
  varint_wf (b :: b2 :: r) <-> 128 <= b < 256 /\ varint_wf (b2 :: r).
Proof. reflexivity. Qed.

Lemma varint_value_nonneg (bs : list Z) : 0 <= varint_value bs.
Proof.
  induction bs as [|b r IH]; cbn [varint_value]; [lia|].
  rewrite land_127. pose proof (Z.mod_pos_bound b 128 ltac:(lia)). lia.
Qed.

Lemma varint_zero_last (bs : list Z) :
  varint_wf bs -> varint_value bs = 0 -> last bs 0 = 0.
Proof.
  induction bs as [|b r IH]; [intros []|].
  destruct r as [|b2 r].
  - cbn [varint_wf varint_value last]. rewrite land_127. intros Hb Hv.
    rewrite Z.mod_small in Hv by lia. lia.
  - intros Hwf Hv. apply varint_wf_cons in Hwf. destruct Hwf as [_ Hwf].
    change (last (b :: b2 :: r) 0) with (last (b2 :: r) 0).
    apply IH; [exact Hwf|].
    change (varint_value (b :: b2 :: r))
      with (Z.land b 127 + 128 * varint_value (b2 :: r)) in Hv.
    rewrite land_127 in Hv.
    pose proof (Z.mod_pos_bound b 128).
    pose proof (varint_value_nonneg (b2 :: r)). lia.
Qed.

(** What the loop of [upb_encode_varint] produces for a positive value
    that fits the fuel. *)
Lemma varint_loop_props (k : nat) :
  forall v, 0 < v < 128 ^ Z.of_nat k ->
    varint_wf (varint_loop k v) /\
    varint_value (varint_loop k v) = v /\
    (1 <= length (varint_loop k v) <= k)%nat /\
    last (varint_loop k v) 0 <> 0.
Proof.
  induction k as [|k IH]; intros v Hv.
  - simpl in Hv. lia.
  - rewrite varint_loop_step by lia.
    assert (Hpow : 128 ^ Z.of_nat (S k) = 128 * 128 ^ Z.of_nat k).
    { rewrite Nat2Z.inj_succ, Z.pow_succ_r by lia. reflexivity. }
    pose proof (Z.div_mod v 128 ltac:(lia)) as Hdm.
    pose proof (Z.mod_pos_bound v 128 ltac:(lia)) as Hm.
    destruct (Z.eqb_spec (v / 128) 0) as [Hz|Hnz].
    + rewrite Hz, varint_loop_zero. simpl. rewrite land_127.
      rewrite Z.mod_mod by lia. repeat split; lia.
    + assert (Hq : 0 < v / 128 < 128 ^ Z.of_nat k).
      { split.
        - pose proof (Z.div_pos v 128 ltac:(lia) ltac:(lia)). lia.
        - apply Z.div_lt_upper_bound; lia. }
      destruct (IH _ Hq) as (Hwf & Hval & Hlen & Hlast).
      destruct (varint_loop k (v / 128)) as [|b2 r] eqn:Hrest.
      { simpl in Hlen. lia. }
      split; [|split; [|split]].
      * apply varint_wf_cons. split; [lia|exact Hwf].
      * change (varint_value ((v mod 128 + 128) :: b2 :: r))
          with (Z.land (v mod 128 + 128) 127 + 128 * varint_value (b2 :: r)).
        rewrite Hval, land_127.
        replace ((v mod 128 + 128) mod 128) with (v mod 128); [lia|].
        rewrite <- (Z.mul_1_l 128) at 3. rewrite Z.mod_add by lia.
        rewrite Z.mod_mod by lia. reflexivity.
      * simpl length in *. lia.
      * exact Hlast.
Qed.

(** Any well-formed varint of the same value is at least as long, and a
    minimal one is the very byte string the loop produces. *)
Lemma varint_loop_least (k : nat) :
  forall v bs, 0 < v < 128 ^ Z.of_nat k ->
    varint_wf bs -> varint_value bs = v ->
    (length (varint_loop k v) <= length bs)%nat /\
    (varint_minimal bs -> bs = varint_loop k v).
Proof.
  induction k as [|k IH]; intros v bs Hv Hwf Hval.
  - simpl in Hv. lia.
  - rewrite varint_loop_step by lia.
    assert (Hpow : 128 ^ Z.of_nat (S k) = 128 * 128 ^ Z.of_nat k).
    { rewrite Nat2Z.inj_succ, Z.pow_succ_r by lia. reflexivity. }
    pose proof (Z.div_mod v 128 ltac:(lia)) as Hdm.
    pose proof (Z.mod_pos_bound v 128 ltac:(lia)) as Hm.
    destruct bs as [|b r]; [destruct Hwf|].
    destruct r as [|b2 r].
    + cbn [varint_wf varint_value] in Hwf, Hval.
      rewrite land_127, Z.mod_small in Hval by lia.
      assert (b = v) by lia. subst b.
      rewrite (Z.div_small v 128) by lia.
      rewrite (Z.mod_small v 128) by lia. simpl.
      rewrite varint_loop_zero. split; [simpl; lia|reflexivity].
    + apply varint_wf_cons in Hwf. destruct Hwf as [Hb Hwf].
      change (varint_value (b :: b2 :: r))
        with (Z.land b 127 + 128 * varint_value (b2 :: r)) in Hval.
      rewrite land_127 in Hval.
      pose proof (Z.mod_pos_bound b 128 ltac:(lia)) as Hbm.
      pose proof (varint_value_nonneg (b2 :: r)) as Hnn.
      assert (Hbm' : b mod 128 = b - 128).
      { replace b with ((b - 128) + 1 * 128) at 1 by lia.
        rewrite Z.mod_add by lia. apply Z.mod_small. lia. }
      assert (Hdiv : v / 128 = varint_value (b2 :: r)).
      { symmetry. apply (Z.div_unique v 128 _ (b mod 128)); lia. }
      assert (Hmod : v mod 128 = b - 128).
      { rewrite <- Hbm'. symmetry.
        apply (Z.mod_unique v 128 (varint_value (b2 :: r))); lia. }
      destruct (Z.eqb_spec (v / 128) 0) as [Hz|Hnz].
      * rewrite Hz, varint_loop_zero. split; [simpl; lia|].
        intros Hmin. exfalso. apply Hmin; [simpl; lia|].
        change (last (b :: b2 :: r) 0) with (last (b2 :: r) 0).
        apply varint_zero_last; [exact Hwf|congruence].
      * assert (Hq : 0 < v / 128 < 128 ^ Z.of_nat k).
        { split; [lia|]. apply Z.div_lt_upper_bound; lia. }
        destruct (IH (v / 128) (b2 :: r) Hq Hwf (eq_sym Hdiv))
          as [Hlen Huniq].
        split; [simpl length in *; lia|].
        intros Hmin. f_equal; [lia|].
        apply Huniq. intros _.
        change (last (b2 :: r) 0) with (last (b :: b2 :: r) 0).
        apply Hmin. simpl. lia.
Qed.

Lemma upb_encode_varint_loop (v : Z) :
  0 < v -> upb_encode_varint v = varint_loop 10 v.
Proof.
  intros Hv. unfold upb_encode_varint.
  destruct (Z.ltb_spec v 128) as [Hlt|_]; [|reflexivity].
  rewrite varint_loop_step by lia.
  rewrite (Z.div_small v 128), (Z.mod_small v 128) by lia.
  rewrite varint_loop_zero. reflexivity.
Qed.

(** C7. For every 64-bit unsigned value [v], [upb_encode_varint v] is
    the unique minimal-length base-128 little-endian encoding of [v]: it
    has between 1 and 10 bytes, every byte but the last has its top bit
    set and the last has it clear, it reads back as [v], no well-formed
    varint of [v] is shorter, and every minimal well-formed varint of
    [v] is equal to it; 0, 127 and 128 encode to [[0x00]], [[0x7F]] and
    [[0x80; 0x01]]. *)
Theorem upb_encode_varint_canonical (v : Z) (Hv : is_u64 v) :
  (1 <= length (upb_encode_varint v) <= 10)%nat /\
  varint_wf (upb_encode_varint v) /\
  varint_value (upb_encode_varint v) = v /\
  varint_minimal (upb_encode_varint v) /\
  (forall bs, varint_wf bs -> varint_value bs = v ->
     (length (upb_encode_varint v) <= length bs)%nat /\
     (varint_minimal bs -> bs = upb_encode_varint v)) /\
  upb_encode_varint 0 = [0] /\
  upb_encode_varint 127 = [127] /\
  upb_encode_varint 128 = [128; 1].
Proof.
  unfold is_u64 in Hv.
  assert (Hexamples : upb_encode_varint 0 = [0] /\
                      upb_encode_varint 127 = [127] /\
                      upb_encode_varint 128 = [128; 1])
    by (repeat split; reflexivity).
  destruct (Z.eq_dec v 0) as [->|Hnz].
  - change (upb_encode_varint 0) with [0].
    split; [simpl; lia|]. split; [simpl; lia|]. split; [reflexivity|].
    split; [intros H; simpl in H; lia|]. split; [|exact Hexamples].
    intros bs Hwf Hval.
    destruct bs as [|b r]; [destruct Hwf|].
    split; [simpl; lia|].
    intros Hmin. destruct r as [|b2 r].
    + cbn [varint_wf varint_value] in Hwf, Hval.
      rewrite land_127, Z.mod_small in Hval by lia.
      f_equal. lia.
    + exfalso. apply Hmin; [simpl; lia|].
      apply varint_zero_last; assumption.
  - assert (Hfit : 0 < v < 128 ^ Z.of_nat 10).
    { change (128 ^ Z.of_nat 10) with (2 ^ 70).
      assert (2 ^ 64 < 2 ^ 70) by reflexivity. lia. }
    rewrite upb_encode_varint_loop in * by lia.
    destruct (varint_loop_props 10 v Hfit) as (Hwf & Hval & Hlen & Hlast).
    split; [exact Hlen|]. split; [exact Hwf|]. split; [exact Hval|].
    split; [intros _; exact Hlast|]. split; [|exact Hexamples].
    intros bs Hwf' Hval'. apply varint_loop_least; assumption.
Qed.

Lemma upb_encode_varint_canonical_witness :
  is_u64 300 /\ upb_encode_varint 300 = [172; 2] /\
  varint_value (upb_encode_varint 300) = 300.
Proof.
  assert (H : is_u64 300) by (unfold is_u64; lia).
  split; [exact H|]. split; [reflexivity|].
  apply (upb_encode_varint_canonical 300 H).
Defined.

(** ** Zigzag codec *)

Section ZigZag.

Variable w : Z.
Hypothesis Hw : 1 <= w.

Let P := 2 ^ (w - 1).

Lemma pow_w : 2 ^ w = 2 * P /\ 0 < P.
Proof.
  unfold P. split.
  - replace w with (Z.succ (w - 1)) at 1 by lia.
    rewrite Z.pow_succ_r by lia. reflexivity.
  - apply Z.pow_pos_nonneg; lia.
Qed.

Lemma mod_shift (x q r : Z) :
  0 <= r < 2 * P -> x = 2 * P * q + r -> x mod (2 * P) = r.
Proof. intros Hr Hx. symmetry. apply (Z.mod_unique x (2 * P) q r); lia. Qed.

Lemma signed_small (x : Z) : - P <= x < P -> signed w x = x.
Proof.
  intros Hx. destruct pow_w as [Epow HP]. unfold signed. fold P.
  rewrite Epow.
  destruct (Z_lt_le_dec x 0) as [Hneg|Hpos].
  - rewrite (mod_shift x (-1) (x + 2 * P)) by lia.
    destruct (Z.ltb_spec (x + 2 * P) P); lia.
  - rewrite (mod_shift x 0 x) by lia.
    destruct (Z.ltb_spec x P); lia.
Qed.

Lemma signed_mod (x : Z) : signed w x mod 2 ^ w = x mod 2 ^ w.
Proof.
  destruct pow_w as [Epow HP]. unfold signed. fold P. rewrite Epow.
  pose proof (Z.mod_pos_bound x (2 * P) ltac:(lia)) as Hr.
  destruct (Z.ltb_spec (x mod (2 * P)) P).
  - apply Z.mod_mod. lia.
  - apply (mod_shift _ (-1) (x mod (2 * P))); lia.
Qed.

Lemma shiftr_sign (n : Z) :
  - P <= n < P -> Z.shiftr n (w - 1) = if 0 <=? n then 0 else -1.
Proof.
  intros Hn. destruct pow_w as [_ HP].
  rewrite Z.shiftr_div_pow2 by lia. fold P.
  destruct (Z.leb_spec 0 n).
  - apply Z.div_small. lia.
  - symmetry. apply (Z.div_unique n P (-1) (n + P)); lia.
Qed.

Lemma lxor_m1 (x : Z) : Z.lxor x (-1) = - x - 1.
Proof. rewrite Z.lxor_m1_r. unfold Z.lnot. lia. Qed.

(** The encoder in closed form: [2n] for [n >= 0], [-2n-1] otherwise. *)
Lemma zz_closed (n : Z) :
  - P <= n < P ->
  Z.lxor (signed w (Z.shiftl n 1)) (Z.shiftr n (w - 1)) mod 2 ^ w
  = if 0 <=? n then 2 * n else - 2 * n - 1.
Proof.
  intros Hn. destruct pow_w as [Epow HP].
  rewrite shiftr_sign by exact Hn.
  rewrite Z.shiftl_mul_pow2 by lia. change (2 ^ 1) with 2.
  destruct (Z.leb_spec 0 n).
  - rewrite Z.lxor_0_r, signed_mod, Epow.
    apply (mod_shift _ 0); lia.
  - rewrite lxor_m1.
    replace (- signed w (n * 2) - 1) with (-1 - signed w (n * 2)) by lia.
    rewrite Zminus_mod, signed_mod, <- Zminus_mod, Epow.
    apply (mod_shift _ 0); lia.
Qed.

(** The same closed form for the formula as the spec writes it. *)
Lemma zz_formula (n : Z) :
  - P <= n < P ->
  Z.lxor (Z.shiftl n 1) (Z.shiftr n (w - 1)) mod 2 ^ w
  = if 0 <=? n then 2 * n else - 2 * n - 1.
Proof.
  intros Hn. destruct pow_w as [Epow HP].
  rewrite shiftr_sign by exact Hn.
  rewrite Z.shiftl_mul_pow2 by lia. change (2 ^ 1) with 2.
  destruct (Z.leb_spec 0 n).
  - rewrite Z.lxor_0_r, Epow. apply (mod_shift _ 0); lia.
  - rewrite lxor_m1, Epow. apply (mod_shift _ 0); lia.
Qed.

(** The decoder in closed form. *)
Lemma unzz_closed (u : Z) :
  0 <= u < 2 * P ->
  signed w (Z.lxor (Z.shiftr u 1) (- Z.land u 1))
  = if u mod 2 =? 0 then u / 2 else - (u / 2) - 1.
Proof.
  intros Hu.
  rewrite Z.shiftr_div_pow2 by lia. change (2 ^ 1) with 2.
  change 1 with (Z.ones 1) at 1. rewrite Z.land_ones by lia.
  change (2 ^ 1) with 2.
  pose proof (Z.div_mod u 2 ltac:(lia)) as Hdm.
  pose proof (Z.mod_pos_bound u 2 ltac:(lia)) as Hm.
  destruct (Z.eqb_spec (u mod 2) 0) as [Hz|Hnz].
  - rewrite Hz. change (- 0) with 0. rewrite Z.lxor_0_r.
    apply signed_small. lia.
  - replace (u mod 2) with 1 by lia. rewrite lxor_m1.
    apply signed_small. lia.
Qed.

End ZigZag.

Lemma zz32_closed (n : Z) :
  is_i32 n -> upb_zzencode_32 n = if 0 <=? n then 2 * n else - 2 * n - 1.
Proof. intros Hn. apply (zz_closed 32); [lia|exact Hn]. Qed.

Lemma zz64_closed (n : Z) :
  is_i64 n -> upb_zzencode_64 n = if 0 <=? n then 2 * n else - 2 * n - 1.
Proof. intros Hn. apply (zz_closed 64); [lia|exact Hn]. Qed.

Lemma unzz32_closed (u : Z) :
  is_u32 u ->
  zigzagDecode32 u = if u mod 2 =? 0 then u / 2 else - (u / 2) - 1.
Proof. intros Hu. apply (unzz_closed 32); [lia|exact Hu]. Qed.

Lemma unzz64_closed (u : Z) :
  is_u64 u ->
  zigzagDecode64 u = if u mod 2 =? 0 then u / 2 else - (u / 2) - 1.
Proof. intros Hu. apply (unzz_closed 64); [lia|exact Hu]. Qed.

(** Arithmetic core of the round trips, for any half-range [h]. *)
Lemma zigzag_arith (h n : Z) :
  - h <= n < h ->
  let u := if 0 <=? n then 2 * n else - 2 * n - 1 in
  0 <= u < 2 * h /\
  (if u mod 2 =? 0 then u / 2 else - (u / 2) - 1) = n.
Proof.
  intros Hn u. subst u.
  destruct (Z.leb_spec 0 n).
  - split; [lia|].
    replace (2 * n) with (n * 2) by lia.
    rewrite Z.mod_mul, Z.div_mul by lia. reflexivity.
  - split; [lia|].
    assert (Hm : (- 2 * n - 1) mod 2 = 1).
    { symmetry. apply (Z.mod_unique _ 2 (- n - 1)); lia. }
    assert (Hd : (- 2 * n - 1) / 2 = - n - 1).
    { symmetry. apply (Z.div_unique _ 2 (- n - 1) 1); lia. }
    rewrite Hm, Hd. simpl. lia.
Qed.

Lemma unzigzag_arith (h u : Z) :
  0 <= u < 2 * h ->
  let n := if u mod 2 =? 0 then u / 2 else - (u / 2) - 1 in
  - h <= n < h /\
  (if 0 <=? n then 2 * n else - 2 * n - 1) = u.
Proof.
  intros Hu n. subst n.
  pose proof (Z.div_mod u 2 ltac:(lia)) as Hdm.
  pose proof (Z.mod_pos_bound u 2 ltac:(lia)) as Hm.
  destruct (Z.eqb_spec (u mod 2) 0).
  - destruct (Z.leb_spec 0 (u / 2)); lia.
  - destruct (Z.leb_spec 0 (- (u / 2) - 1)); lia.
Qed.

(** C8. [upb_zzencode_32 n] is [(n << 1) XOR (n >> 31)] with arithmetic
    right shift, reduced to 32 bits; it maps the 32-bit signed integers
    one-to-one onto the 32-bit unsigned integers, and zigzag decoding
    inverts it on both sides, [INT32_MIN] included; [-1] maps to [1] and
    [1] to [2]. [upb_zzencode_64] is the 64-bit analogue with shift 63. *)
Theorem zigzag_bijection (n : Z) (Hn : is_i32 n) :
  upb_zzencode_32 n = Z.lxor (Z.shiftl n 1) (Z.shiftr n 31) mod 2 ^ 32 /\
  is_u32 (upb_zzencode_32 n) /\
  zigzagDecode32 (upb_zzencode_32 n) = n /\
  (forall u, is_u32 u ->
     is_i32 (zigzagDecode32 u) /\ upb_zzencode_32 (zigzagDecode32 u) = u) /\
  upb_zzencode_32 (-1) = 1 /\
  upb_zzencode_32 1 = 2 /\
  zigzagDecode32 (upb_zzencode_32 (- 2 ^ 31)) = - 2 ^ 31 /\
  (forall n64, is_i64 n64 ->
     upb_zzencode_64 n64
       = Z.lxor (Z.shiftl n64 1) (Z.shiftr n64 63) mod 2 ^ 64 /\
     is_u64 (upb_zzencode_64 n64) /\
     zigzagDecode64 (upb_zzencode_64 n64) = n64) /\
  (forall u, is_u64 u ->
     is_i64 (zigzagDecode64 u) /\ upb_zzencode_64 (zigzagDecode64 u) = u).
Proof.
  split; [|split; [|split; [|split; [|split; [|split; [|split; [|split]]]]]]].
  - rewrite zz32_closed by exact Hn. symmetry.
    apply (zz_formula 32); [lia|exact Hn].
  - rewrite zz32_closed by exact Hn.
    apply (zigzag_arith (2 ^ 31) n Hn).
  - rewrite zz32_closed by exact Hn.
    destruct (zigzag_arith (2 ^ 31) n Hn) as [Hu Hback].
    rewrite unzz32_closed by exact Hu. exact Hback.
  - intros u Hu. rewrite unzz32_closed by exact Hu.
    destruct (unzigzag_arith (2 ^ 31) u Hu) as [Hi Hback].
    split; [exact Hi|]. rewrite zz32_closed by exact Hi. exact Hback.
  - reflexivity.
  - reflexivity.
  - reflexivity.
  - intros n64 Hn64. rewrite zz64_closed by exact Hn64.
    destruct (zigzag_arith (2 ^ 63) n64 Hn64) as [Hu Hback].
    split; [|split].
    + symmetry. apply (zz_formula 64); [lia|exact Hn64].
    + exact Hu.
    + rewrite unzz64_closed by exact Hu. exact Hback.
  - intros u Hu. rewrite unzz64_closed by exact Hu.
    destruct (unzigzag_arith (2 ^ 63) u Hu) as [Hi Hback].
    split; [exact Hi|]. rewrite zz64_closed by exact Hi. exact Hback.
Qed.

Lemma zigzag_bijection_witness :
  is_i32 (- 2 ^ 31) /\
  upb_zzencode_32 (- 2 ^ 31) = 2 ^ 32 - 1 /\
  zigzagDecode32 (upb_zzencode_32 (- 2 ^ 31)) = - 2 ^ 31.
Proof.
  assert (H : is_i32 (- 2 ^ 31)) by (unfold is_i32; lia).
  split; [exact H|]. split; [reflexivity|].
  apply (zigzag_bijection (- 2 ^ 31) H).
Defined.

Lemma returns_final {A} (o : outcome A) (a : A) (d : machine) :
  returns o a -> o = Ok a (final_state o d).
Proof. destruct o; simpl; intros H; [subst; reflexivity|contradiction..]. Qed.

(** ** Memory *)

Lemma load_bytes_range (m : memory) (n : nat) :
  forall a, Forall (fun b => 0 <= b < 256) (load_bytes m a n).
Proof.
  induction n as [|n IH]; intros a; cbn [load_bytes]; constructor.
  - unfold load_u8. apply Z.mod_pos_bound. lia.
  - apply IH.
Qed.

Lemma load_bytes_length (m : memory) (n : nat) :
  forall a, length (load_bytes m a n) = n.
Proof.
  induction n as [|n IH]; intros a; cbn [load_bytes length]; [reflexivity|].
  rewrite IH. reflexivity.
Qed.

Lemma le_value_range (bs : list Z) :
  Forall (fun b => 0 <= b < 256) bs ->
  0 <= le_value bs < 256 ^ Z.of_nat (length bs).
Proof.
  induction 1 as [|b r Hb _ IH]; cbn [le_value length].
  - simpl. lia.
  - rewrite Nat2Z.inj_succ, Z.pow_succ_r by lia. lia.
Qed.

Lemma load_u64_range (m : memory) (a : Z) : 0 <= load_u64 m a < 2 ^ 64.
Proof.
  unfold load_u64.
  pose proof (le_value_range _ (load_bytes_range m 8 a)) as H.
  rewrite load_bytes_length in H. exact H.
Qed.

Lemma load_u32_range (m : memory) (a : Z) : 0 <= load_u32 m a < 2 ^ 32.
Proof.
  unfold load_u32.
  pose proof (le_value_range _ (load_bytes_range m 4 a)) as H.
  rewrite load_bytes_length in H. exact H.
Qed.

Lemma wrap64_range (x : Z) : 0 <= wrap64 x < 2 ^ 64.
Proof. unfold wrap64. apply Z.mod_pos_bound. reflexivity. Qed.

Lemma store_bytes_outside (m : memory) (a : Z) (bs : list Z) (x : Z) :
  x < a \/ a + Z.of_nat (length bs) <= x -> store_bytes m a bs x = m x.
Proof.
  intros H. unfold store_bytes.
  destruct (Z.leb_spec a x), (Z.ltb_spec x (a + Z.of_nat (length bs)));
    simpl; try reflexivity; lia.
Qed.

Lemma nth_load_bytes (m : memory) (n : nat) :
  forall a i, (i < n)%nat ->
    nth i (load_bytes m a n) 0 = load_u8 m (a + Z.of_nat i).
Proof.
  induction n as [|n IH]; intros a i Hi; [lia|].
  cbn [load_bytes]. destruct i as [|i]; cbn [nth].
  - f_equal. lia.
  - rewrite IH by lia. f_equal. lia.
Qed.

(** Copying a region onto itself changes no byte. *)
Lemma self_move (m : memory) (a n x : Z) :
  load_u8 (mem_move m a a n) x = load_u8 m x.
Proof.
  unfold mem_move, store_bytes, load_u8 at 1.
  rewrite load_bytes_length.
  destruct (Z.leb_spec a x), (Z.ltb_spec x (a + Z.of_nat (Z.to_nat n)));
    simpl; try reflexivity.
  rewrite nth_load_bytes by lia.
  replace (a + Z.of_nat (Z.to_nat (x - a))) with x by lia.
  unfold load_u8. apply Z.mod_mod. lia.
Qed.

(** ** Write primitives that do not grow the buffer *)

Lemma upb_encode_varint_length (v : Z) :
  (1 <= length (upb_encode_varint v))%nat.
Proof.
  unfold upb_encode_varint. destruct (Z.ltb_spec v 128); [simpl; lia|].
  cbn [varint_loop]. destruct (Z.eqb_spec v 0); [lia|].
  cbn [length]. lia.
Qed.

Lemma varint_loop_length (k : nat) :
  forall v, (length (varint_loop k v) <= k)%nat.
Proof.
  induction k as [|k IH]; intros v; cbn [varint_loop]; [simpl; lia|].
  destruct (v =? 0); cbn [length]; [lia|].
  specialize (IH (Z.shiftr v 7)). lia.
Qed.

Lemma upb_encode_varint_length_max (v : Z) :
  (length (upb_encode_varint v) <= 10)%nat.
Proof.
  unfold upb_encode_varint. destruct (v <? 128); [simpl; lia|].
  apply varint_loop_length.
Qed.

Lemma read_data_length (m : memory) (data : data_ptr) (len : Z) :
  0 <= len -> Z.of_nat (length (read_data m data len)) <= len.
Proof.
  intros Hlen. destruct data as [a|bs]; cbn [read_data].
  - rewrite load_bytes_length. lia.
  - pose proof (firstn_le_length (Z.to_nat len) bs). lia.
Qed.

Lemma upb_encode_reserve_room (bytes : Z) (w : machine) :
  bytes <= wrap64 (ptr w - buf w) ->
  upb_encode_reserve bytes w = Ok tt (with_ptr w (ptr w - bytes)).
Proof.
  intros H. unfold upb_encode_reserve, bind, get.
  destruct (Z.leb_spec bytes (wrap64 (ptr w - buf w))); [reflexivity|lia].
Qed.

Lemma upb_put_bytes_room (data : data_ptr) (len : Z) (w : machine) :
  0 <= len <= wrap64 (ptr w - buf w) ->
  exists w', upb_put_bytes data len w = Ok tt w' /\
             frame w w' len /\ ncalls w' = ncalls w /\
             mem w' = store_bytes (mem w) (ptr w - len)
                        (read_data (mem w) data len).
Proof.
  intros H. unfold upb_put_bytes, bind.
  rewrite upb_encode_reserve_room by lia.
  eexists. split; [reflexivity|].
  unfold frame.
  cbn [mem buf ptr limit ncalls with_mem with_ptr].
  split; [|split; reflexivity].
  repeat split. intros a Ha. apply store_bytes_outside. right.
  pose proof (read_data_length (mem w) data len ltac:(lia)). lia.
Qed.

Lemma upb_put_varint_room (val : Z) (w : machine) :
  UPB_PB_VARINT_MAX_LEN <= wrap64 (ptr w - buf w) ->
  exists w', upb_put_varint val w = Ok tt w' /\
             frame w w' (Z.of_nat (length (upb_encode_varint val))) /\
             ncalls w' = ncalls w /\
             mem w' =
               mem_move
                 (store_bytes (mem w) (ptr w - UPB_PB_VARINT_MAX_LEN)
                    (upb_encode_varint val))
                 (ptr w - Z.of_nat (length (upb_encode_varint val)))
                 (ptr w - UPB_PB_VARINT_MAX_LEN)
                 (Z.of_nat (length (upb_encode_varint val))).
Proof.
  intros H. unfold upb_put_varint, bind.
  rewrite upb_encode_reserve_room by lia.
  pose proof (upb_encode_varint_length_max val) as Hmax.
  set (bs := upb_encode_varint val) in *.
  eexists. split; [reflexivity|].
  unfold frame.
  cbn [mem buf ptr limit ncalls with_mem with_ptr].
  unfold UPB_PB_VARINT_MAX_LEN in *.
  replace (ptr w - 10 + 10 - Z.of_nat (length bs))
    with (ptr w - Z.of_nat (length bs)) by lia.
  split; [|split; reflexivity].
  repeat split. intros a Ha. unfold mem_move.
  rewrite store_bytes_outside
    by (right; rewrite load_bytes_length, Nat2Z.id; lia).
  apply store_bytes_outside. right. lia.
Qed.

(** C10. A write primitive whose request fits the room below the cursor
    returns true without calling the allocator; the buffer bounds stay,
    the cursor moves down by exactly the number of bytes appended (for
    [upb_put_varint] and [upb_put_tag] the varint's own width, not the
    ten bytes reserved), and every byte of the region [[ptr, limit)]
    written before the call is unchanged. *)
Theorem write_primitive_frame (p : write_primitive) (w : machine)
    (Hroom : no_growth p w) :
  exists w',
    run_primitive p w = Ok tt w' /\
    frame w w' (appended p) /\
    (forall a, ptr w <= a < limit w -> mem w' a = mem w a) /\
    used w' = used w + appended p /\
    ncalls w' = ncalls w.
Proof.
  assert (Hgoal : exists w', run_primitive p w = Ok tt w' /\
                             frame w w' (appended p) /\
                             ncalls w' = ncalls w).
  { unfold no_growth in Hroom.
    destruct p as [n|data len|val|val|val|fn wt];
      cbn [run_primitive reserved appended] in *.
    - rewrite upb_encode_reserve_room by lia.
      eexists. split; [reflexivity|]. cbn. repeat split.
    - destruct (upb_put_bytes_room data len w Hroom) as (w' & E & F & N & _).
      eauto.
    - destruct (upb_put_varint_room val w ltac:(lia)) as (w' & E & F & N & _).
      eauto.
    - destruct (upb_put_bytes_room (Local (le_bytes 4 val)) 4 w Hroom)
        as (w' & E & F & N & _). eauto.
    - destruct (upb_put_bytes_room (Local (le_bytes 8 val)) 8 w Hroom)
        as (w' & E & F & N & _). eauto.
    - destruct (upb_put_varint_room (tag_value fn wt) w ltac:(lia))
        as (w' & E & F & N & _). eauto. }
  destruct Hgoal as (w' & E & F & N).
  exists w'. split; [exact E|]. split; [exact F|].
  destruct F as (Hb & Hl & Hp & Hm).
  split; [intros a Ha; apply Hm; lia|].
  split; [unfold used; lia|exact N].
Qed.

Lemma write_primitive_frame_witness :
  let w :=
    {| mem := Samples.zeros; arrays := Samples.no_arrays;
       alloc := fun _ => 0; ncalls := 0; junk := 0;
       buf := 4096; ptr := 4196; limit := 4224 |} in
  no_growth (PutVarint 300) w /\
  exists w', run_primitive (PutVarint 300) w = Ok tt w' /\
             ptr w' = 4194 /\ limit w' = 4224 /\
             (forall a, 4196 <= a < 4224 -> mem w' a = mem w a).
Proof.
  intros w.
  assert (H : no_growth (PutVarint 300) w)
    by (vm_compute; split; discriminate).
  split; [exact H|].
  destruct (write_primitive_frame (PutVarint 300) w H)
    as (w' & E & (Hb & Hl & Hp & Hm) & Hf & _).
  exists w'. split; [exact E|]. split; [exact Hp|]. split; [exact Hl|].
  exact Hf.
Defined.

(** ** The output only grows, and only the allocator makes an encode fail *)

Lemma extended_refl (w : machine) : extended w w.
Proof.
  unfold extended. split; [reflexivity|]. split; [reflexivity|].
  split; [lia|]. split; [intros a _; reflexivity|].
  intros Hwf. split; [exact Hwf|intros a _; reflexivity].
Qed.

Lemma extended_trans (w w1 w2 : machine) :
  extended w w1 -> extended w1 w2 -> extended w w2.
Proof.
  intros (Hb & Hl & Hp & Hm & Hw) (Hb2 & Hl2 & Hp2 & Hm2 & Hw2).
  unfold extended. split; [congruence|]. split; [congruence|].
  split; [lia|]. split.
  - intros a Ha. rewrite Hm2 by lia. apply Hm. exact Ha.
  - intros Hwf. destruct (Hw Hwf) as [Hwf1 Hlow].
    destruct (Hw2 Hwf1) as [Hwf2 Hlow2]. split; [exact Hwf2|].
    intros a Ha. rewrite Hlow2 by lia. apply Hlow. exact Ha.
Qed.

Lemma grew_refl (w : machine) : grew 0 w w.
Proof.
  unfold grew. split; [reflexivity|]. split; [lia|]. split; [lia|].
  intros _. apply extended_refl.
Qed.

Lemma grew_trans (k1 k2 : Z) (w w1 w2 : machine) :
  grew k1 w w1 -> grew k2 w1 w2 -> grew (k1 + k2) w w2.
Proof.
  intros (Ha & Hu & Hn & He) (Ha2 & Hu2 & Hn2 & He2).
  unfold grew. split; [congruence|]. split; [lia|]. split; [lia|].
  intros Heq. apply (extended_trans w w1 w2); [apply He|apply He2]; lia.
Qed.

Lemma denied_after (k : Z) (w w1 w2 : machine) :
  grew k w w1 -> denied w1 w2 -> denied w w2.
Proof.
  intros (Ha & _ & Hn & _) (Ha2 & Hn2 & Hz).
  unfold denied. split; [congruence|]. split; [lia|].
  rewrite <- Ha. exact Hz.
Qed.

Lemma adds_elim {A} (k : Z) (c : M A) (w : machine) (a : A) (w' : machine) :
  adds k c -> c w = Ok a w' -> alloc w' = alloc w /\ used w + k <= used w'.
Proof.
  intros H E. specialize (H w). rewrite E in H.
  destruct H as (Ha & Hu & _). split; assumption.
Qed.

Lemma adds_grew {A} (k : Z) (c : M A) (w : machine) (a : A) (w' : machine) :
  adds k c -> c w = Ok a w' -> grew k w w'.
Proof. intros H E. specialize (H w). rewrite E in H. exact H. Qed.

Lemma adds_weaken {A} (k k' : Z) (c : M A) :
  k' <= k -> adds k c -> adds k' c.
Proof.
  intros Hk H w. specialize (H w). destruct (c w); auto.
  destruct H as (Ha & Hu & Hn & He).
  split; [exact Ha|]. split; [lia|]. split; assumption.
Qed.

Lemma adds_ret {A} (a : A) : adds 0 (ret a).
Proof. intros w. apply grew_refl. Qed.

Lemma adds_bind {A B} (k1 k2 : Z) (c : M A) (f : A -> M B) :
  adds k1 c -> (forall a, adds k2 (f a)) -> adds (k1 + k2) (bind c f).
Proof.
  intros Hc Hf w. unfold bind. specialize (Hc w).
  destruct (c w) as [a w1|w1| |]; auto.
  specialize (Hf a w1).
  destruct (f a w1) as [b w2|w2| |]; auto.
  - apply (grew_trans k1 k2 w w1 w2); assumption.
  - apply (denied_after k1 w w1 w2); assumption.
Qed.

Lemma adds_seq {A B} (k : Z) (c : M A) (f : A -> M B) :
  adds 0 c -> (forall a, adds k (f a)) -> adds k (bind c f).
Proof. intros Hc Hf. apply (adds_bind 0 k); assumption. Qed.

Lemma adds_get {B} (k : Z) (f : machine -> M B) :
  (forall e, adds k (f e)) -> adds k (bind get f).
Proof. intros Hf w. unfold bind, get. apply Hf. Qed.

Lemma adds_undefined {A} (k : Z) : adds k (@undefined A).
Proof. intros w. exact I. Qed.

Lemma adds_timeout {A} (k : Z) : adds k (@timeout A).
Proof. intros w. exact I. Qed.

Lemma adds_UPB_ASSERT (x : bool) : adds 0 (UPB_ASSERT x).
Proof.
  intros w. unfold UPB_ASSERT. destruct x; [|exact I]. apply grew_refl.
Qed.

(** Growth keeps the number of used bytes (whatever happens to their
    contents), calls the allocator once, and fails only on its NULL
    answer. *)
Lemma upb_encode_growbuffer_used (bytes : Z) (w : machine) :
  match upb_encode_growbuffer bytes w with
  | Ok _ w' =>
      alloc w' = alloc w /\ used w' = used w /\ ncalls w' = S (ncalls w)
  | Fail w' =>
      alloc w' = alloc w /\ ncalls w' = S (ncalls w) /\
      alloc w (ncalls w) = 0
  | Undef => True
  | Timeout => True
  end.
Proof.
  unfold upb_encode_growbuffer, bind, get, upb_roundup_pow2.
  destruct (roundup_loop 64 128 (wrap64 (bytes + (limit w - ptr w))))
    as [new_size|]; [|exact I].
  unfold ret, upb_env_realloc.
  destruct (Z.eqb_spec (alloc w (ncalls w)) 0) as [Hz|Hnz].
  - rewrite Hz. simpl. split; [reflexivity|]. split; reflexivity.
  - unfold CHK. destruct (Z.eqb_spec (alloc w (ncalls w)) 0); [contradiction|].
    simpl. split; [reflexivity|]. split; [|reflexivity].
    unfold used. simpl. lia.
Qed.

(** The two ways of [upb_encode_reserve]: there is room and only the
    cursor moves, or the buffer grows by one call of the allocator. *)
Lemma upb_encode_reserve_cases (bytes : Z) (w : machine) :
  match upb_encode_reserve bytes w with
  | Ok _ w' =>
      alloc w' = alloc w /\ used w' = used w + bytes /\
      ((ncalls w' = ncalls w /\ bytes <= wrap64 (ptr w - buf w) /\
        w' = with_ptr w (ptr w - bytes)) \/
       ncalls w' = S (ncalls w))
  | Fail w' => denied w w'
  | Undef => True
  | Timeout => True
  end.
Proof.
  unfold upb_encode_reserve, bind, get.
  destruct (Z.leb_spec bytes (wrap64 (ptr w - buf w))) as [Hroom|Hfull].
  - simpl. split; [reflexivity|]. split; [unfold used; simpl; lia|].
    left. split; [reflexivity|]. split; [exact Hroom|reflexivity].
  - pose proof (upb_encode_growbuffer_used bytes w) as H.
    destruct (upb_encode_growbuffer bytes w) as [u w1|w1| |]; auto.
    + destruct H as (Ha & Hu & Hn). simpl. split; [exact Ha|].
      split; [unfold used in *; simpl; lia|]. right. exact Hn.
    + destruct H as (Ha & Hn & Hz). unfold denied.
      rewrite Hn. simpl. split; [exact Ha|]. split; [lia|exact Hz].
Qed.

Lemma adds_reserve (bytes : Z) :
  0 <= bytes -> adds bytes (upb_encode_reserve bytes).
Proof.
  intros Hb w. pose proof (upb_encode_reserve_cases bytes w) as H.
  destruct (upb_encode_reserve bytes w) as [u w'|w'| |]; auto.
  destruct H as (Ha & Hu & Hc). unfold grew.
  split; [exact Ha|]. split; [lia|].
  destruct Hc as [(Hn & Hroom & ->)|Hn].
  - split; [simpl; lia|]. intros _. unfold extended. simpl.
    split; [reflexivity|]. split; [reflexivity|]. split; [lia|].
    split; [intros a _; reflexivity|].
    intros ((Hbp & Hpl) & Hsz). split; [|intros a _; reflexivity].
    unfold well_formed. simpl.
    unfold wrap64 in Hroom. rewrite Z.mod_small in Hroom by lia. lia.
  - split; [lia|]. intros Heq. lia.
Qed.

Lemma grew_writes_within (n back k : Z) (w w1 w' : machine) :
  0 <= back <= n -> k <= n - back ->
  grew n w w1 -> writes_within n back w1 w' -> grew k w w'.
Proof.
  intros Hback Hk (Ha & Hu & Hn & He) (Ha' & Hn' & Hb' & Hl' & Hp' & Hm').
  unfold grew. split; [congruence|].
  split; [unfold used in *; lia|]. split; [lia|].
  intros Heq. destruct He as (Hb & Hl & Hp & Hm & Hw); [lia|].
  unfold extended. split; [congruence|]. split; [congruence|].
  unfold used in *. split; [lia|]. split.
  - intros a Ha1. rewrite Hm' by lia. apply Hm. exact Ha1.
  - intros Hwf. destruct (Hw Hwf) as [((Hbp & Hpl) & Hsz) Hlow].
    split; [unfold well_formed in *; lia|].
    intros a Ha1. rewrite Hm' by lia. apply Hlow. exact Ha1.
Qed.

Lemma upb_put_bytes_after_reserve (data : data_ptr) (len : Z) (w : machine) :
  0 <= len ->
  match upb_encode_reserve len w, upb_put_bytes data len w with
  | Ok _ w1, Ok _ w' => writes_within len 0 w1 w'
  | Fail w1, Fail w' => w' = w1
  | Undef, Undef => True
  | Timeout, Timeout => True
  | _, _ => False
  end.
Proof.
  intros Hlen. unfold upb_put_bytes, bind.
  destruct (upb_encode_reserve len w) as [u w1|w1| |]; auto.
  unfold memcpy, bind, get, set_mem, writes_within.
  cbn [alloc ncalls buf limit ptr mem with_mem].
  do 4 (split; [reflexivity|]). split; [lia|].
  intros a Ha. apply store_bytes_outside.
  pose proof (read_data_length (mem w1) data len Hlen). lia.
Qed.

Lemma upb_put_varint_after_reserve (val : Z) (w : machine) :
  match upb_encode_reserve UPB_PB_VARINT_MAX_LEN w, upb_put_varint val w with
  | Ok _ w1, Ok _ w' =>
      writes_within UPB_PB_VARINT_MAX_LEN
        (UPB_PB_VARINT_MAX_LEN - Z.of_nat (length (upb_encode_varint val)))
        w1 w'
  | Fail w1, Fail w' => w' = w1
  | Undef, Undef => True
  | Timeout, Timeout => True
  | _, _ => False
  end.
Proof.
  unfold upb_put_varint, bind.
  destruct (upb_encode_reserve UPB_PB_VARINT_MAX_LEN w) as [u w1|w1| |]; auto.
  pose proof (upb_encode_varint_length_max val) as Hmax.
  unfold store, memmove, bind, get, set_mem, set_ptr, writes_within.
  cbn [alloc ncalls buf limit ptr mem with_mem with_ptr].
  unfold UPB_PB_VARINT_MAX_LEN in *.
  do 4 (split; [reflexivity|]). split; [lia|].
  intros a Ha. unfold mem_move.
  rewrite store_bytes_outside
    by (rewrite load_bytes_length, Nat2Z.id; lia).
  apply store_bytes_outside. lia.
Qed.

Lemma adds_put_bytes (data : data_ptr) (len : Z) :
  0 <= len -> adds len (upb_put_bytes data len).
Proof.
  intros Hlen w.
  pose proof (adds_reserve len Hlen w) as Hres.
  pose proof (upb_put_bytes_after_reserve data len w Hlen) as Hput.
  destruct (upb_encode_reserve len w) as [u w1|w1| |],
           (upb_put_bytes data len w) as [u' w'|w'| |];
    try contradiction; auto.
  - apply (grew_writes_within len 0 len w w1 w'); try assumption; lia.
  - subst w'. exact Hres.
Qed.

(** [upb_put_varint] reserves ten bytes and gives back those the value
    does not need: the output grows by the varint's own length. *)
Lemma adds_put_varint_exact (val : Z) :
  adds (Z.of_nat (length (upb_encode_varint val))) (upb_put_varint val).
Proof.
  intros w.
  pose proof (adds_reserve UPB_PB_VARINT_MAX_LEN ltac:(discriminate) w)
    as Hres.
  pose proof (upb_put_varint_after_reserve val w) as Hput.
  pose proof (upb_encode_varint_length_max val) as Hmax.
  destruct (upb_encode_reserve UPB_PB_VARINT_MAX_LEN w) as [u w1|w1| |],
           (upb_put_varint val w) as [u' w'|w'| |];
    try contradiction; auto.
  - apply (grew_writes_within UPB_PB_VARINT_MAX_LEN
             (UPB_PB_VARINT_MAX_LEN - Z.of_nat (length (upb_encode_varint val)))
             _ w w1 w'); try assumption;
      unfold UPB_PB_VARINT_MAX_LEN; lia.
  - subst w'. exact Hres.
Qed.

Lemma adds_put_varint (val : Z) : adds 1 (upb_put_varint val).
Proof.
  pose proof (upb_encode_varint_length val).
  apply (adds_weaken (Z.of_nat (length (upb_encode_varint val)))); [lia|].
  apply adds_put_varint_exact.
Qed.

Lemma adds_put_tag (fn wt : Z) : adds 1 (upb_put_tag fn wt).
Proof. apply adds_put_varint. Qed.

Lemma adds_put_fixed64 (val : Z) : adds 0 (upb_put_fixed64 val).
Proof. apply (adds_weaken 8); [lia|apply adds_put_bytes; lia]. Qed.

Lemma adds_put_fixed32 (val : Z) : adds 0 (upb_put_fixed32 val).
Proof. apply (adds_weaken 4); [lia|apply adds_put_bytes; lia]. Qed.

Lemma adds0_put_bytes (data : data_ptr) (len : Z) :
  0 <= len -> adds 0 (upb_put_bytes data len).
Proof.
  intros H. apply (adds_weaken len); [lia|apply adds_put_bytes; exact H].
Qed.

Lemma adds0_put_varint (val : Z) : adds 0 (upb_put_varint val).
Proof. apply (adds_weaken 1); [lia|apply adds_put_varint]. Qed.

Lemma adds0_put_tag (fn wt : Z) : adds 0 (upb_put_tag fn wt).
Proof. apply (adds_weaken 1); [lia|apply adds_put_tag]. Qed.

Lemma adds_array_loop (n : nat) (body : Z -> M unit) :
  (forall i, adds 0 (body i)) -> adds 0 (array_loop n body).
Proof.
  intros Hb. induction n as [|n IH]; cbn [array_loop].
  - apply adds_ret.
  - apply adds_seq; [apply Hb|intros _; exact IH].
Qed.

(** Commands built from pieces that never shrink the output. *)
Ltac adds0_step :=
  lazymatch goal with
  | |- adds _ (bind get _) => apply adds_get; intro
  | |- adds _ (bind _ _) => apply adds_seq; [ | intro ]
  | |- adds _ (ret _) => apply adds_ret
  | |- adds _ undefined => apply adds_undefined
  | |- adds _ timeout => apply adds_timeout
  | |- adds _ (UPB_ASSERT _) => apply adds_UPB_ASSERT
  | |- adds _ (upb_put_varint _) => apply adds0_put_varint
  | |- adds _ (upb_put_tag _ _) => apply adds0_put_tag
  | |- adds _ (upb_put_fixed64 _) => apply adds_put_fixed64
  | |- adds _ (upb_put_fixed32 _) => apply adds_put_fixed32
  | |- adds _ (upb_put_double _) => apply adds_put_fixed64
  | |- adds _ (upb_put_float _) => apply adds_put_fixed32
  | |- adds _ (upb_put_bytes _ _) =>
      apply adds0_put_bytes;
      first [ apply load_u64_range | apply wrap64_range ]
  | |- adds _ (array_loop _ _) => apply adds_array_loop; intro
  | |- adds _ (if ?b then _ else _) => destruct b
  end.

Ltac adds0 := repeat adds0_step.

(** Commands that end with a tag: at least one byte is added. *)
Ltac adds1 :=
  repeat lazymatch goal with
    | |- adds 1 (upb_put_tag _ _) => apply adds_put_tag
    | |- adds 1 (upb_put_varint _) => apply adds_put_varint
    | |- adds 1 (bind _ _) => apply adds_seq; [ solve [adds0] | intro ]
    end.

Lemma adds_VARINT_CASE (arr : upb_array) (csize : Z)
    (encode : memory -> Z -> Z) : adds 1 (VARINT_CASE arr csize encode).
Proof.
  unfold VARINT_CASE. apply adds_get. intros e.
  apply adds_seq; [adds0|]. intros _. apply adds_get. intros e'.
  apply adds_put_varint.
Qed.

Lemma adds_put_fixedarray (arr : upb_array) (size : Z) :
  adds 1 (upb_put_fixedarray arr size).
Proof. unfold upb_put_fixedarray. adds1. Qed.

Lemma adds_CASE (skip is_zero : bool) (put : M unit) (fn wt : Z) :
  adds 0 put -> adds 0 (CASE skip is_zero put fn wt).
Proof. intros Hp. unfold CASE. adds0. exact Hp. Qed.

Lemma adds_upb_put_double (d : Z) : adds 0 (upb_put_double d).
Proof. apply adds_put_fixed64. Qed.

Lemma adds_upb_put_float (d : Z) : adds 0 (upb_put_float d).
Proof. apply adds_put_fixed32. Qed.

Section EncoderGrows.

Variable layouts : list upb_msglayout_msginit_v1.
Variable rec : Z -> upb_msglayout_msginit_v1 -> Z -> M Z.
Hypothesis Hrec : forall msg m size, adds 0 (rec msg m size).

Lemma adds_submsg_layout (m : upb_msglayout_msginit_v1)
    (f : upb_msglayout_fieldinit_v1) : adds 0 (submsg_layout layouts m f).
Proof.
  unfold submsg_layout.
  destruct (nth_error (submsgs m) (submsg_index f)) as [r|]; [|adds0].
  destruct (nth_error layouts r); adds0.
Qed.

Lemma adds_upb_encode_array (field_mem : Z) (m : upb_msglayout_msginit_v1)
    (f : upb_msglayout_fieldinit_v1) :
  adds 0 (upb_encode_array layouts rec field_mem m f).
Proof.
  unfold upb_encode_array. apply adds_get. intros e.
  destruct ((load_u64 (mem e) field_mem =? 0)
            || (arr_len (arrays e (load_u64 (mem e) field_mem)) =? 0));
    [apply adds_ret|].
  apply adds_seq; [apply adds_UPB_ASSERT|]. intros _.
  destruct (type f);
    try (apply adds_seq;
         [ first [ apply (adds_weaken 1); [lia|apply adds_put_fixedarray]
                 | apply (adds_weaken 1); [lia|apply adds_VARINT_CASE] ]
         | intros _; apply adds0_put_tag ]).
  - adds0.
  - apply adds_seq; [apply adds_submsg_layout|]. intros subm.
    adds0. apply Hrec.
  - apply adds_seq; [apply adds_submsg_layout|]. intros subm.
    adds0. apply Hrec.
  - adds0.
Qed.

Lemma adds_upb_encode_scalarfield (field_mem : Z)
    (m : upb_msglayout_msginit_v1) (f : upb_msglayout_fieldinit_v1)
    (is_proto3 : bool) :
  adds 0 (upb_encode_scalarfield layouts rec field_mem m f is_proto3).
Proof.
  unfold upb_encode_scalarfield. apply adds_get. intros e.
  destruct (type f);
    try (apply adds_CASE;
         first [ apply adds_upb_put_double | apply adds_upb_put_float
               | apply adds0_put_varint | apply adds_put_fixed64
               | apply adds_put_fixed32 ]).
  - adds0.
  - apply adds_seq; [apply adds_submsg_layout|]. intros subm.
    adds0. apply Hrec.
  - apply adds_seq; [apply adds_submsg_layout|]. intros subm.
    adds0. apply Hrec.
  - adds0.
Qed.

End EncoderGrows.

Lemma adds_upb_readcase (msg : Z) (m : upb_msglayout_msginit_v1) (oi : nat) :
  adds 0 (upb_readcase msg m oi).
Proof. unfold upb_readcase. destruct (nth_error (oneofs m) oi); adds0. Qed.

Lemma adds_upb_readhasbit (msg : Z) (f : upb_msglayout_fieldinit_v1) :
  adds 0 (upb_readhasbit msg f).
Proof. unfold upb_readhasbit. destruct (hasbit f); adds0. Qed.

Lemma adds_upb_encode_hasscalarfield (msg : Z)
    (m : upb_msglayout_msginit_v1) (f : upb_msglayout_fieldinit_v1) :
  adds 0 (upb_encode_hasscalarfield msg m f).
Proof.
  unfold upb_encode_hasscalarfield. destruct (oneof_index f).
  - apply adds_seq; [apply adds_upb_readcase|intros c; apply adds_ret].
  - destruct (is_proto2 m); [apply adds_upb_readhasbit|apply adds_ret].
Qed.

Section MessageGrows.

Variable layouts : list upb_msglayout_msginit_v1.

Lemma adds_encode_field (rec : Z -> upb_msglayout_msginit_v1 -> Z -> M Z) :
  (forall msg m size, adds 0 (rec msg m size)) ->
  forall msg m f, adds 0 (encode_field layouts rec msg m f).
Proof.
  intros Hrec msg m f. unfold encode_field.
  destruct (upb_label_t_beq (label f) UPB_LABEL_REPEATED).
  - apply adds_upb_encode_array. exact Hrec.
  - apply adds_seq; [apply adds_upb_encode_hasscalarfield|].
    intros [|]; [|apply adds_ret].
    apply adds_upb_encode_scalarfield. exact Hrec.
Qed.

Lemma adds_fields_loop (rec : Z -> upb_msglayout_msginit_v1 -> Z -> M Z) :
  (forall msg m size, adds 0 (rec msg m size)) ->
  forall msg m fs, adds 0 (fields_loop layouts rec msg m fs).
Proof.
  intros Hrec msg m fs. induction fs as [|f fs IH]; cbn [fields_loop].
  - apply adds_ret.
  - apply adds_seq; [apply adds_encode_field; exact Hrec|intros _; exact IH].
Qed.

(** Encoding a message never shrinks the output, and fails only when
    the allocator has denied a request. *)
Lemma adds_upb_encode_message (fuel : nat) :
  forall msg m size, adds 0 (upb_encode_message layouts fuel msg m size).
Proof.
  induction fuel as [|k IH]; intros msg m size; cbn [upb_encode_message].
  - apply adds_timeout.
  - apply adds_get. intros e. destruct (msg =? 0); [apply adds_ret|].
    apply adds_seq; [apply adds_fields_loop; exact IH|].
    intros _. adds0.
Qed.

End MessageGrows.

(** ** Fuel *)

Lemma refines_refl {A} (c : M A) : refines c c.
Proof. intros w. right. reflexivity. Qed.

Lemma refines_bind {A B} (c1 c2 : M A) (f1 f2 : A -> M B) :
  refines c1 c2 -> (forall a, refines (f1 a) (f2 a)) ->
  refines (bind c1 f1) (bind c2 f2).
Proof.
  intros Hc Hf w. unfold bind.
  destruct (Hc w) as [Ht|He].
  - left. rewrite Ht. reflexivity.
  - rewrite He. destruct (c1 w) as [a w1|w1| |]; try (right; reflexivity).
    apply Hf.
Qed.

Lemma refines_array_loop (n : nat) (body1 body2 : Z -> M unit) :
  (forall i, refines (body1 i) (body2 i)) ->
  refines (array_loop n body1) (array_loop n body2).
Proof.
  intros Hb. induction n as [|n IH]; cbn [array_loop].
  - apply refines_refl.
  - apply refines_bind; [apply Hb|intros _; exact IH].
Qed.

Section FuelMonotone.

Variable layouts : list upb_msglayout_msginit_v1.
Variables rec1 rec2 : Z -> upb_msglayout_msginit_v1 -> Z -> M Z.
Hypothesis Hrec : forall msg m size, refines (rec1 msg m size) (rec2 msg m size).

Ltac refines_step :=
  lazymatch goal with
  | |- refines (bind _ _) (bind _ _) => apply refines_bind; [ | intro ]
  | |- refines (array_loop _ _) (array_loop _ _) =>
      apply refines_array_loop; intro
  | |- refines (if ?b then _ else _) (if ?b then _ else _) => destruct b
  | |- refines (rec1 _ _ _) (rec2 _ _ _) => apply Hrec
  | |- refines ?c ?c => apply refines_refl
  end.

Lemma refines_upb_encode_array (field_mem : Z)
    (m : upb_msglayout_msginit_v1) (f : upb_msglayout_fieldinit_v1) :
  refines (upb_encode_array layouts rec1 field_mem m f)
          (upb_encode_array layouts rec2 field_mem m f).
Proof.
  unfold upb_encode_array. refines_step; [refines_step|].
  refines_step; [refines_step|]. refines_step; [refines_step|].
  destruct (type f); repeat refines_step.
Qed.

Lemma refines_upb_encode_scalarfield (field_mem : Z)
    (m : upb_msglayout_msginit_v1) (f : upb_msglayout_fieldinit_v1)
    (is_proto3 : bool) :
  refines (upb_encode_scalarfield layouts rec1 field_mem m f is_proto3)
          (upb_encode_scalarfield layouts rec2 field_mem m f is_proto3).
Proof.
  unfold upb_encode_scalarfield. refines_step; [refines_step|].
  destruct (type f); repeat refines_step.
Qed.

Lemma refines_fields_loop (msg : Z) (m : upb_msglayout_msginit_v1)
    (fs : list upb_msglayout_fieldinit_v1) :
  refines (fields_loop layouts rec1 msg m fs)
          (fields_loop layouts rec2 msg m fs).
Proof.
  induction fs as [|f fs IH]; cbn [fields_loop]; [apply refines_refl|].
  apply refines_bind; [|intros _; exact IH].
  unfold encode_field.
  destruct (upb_label_t_beq (label f) UPB_LABEL_REPEATED).
  - apply refines_upb_encode_array.
  - apply refines_bind; [apply refines_refl|].
    intros [|]; [apply refines_upb_encode_scalarfield|apply refines_refl].
Qed.

End FuelMonotone.

(** More fuel never changes what [upb_encode_message] does: a result
    obtained with some fuel is the result with any larger fuel. *)
Lemma upb_encode_message_fuel
    (layouts : list upb_msglayout_msginit_v1) (n : nat) :
  forall k msg m size,
    refines (upb_encode_message layouts n msg m size)
            (upb_encode_message layouts (n + k) msg m size).
Proof.
  induction n as [|n IH]; intros k msg m size.
  - intros w. left. reflexivity.
  - cbn [Nat.add upb_encode_message].
    apply refines_bind; [apply refines_refl|]. intros e.
    destruct (msg =? 0); [apply refines_refl|].
    apply refines_bind; [|intros _; apply refines_refl].
    apply refines_fields_loop. intros msg' m' size'. apply IH.
Qed.

Lemma upb_encode_fuel
    (layouts : list upb_msglayout_msginit_v1) (n k : nat) (msg : Z)
    (m : upb_msglayout_msginit_v1) (size : Z) :
  refines (upb_encode layouts n msg m size)
          (upb_encode layouts (n + k) msg m size).
Proof.
  intros w. unfold upb_encode.
  destruct (upb_encode_message_fuel layouts n k msg m size (empty_encstate w))
    as [Ht|He].
  - left. rewrite Ht. reflexivity.
  - right. rewrite He. reflexivity.
Qed.

(** ** Presence of singular fields *)

Lemma land_bit (x k : Z) :
  0 <= k -> negb (Z.land x (Z.shiftl 1 k) =? 0) = Z.testbit x k.
Proof.
  intros Hk. rewrite Z.shiftl_1_l.
  destruct (Z.testbit x k) eqn:Hb.
  - destruct (Z.eqb_spec (Z.land x (2 ^ k)) 0) as [Hz|]; [|reflexivity].
    assert (Ht : Z.testbit (Z.land x (2 ^ k)) k = true).
    { rewrite Z.land_spec, Hb, Z.pow2_bits_true by lia. reflexivity. }
    rewrite Hz, Z.bits_0 in Ht. discriminate.
  - replace (Z.land x (2 ^ k)) with 0; [reflexivity|].
    symmetry. apply Z.bits_inj_0. intros n.
    rewrite Z.land_spec.
    destruct (Z.eq_dec n k) as [->|Hne].
    + rewrite Hb. reflexivity.
    + rewrite Z.pow2_bits_false by lia. apply andb_false_r.
Qed.

Lemma half_range_zero (x h : Z) :
  0 < h -> 0 <= x < 2 * h ->
  (x mod h =? 0) = (x =? 0) || (x =? h).
Proof.
  intros Hh Hx.
  destruct (Z_lt_le_dec x h) as [Hlt|Hge].
  - rewrite Z.mod_small by lia.
    destruct (Z.eqb_spec x h); [lia|]. rewrite orb_false_r. reflexivity.
  - assert (Hm : x mod h = x - h).
    { symmetry. apply (Z.mod_unique x h 1); lia. }
    rewrite Hm.
    destruct (Z.eqb_spec (x - h) 0), (Z.eqb_spec x 0), (Z.eqb_spec x h);
      simpl; try reflexivity; lia.
Qed.

Lemma double_is_zero_spec (m : memory) (a : Z) :
  double_is_zero (load_u64 m a)
  = (load_u64 m a =? 0) || (load_u64 m a =? 2 ^ 63).
Proof.
  unfold double_is_zero. change (2 ^ 63 - 1) with (Z.ones 63).
  rewrite Z.land_ones by lia.
  apply half_range_zero; [reflexivity|apply load_u64_range].
Qed.

Lemma float_is_zero_spec (m : memory) (a : Z) :
  float_is_zero (load_u32 m a)
  = (load_u32 m a =? 0) || (load_u32 m a =? 2 ^ 31).
Proof.
  unfold float_is_zero. change (2 ^ 31 - 1) with (Z.ones 31).
  rewrite Z.land_ones by lia.
  apply half_range_zero; [reflexivity|apply load_u32_range].
Qed.

Lemma signed_zero (w x : Z) :
  1 <= w -> 0 <= x < 2 ^ w -> (signed w x =? 0) = (x =? 0).
Proof.
  intros Hw Hx. unfold signed. rewrite Z.mod_small by lia.
  destruct (pow_w w Hw) as [Epow HP].
  destruct (Z.ltb_spec x (2 ^ (w - 1))); [reflexivity|].
  destruct (Z.eqb_spec (x - 2 ^ w) 0), (Z.eqb_spec x 0); try reflexivity; lia.
Qed.

Lemma load_bool_zero (m : memory) (a : Z) :
  (load_bool m a =? 0) = (load_u8 m a =? 0).
Proof. unfold load_bool. destruct (load_u8 m a =? 0); reflexivity. Qed.

(** A guarded emission: nothing when the guard holds, at least one byte
    otherwise. *)
Lemma guarded_emit (b : bool) (c : M unit) (w w' : machine) :
  adds 1 c ->
  (if b then ret tt else c) w = Ok tt w' ->
  (b = true -> w' = w) /\ (b = false -> used w < used w').
Proof.
  intros Hc E. destruct b.
  - inversion E. split; [reflexivity|discriminate].
  - split; [discriminate|]. intros _.
    destruct (adds_elim _ _ _ _ _ Hc E). lia.
Qed.

Section Presence.

Variable layouts : list upb_msglayout_msginit_v1.
Variable rec : Z -> upb_msglayout_msginit_v1 -> Z -> M Z.
Hypothesis Hrec : forall msg m size, adds 0 (rec msg m size).

Lemma submsg_layout_read (m : upb_msglayout_msginit_v1)
    (f : upb_msglayout_fieldinit_v1) : pure_read (submsg_layout layouts m f).
Proof.
  intros w. unfold submsg_layout.
  destruct (nth_error (submsgs m) (submsg_index f)) as [r|]; [|exact I].
  destruct (nth_error layouts r); [reflexivity|exact I].
Qed.

(** [upb_encode_scalarfield] writes nothing exactly when it was asked
    to skip zero values and the value is the zero value. *)
Lemma upb_encode_scalarfield_emits (field_mem : Z)
    (m : upb_msglayout_msginit_v1) (f : upb_msglayout_fieldinit_v1)
    (is_proto3 : bool) (w w' : machine) :
  upb_encode_scalarfield layouts rec field_mem m f is_proto3 w = Ok tt w' ->
  let skip :=
    is_proto3 && match oneof_index f with None => true | Some _ => false end in
  (skip && zero_valued (mem w) field_mem (type f) = true -> w' = w) /\
  (skip && zero_valued (mem w) field_mem (type f) = false -> used w < used w').
Proof.
  intros E skip. unfold upb_encode_scalarfield in E.
  unfold bind at 1 in E. unfold get in E. fold skip in E.
  destruct (type f); cbn [zero_valued];
    try (unfold CASE in E;
         rewrite ?double_is_zero_spec, ?float_is_zero_spec, ?load_bool_zero,
           ?(signed_zero 32), ?(signed_zero 64) in E
           by first [lia | apply load_u32_range | apply load_u64_range];
         refine (guarded_emit _ _ _ _ _ E); adds1).
  - unfold bind at 1 in E.
    pose proof (submsg_layout_read m f w) as R.
    destruct (submsg_layout layouts m f w) as [subm w1| | |];
      try discriminate.
    subst w1. refine (guarded_emit _ _ _ _ _ E).
    apply adds_seq; [adds0|]. intros _.
    apply adds_seq; [apply Hrec|]. intros _. apply adds_put_tag.
  - unfold bind at 1 in E.
    pose proof (submsg_layout_read m f w) as R.
    destruct (submsg_layout layouts m f w) as [subm w1| | |];
      try discriminate.
    subst w1. refine (guarded_emit _ _ _ _ _ E).
    apply adds_seq; [apply Hrec|]. intros size. adds1.
Qed.

(** [upb_encode_hasscalarfield] only reads, and answers the spec's
    presence rule except for proto3 fields outside a oneof, for which it
    answers true. *)
Lemma upb_encode_hasscalarfield_spec (msg : Z)
    (m : upb_msglayout_msginit_v1) (f : upb_msglayout_fieldinit_v1)
    (w : machine) (b : bool) (w' : machine) :
  upb_encode_hasscalarfield msg m f w = Ok b w' ->
  w' = w /\
  b = match oneof_index f with
      | Some _ => field_present (mem w) msg m f
      | None => if is_proto2 m then field_present (mem w) msg m f else true
      end.
Proof.
  unfold upb_encode_hasscalarfield, field_present.
  destruct (oneof_index f) as [oi|].
  - unfold upb_readcase. destruct (nth_error (oneofs m) oi); [|discriminate].
    cbv [bind get ret]. intros E. inversion E. split; reflexivity.
  - destruct (is_proto2 m).
    + unfold upb_readhasbit. destruct (hasbit f) as [h|]; [|discriminate].
      cbv [bind get ret]. intros E. inversion E. split; [reflexivity|].
      apply land_bit. apply Z.mod_pos_bound. lia.
    + cbv [ret]. intros E. inversion E. split; reflexivity.
Qed.

End Presence.

(** C4. A singular field puts bytes into the output iff it is present
    under the spec's rules: in a oneof, iff the discriminant equals the
    field's number; in proto2 outside a oneof, iff its hasbit is set; in
    proto3 outside a oneof, iff its value differs from the zero value of
    its type. When it is absent the machine is left untouched. *)
Theorem singular_field_emitted_iff_present
    (layouts : list upb_msglayout_msginit_v1) (fuel : nat) (msg : Z)
    (m : upb_msglayout_msginit_v1) (f : upb_msglayout_fieldinit_v1)
    (w w' : machine)
    (Hsingular : label f <> UPB_LABEL_REPEATED)
    (Hrun : encode_field layouts (upb_encode_message layouts fuel) msg m f w
            = Ok tt w') :
  (used w < used w' <-> field_present (mem w) msg m f = true) /\
  (field_present (mem w) msg m f = false -> w' = w).
Proof.
  assert (Hrec : forall msg m size,
             adds 0 (upb_encode_message layouts fuel msg m size))
    by apply adds_upb_encode_message.
  assert (Hkey : (field_present (mem w) msg m f = true -> used w < used w') /\
                 (field_present (mem w) msg m f = false -> w' = w)).
  { unfold encode_field in Hrun.
    assert (Hlab : upb_label_t_beq (label f) UPB_LABEL_REPEATED = false).
    { destruct (label f); try reflexivity. contradiction. }
    rewrite Hlab in Hrun. unfold bind at 1 in Hrun.
    destruct (upb_encode_hasscalarfield msg m f w) as [b w1| | |] eqn:Ehas;
      try discriminate.
    apply upb_encode_hasscalarfield_spec in Ehas. destruct Ehas as [-> Hb].
    destruct b.
    - apply (upb_encode_scalarfield_emits layouts _ Hrec) in Hrun.
      cbv zeta in Hrun. destruct Hrun as [Hskip Hemit].
      unfold field_present in *.
      destruct (oneof_index f) as [oi|].
      + rewrite andb_false_r in Hemit. split; [auto|].
        intros Habs. rewrite Habs in Hb. discriminate.
      + destruct (is_proto2 m); cbn [negb andb] in *.
        * split; [auto|]. intros Habs. rewrite Habs in Hb. discriminate.
        * destruct (zero_valued (mem w) (msg + offset f) (type f));
            cbn [negb]; split; auto; discriminate.
    - inversion Hrun. subst w'. split; [|reflexivity].
      intros Hp. exfalso.
      destruct (oneof_index f); [congruence|].
      destruct (is_proto2 m); congruence. }
  destruct Hkey as [Hyes Hno]. split; [|exact Hno].
  split; [|exact Hyes].
  intros Hlt. destruct (field_present (mem w) msg m f); [reflexivity|].
  rewrite (Hno eq_refl) in Hlt. lia.
Qed.

Lemma singular_field_emitted_iff_present_witness :
  let f := Samples.field 1 0 UPB_DESCRIPTOR_TYPE_INT32 UPB_LABEL_OPTIONAL in
  let w := Samples.fresh Samples.three_mem Samples.no_arrays in
  let run :=
    encode_field [Samples.Three] (upb_encode_message [Samples.Three] 3) 1000
      Samples.Three f in
  let w' := final_state (run w) w in
  label f <> UPB_LABEL_REPEATED /\
  run w = Ok tt w' /\
  (used w < used w' <-> field_present (mem w) 1000 Samples.Three f = true).
Proof.
  intros f w run w'.
  assert (H1 : label f <> UPB_LABEL_REPEATED) by discriminate.
  assert (H2 : run w = Ok tt w')
    by (apply returns_final; vm_compute; reflexivity).
  split; [exact H1|]. split; [exact H2|].
  apply (singular_field_emitted_iff_present _ _ _ _ _ _ _ H1 H2).
Defined.

(** ** Entry point *)

(** C9. Whatever the record and the layout, a call of [upb_encode] that
    returns ends in one of three ways: (a) the message was encoded, the
    length is not zero, and the result is the written range
    [[ptr, limit)]; (b) the message was encoded to zero bytes and the
    result is the static sentinel, not NULL, with length 0; (c) the
    encoding failed, the result is NULL with length 0 - and this happens
    only when the allocator's last answer was NULL, never with an
    allocator that grants every request. *)
Theorem upb_encode_outcomes
    (layouts : list upb_msglayout_msginit_v1) (fuel : nat) (msg : Z)
    (m : upb_msglayout_msginit_v1) (size : Z) (w : machine)
    (r : encoded_ptr) (sz : Z) (w' : machine)
    (Hrun : upb_encode layouts fuel msg m size w = Ok (r, sz) w') :
  (((exists s, upb_encode_message layouts fuel msg m size (empty_encstate w)
               = Ok s w') /\
    r = BufPtr (ptr w') /\ ptr w' <> 0 /\
    sz = wrap64 (limit w' - ptr w') /\ sz <> 0)
   \/
   ((exists s, upb_encode_message layouts fuel msg m size (empty_encstate w)
               = Ok s w') /\
    r = StaticCh /\ sz = 0 /\ wrap64 (limit w' - ptr w') = 0)
   \/
   (upb_encode_message layouts fuel msg m size (empty_encstate w) = Fail w' /\
    r = NullPtr /\ sz = 0 /\
    (ncalls w < ncalls w')%nat /\ alloc w (pred (ncalls w')) = 0))
  /\ (never_denies w -> r <> NullPtr).
Proof.
  unfold upb_encode in Hrun.
  pose proof (adds_upb_encode_message layouts fuel msg m size
                (empty_encstate w)) as Hinv.
  destruct (upb_encode_message layouts fuel msg m size (empty_encstate w))
    as [s w1|w1| |]; try discriminate.
  - destruct (Z.eqb_spec (wrap64 (limit w1 - ptr w1)) 0) as [Hz|Hnz].
    + inversion Hrun. subst. split; [|discriminate]. right. left.
      split; [eexists; reflexivity|].
      split; [reflexivity|]. split; exact Hz.
    + destruct (Z.eqb_spec (ptr w1) 0) as [|Hp]; [discriminate|].
      inversion Hrun. subst. split; [|discriminate]. left.
      split; [eexists; reflexivity|].
      split; [reflexivity|]. split; [exact Hp|].
      split; [reflexivity|exact Hnz].
  - inversion Hrun. subst. destruct Hinv as (_ & Hn & Hz).
    split; [|intros Hnever _; exact (Hnever _ Hz)].
    right. right. split; [reflexivity|].
    split; [reflexivity|]. split; [reflexivity|].
    split; [exact Hn|exact Hz].
Qed.

Lemma upb_encode_outcomes_witness :
  let w := Samples.fresh Samples.three_mem Samples.no_arrays in
  let run := upb_encode [Samples.Three] 3 1000 Samples.Three 0 in
  let w' := final_state (run w) w in
  run w = Ok (BufPtr 65658, 6) w' /\
  output w' = [8; 10; 16; 20; 24; 30] /\
  BufPtr 65658 = BufPtr (ptr w') /\ 6 = wrap64 (limit w' - ptr w').
Proof.
  intros w run w'.
  assert (H : run w = Ok (BufPtr 65658, 6) w')
    by (apply returns_final; vm_compute; reflexivity).
  split; [exact H|]. split; [vm_compute; reflexivity|].
  destruct (upb_encode_outcomes [Samples.Three] 3 1000 Samples.Three 0 w
              (BufPtr 65658) 6 w' H)
    as [[(_ & Hr & _ & Hs & _)|[(_ & Hr & _)|(_ & Hr & _)]] _].
  - split; [exact Hr|exact Hs].
  - discriminate Hr.
  - discriminate Hr.
Defined.

(** The two other ways out: an all-zero proto3 record encodes to the
    sentinel, and a starved allocator gives NULL with length 0. *)
Lemma upb_encode_empty_and_denied :
  returns (upb_encode [Samples.Three] 3 1000 Samples.Three 9
             (Samples.fresh Samples.zeros Samples.no_arrays))
          (StaticCh, 0) /\
  returns (upb_encode [Samples.Three] 3 1000 Samples.Three 9
             (Samples.starved Samples.three_mem Samples.no_arrays))
          (NullPtr, 0).
Proof. split; vm_compute; reflexivity. Qed.

(** ** Buffer growth *)

(** What [upb_encode_growbuffer] does to the memory of a well-formed
    encoder state: its [memmove] copies the old region onto itself, so
    the only bytes that change are those [realloc] put at the beginning
    of the new region; the used bytes are counted at the end of the new
    region but nothing is written there. *)
Lemma upb_encode_growbuffer_memory (bytes : Z) (w w' : machine) :
  0 <= limit w - buf w < 2 ^ 64 ->
  upb_encode_growbuffer bytes w = Ok tt w' ->
  used w' = used w /\
  buf w' = alloc w (ncalls w) /\
  forall a, a < buf w' \/ buf w' + (limit w - buf w) <= a ->
    load_u8 (mem w') a = load_u8 (mem w) a.
Proof.
  intros Hwf. unfold upb_encode_growbuffer, bind, get, upb_roundup_pow2.
  destruct (roundup_loop 64 128 (wrap64 (bytes + (limit w - ptr w))))
    as [new_size|]; [|discriminate].
  unfold ret, upb_env_realloc.
  destruct (Z.eqb_spec (alloc w (ncalls w)) 0) as [Hz|Hnz].
  - rewrite Hz. simpl. discriminate.
  - unfold CHK. destruct (Z.eqb_spec (alloc w (ncalls w)) 0); [contradiction|].
    cbn [negb]. unfold memmove, set_mem, set_ptr, set_limit, set_buf, bind, get.
    intros E. inversion E. subst w'. clear E.
    cbn [mem buf ptr limit with_mem with_ptr with_buf with_limit with_ncalls].
    split; [unfold used; cbn; lia|]. split; [reflexivity|].
    intros a Ha.
    assert (Hold : wrap64 (limit w - buf w) = limit w - buf w)
      by (apply Z.mod_small; exact Hwf).
    rewrite Hold.
    replace (limit w - (limit w - buf w)) with (buf w) by lia.
    rewrite self_move. unfold load_u8, mem_move.
    rewrite store_bytes_outside; [reflexivity|].
    rewrite load_bytes_length. lia.
Qed.

(** C1 (the code departs from the claim). A buffer of 128 bytes holding
    120 written bytes [0xAA] has to grow for a request of 10 bytes.
    [upb_encode_growbuffer] succeeds and the number of used bytes is
    still 120, but the used region next to the new end holds the zeros
    the allocator's fresh region came with: the written bytes are at the
    beginning of the new region, where [realloc] left them. *)
Theorem growbuffer_loses_written_bytes :
  let w0 := Samples.fresh Samples.zeros Samples.no_arrays in
  let w1 := final_state (upb_put_bytes (Local (repeat 170 120)) 120 w0) w0 in
  let w2 := final_state (upb_encode_growbuffer 10 w1) w1 in
  returns (upb_put_bytes (Local (repeat 170 120)) 120 w0) tt /\
  returns (upb_encode_growbuffer 10 w1) tt /\
  (limit w1 - buf w1 = 128 /\ limit w2 - buf w2 = 256) /\
  (used w1 = 120 /\ used w2 = 120) /\
  output w1 = repeat 170 120 /\
  output w2 = repeat 0 120 /\
  load_bytes (mem w2) (buf w2 + 8) 120 = repeat 170 120.
Proof. vm_compute. repeat split; reflexivity. Qed.

(** ** Runs that never call the allocator *)

Lemma load_bytes_app (m : memory) (n1 n2 : nat) :
  forall a,
    load_bytes m a (n1 + n2)
    = load_bytes m a n1 ++ load_bytes m (a + Z.of_nat n1) n2.
Proof.
  induction n1 as [|n1 IH]; intros a.
  - cbn [load_bytes Nat.add app]. f_equal. simpl. lia.
  - cbn [load_bytes Nat.add app]. rewrite IH. do 3 f_equal. lia.
Qed.

Lemma load_bytes_ext (m m' : memory) (n : nat) :
  forall a,
    (forall x, a <= x < a + Z.of_nat n -> m' x = m x) ->
    load_bytes m' a n = load_bytes m a n.
Proof.
  induction n as [|n IH]; intros a H; cbn [load_bytes]; [reflexivity|].
  f_equal.
  - unfold load_u8. rewrite H by lia. reflexivity.
  - apply IH. intros x Hx. apply H. lia.
Qed.

(** An extended buffer reads as new bytes followed by the old output. *)
Lemma extended_output (w w' : machine) :
  extended w w' -> ptr w <= limit w ->
  output w' =
  load_bytes (mem w') (ptr w') (Z.to_nat (ptr w - ptr w')) ++ output w.
Proof.
  intros (Hb & Hl & Hp & Hm & _) Hle. unfold output, used.
  rewrite Hl.
  replace (Z.to_nat (limit w - ptr w'))
    with (Z.to_nat (ptr w - ptr w') + Z.to_nat (limit w - ptr w))%nat by lia.
  rewrite load_bytes_app. f_equal.
  replace (ptr w' + Z.of_nat (Z.to_nat (ptr w - ptr w'))) with (ptr w) by lia.
  apply load_bytes_ext. intros x Hx. apply Hm. lia.
Qed.

Lemma bind_ok {A B} (c : M A) (f : A -> M B) (w : machine) (b : B)
    (w' : machine) :
  bind c f w = Ok b w' -> exists a w1, c w = Ok a w1 /\ f a w1 = Ok b w'.
Proof.
  unfold bind. destruct (c w) as [a w1|w1| |]; try discriminate.
  intros H. exists a, w1. split; [reflexivity|exact H].
Qed.

Lemma upb_encode_message_fields
    (layouts : list upb_msglayout_msginit_v1) (k : nat) (msg : Z)
    (m : upb_msglayout_msginit_v1) (size : Z) (w : machine) (s : Z)
    (w' : machine) :
  msg <> 0 ->
  upb_encode_message layouts (S k) msg m size w = Ok s w' ->
  fields_loop layouts (upb_encode_message layouts k) msg m (rev (fields m)) w
  = Ok tt w' /\
  s = wrap64 (ptr w - ptr w').
Proof.
  intros Hmsg. cbn [upb_encode_message]. unfold bind at 1. unfold get at 1.
  destruct (Z.eqb_spec msg 0) as [|_]; [contradiction|].
  intros E. apply bind_ok in E. destruct E as ([] & w1 & Eloop & Eret).
  cbv [bind get ret] in Eret. inversion Eret. subst.
  split; [exact Eloop|reflexivity].
Qed.

(** ** Length prefix of a submessage *)

(** When the allocator is not called during [upb_encode_message], the
    size it reports is the number of bytes it wrote, and the buffer was
    only extended. *)
Lemma upb_encode_message_size
    (layouts : list upb_msglayout_msginit_v1) (fuel : nat) (msg : Z)
    (m : upb_msglayout_msginit_v1) (size : Z) (w : machine) (s : Z)
    (w' : machine) :
  msg <> 0 ->
  upb_encode_message layouts fuel msg m size w = Ok s w' ->
  ncalls w' = ncalls w ->
  extended w w' /\
  s = wrap64 (used w' - used w) /\
  (well_formed w -> s = used w' - used w /\ 0 <= s).
Proof.
  intros Hmsg E Hn.
  pose proof (adds_grew _ _ _ _ _
                (adds_upb_encode_message layouts fuel msg m size) E)
    as (_ & Hu & _ & Hext).
  specialize (Hext Hn).
  destruct fuel as [|k]; [discriminate|].
  apply upb_encode_message_fields in E; [|exact Hmsg].
  destruct E as [_ Hs].
  assert (Hd : ptr w - ptr w' = used w' - used w).
  { destruct Hext as (_ & Hl & _). unfold used. lia. }
  split; [exact Hext|]. split; [congruence|].
  intros Hwf. destruct Hext as (_ & _ & _ & _ & Hw).
  destruct (Hw Hwf) as [((Hbp & Hpl) & Hsz) _].
  destruct Hwf as ((Hbp0 & Hpl0) & Hsz0).
  rewrite Hs, Hd. unfold wrap64. rewrite Z.mod_small; unfold used in *; lia.
Qed.

(** C2 (the code departs from the claim). Encoding an [Outer] whose
    [Inner] submessage has [a = 5], from the empty encoder state: the
    recursive [upb_encode_message] writes the 2 bytes [[0x08; 0x05]],
    but the buffer was allocated during the call, [buf_end] is the null
    cursor of before, and the size it reports is
    [2^64 - 65662]; the length prefix in the output is that number on
    ten bytes, not 2. *)
Theorem submessage_length_prefix_wrong :
  let w := Samples.fresh Samples.nested_mem Samples.no_arrays in
  match upb_encode_message Samples.nested_layouts 2 2000 Samples.Inner 0 w with
  | Ok size w' =>
      used w' - used w = 2 /\ output w' = [8; 5] /\
      size = 2 ^ 64 - 65662
  | _ => False
  end /\
  match upb_encode Samples.nested_layouts 3 1000 Samples.Outer 0 w with
  | Ok (r, size) w' =>
      size = 13 /\
      output w' = [10; 130; 255; 251; 255; 255; 255; 255; 255; 255; 1; 8; 5] /\
      output w' <> [10; 2; 8; 5]
  | _ => False
  end.
Proof. vm_compute. repeat split; try reflexivity. discriminate. Qed.

(** ** Null records *)

(** C3 (the code departs from the claim). With a null record
    [upb_encode_message] returns true and leaves the machine as it was,
    but it returns before [*size] is assigned: the caller's variable
    keeps the value it had, whatever it is. A proto2 record whose
    submessage hasbit is set while the pointer is null is thus encoded
    as a tag followed by the caller's uninitialised [size] (7 here), not
    by a length of 0. *)
Theorem encode_message_null_leaves_size :
  (forall layouts fuel m size w,
     upb_encode_message layouts (S fuel) 0 m size w = Ok size w) /\
  returns (upb_encode_message Samples.opt_layouts 1 0 Samples.Inner 7
             (Samples.fresh Samples.opt_mem Samples.no_arrays)) 7 /\
  match upb_encode Samples.opt_layouts 3 1000 Samples.Opt 0
          (Samples.fresh Samples.opt_mem Samples.no_arrays) with
  | Ok (r, size) w' => size = 2 /\ output w' = [10; 7]
  | _ => False
  end.
Proof.
  split; [intros; reflexivity|].
  vm_compute. repeat split; reflexivity.
Qed.

(** ** Field order *)


Section DeclarationOrder.

Variable layouts : list upb_msglayout_msginit_v1.
Variable rec : Z -> upb_msglayout_msginit_v1 -> Z -> M Z.
Hypothesis Hrec : forall msg m size, adds 0 (rec msg m size).


End DeclarationOrder.


(** C5 (the code departs from the claim). Fields [#1] (a string) and
    [#2] (an int32) are both present. With a 3-byte string the output
    reads [#1], [#2] in declaration order. With a 125-byte string the
    buffer grows after field [#2] and the string body were written:
    the output keeps the tag and length of [#1] followed by 127 zero
    bytes; neither the string body nor the record of [#2] is there. *)
Theorem field_order_lost_on_growth :
  match upb_encode [Samples.Two] 2 1000 Samples.Two 0
          (Samples.fresh (Samples.two_mem 3) Samples.no_arrays) with
  | Ok (r, size) w' => output w' = [10; 3; 65; 65; 65] ++ [16; 5]
  | _ => False
  end /\
  match upb_encode [Samples.Two] 2 1000 Samples.Two 0
          (Samples.fresh (Samples.two_mem 125) Samples.no_arrays) with
  | Ok (r, size) w' =>
      size = 129 /\
      output w' = [10; 125] ++ repeat 0 127 /\
      output w' <> ([10; 125] ++ repeat 65 125) ++ [16; 5]
  | _ => False
  end.
Proof. vm_compute. repeat split; try reflexivity. discriminate. Qed.

(** ** Packed repeated fields *)

Lemma varint_loop_bytes (k : nat) :
  forall v, Forall (fun b => 0 <= b < 256) (varint_loop k v).
Proof.
  induction k as [|k IH]; intros v; cbn [varint_loop]; [constructor|].
  destruct (v =? 0); [constructor|].
  rewrite land_127.
  pose proof (Z.mod_pos_bound v 128 ltac:(lia)) as Hm.
  constructor; [|apply IH].
  destruct (Z.shiftr v 7 =? 0); [lia|].
  rewrite lor_128 by exact Hm. lia.
Qed.

Lemma upb_encode_varint_bytes (v : Z) :
  0 <= v -> Forall (fun b => 0 <= b < 256) (upb_encode_varint v).
Proof.
  intros Hv. unfold upb_encode_varint.
  destruct (Z.ltb_spec v 128).
  - constructor; [lia|constructor].
  - apply varint_loop_bytes.
Qed.

Lemma load_store_same (m : memory) (a : Z) (bs : list Z) :
  Forall (fun b => 0 <= b < 256) bs ->
  load_bytes (store_bytes m a bs) a (length bs) = bs.
Proof.
  intros Hbs.
  apply (nth_ext _ _ 0 0); [apply load_bytes_length|].
  rewrite load_bytes_length. intros i Hi.
  rewrite nth_load_bytes by exact Hi.
  unfold load_u8, store_bytes.
  destruct (Z.leb_spec a (a + Z.of_nat i)); [|lia].
  destruct (Z.ltb_spec (a + Z.of_nat i) (a + Z.of_nat (length bs))); [|lia].
  cbn [andb].
  replace (Z.to_nat (a + Z.of_nat i - a)) with i by lia.
  rewrite Forall_forall in Hbs.
  apply Z.mod_small. apply Hbs. apply nth_In. exact Hi.
Qed.

(** With room for ten bytes, [upb_put_varint] puts exactly the varint
    in front of the output of a well-formed state. *)
Lemma upb_put_varint_output (val : Z) (w : machine) :
  well_formed w -> 10 <= ptr w - buf w -> 0 <= val ->
  exists w',
    upb_put_varint val w = Ok tt w' /\
    ncalls w' = ncalls w /\ extended w w' /\
    ptr w' = ptr w - Z.of_nat (length (upb_encode_varint val)) /\
    output w' = upb_encode_varint val ++ output w.
Proof.
  intros Hwf Hroom Hval.
  destruct Hwf as ((Hbp & Hpl) & Hsz).
  assert (Hr : UPB_PB_VARINT_MAX_LEN <= wrap64 (ptr w - buf w)).
  { unfold wrap64, UPB_PB_VARINT_MAX_LEN. rewrite Z.mod_small; lia. }
  destruct (upb_put_varint_room val w Hr) as (w' & E & F & Hn & Hmem).
  exists w'. split; [exact E|]. split; [exact Hn|].
  pose proof (adds_grew _ _ _ _ _ (adds_put_varint_exact val) E)
    as (_ & _ & _ & Hext).
  specialize (Hext Hn).
  destruct F as (_ & _ & Hp & _).
  split; [exact Hext|]. split; [exact Hp|].
  rewrite (extended_output w w' Hext) by lia.
  f_equal. rewrite Hp.
  replace (Z.to_nat (ptr w - (ptr w - Z.of_nat (length (upb_encode_varint val)))))
    with (length (upb_encode_varint val)) by lia.
  pose proof (upb_encode_varint_bytes val Hval) as Hbytes.
  set (bs := upb_encode_varint val) in *.
  rewrite Hmem. unfold mem_move.
  rewrite Nat2Z.id, load_store_same by exact Hbytes.
  apply load_store_same. exact Hbytes.
Qed.

Section PackedVarint.

Variable csize : Z.
Variable encode : memory -> Z -> Z.
Hypothesis Hsize : 0 < csize.
Hypothesis Hnonneg : forall m p, 0 <= encode m p.
Hypothesis Hlocal :
  forall m m' p,
    (forall x, p <= x < p + csize -> m' x = m x) -> encode m' p = encode m p.

Lemma array_values_ext (m m' : memory) (start : Z) (n : nat) :
  (forall x, start <= x < start + Z.of_nat n * csize -> m' x = m x) ->
  array_values m' start csize encode n = array_values m start csize encode n.
Proof.
  intros H. unfold array_values. apply map_ext_in. intros i Hi.
  apply in_seq in Hi. apply Hlocal. intros x Hx. apply H. nia.
Qed.

Lemma array_values_snoc (m : memory) (start : Z) (k : nat) :
  array_values m start csize encode (S k)
  = array_values m start csize encode k
    ++ [encode m (start + Z.of_nat k * csize)].
Proof.
  unfold array_values. rewrite seq_S, map_app. reflexivity.
Qed.

(** The element loop of [VARINT_CASE] in a buffer with room: the
    element varints end up in front of the output, in array order. *)
Lemma varint_loop_output (start : Z) (n : nat) :
  forall w,
    well_formed w -> 10 * Z.of_nat n <= ptr w - buf w ->
    outside_buffer w start csize n ->
    exists w',
      array_loop n
        (fun i => e <- get ;;
                  upb_put_varint (encode (mem e) (start + i * csize))) w
      = Ok tt w' /\
      ncalls w' = ncalls w /\ extended w w' /\
      ptr w - 10 * Z.of_nat n <= ptr w' /\
      output w' =
        concat (map upb_encode_varint
                  (array_values (mem w) start csize encode n))
        ++ output w.
Proof.
  induction n as [|k IH]; intros w Hwf Hroom Hout.
  - exists w. cbn [array_loop]. split; [reflexivity|].
    split; [reflexivity|]. split; [apply extended_refl|].
    split; [lia|reflexivity].
  - cbn [array_loop]. unfold bind at 1. unfold bind at 1. unfold get at 1.
    destruct (upb_put_varint_output
                (encode (mem w) (start + Z.of_nat k * csize)) w Hwf
                ltac:(lia) (Hnonneg _ _))
      as (w1 & E1 & Hn1 & Hext1 & Hp1 & Hout1).
    rewrite E1.
    pose proof (upb_encode_varint_length_max
                  (encode (mem w) (start + Z.of_nat k * csize))) as Hmax.
    destruct (Hext1) as (Hb1 & Hl1 & _ & Habove & Hw1).
    destruct (Hw1 Hwf) as [Hwf1 Hbelow].
    assert (Hout' : outside_buffer w1 start csize k).
    { unfold outside_buffer in *. rewrite Hb1, Hl1. nia. }
    destruct (IH w1 Hwf1 ltac:(lia) Hout')
      as (w' & E & Hn & Hext & Hp & Hres).
    exists w'. split; [exact E|]. split; [congruence|].
    split; [apply (extended_trans w w1 w'); assumption|].
    split; [lia|].
    assert (Hsame : array_values (mem w1) start csize encode k
                    = array_values (mem w) start csize encode k).
    { apply array_values_ext. intros x Hx.
      destruct Hwf as ((Hbp & Hpl) & _).
      destruct Hout as [Hlow|Hhigh].
      - apply Hbelow. nia.
      - apply Habove. lia. }
    rewrite Hres, Hsame, Hout1, array_values_snoc, map_app, concat_app.
    cbn [map concat]. rewrite app_nil_r, <- app_assoc. reflexivity.
Qed.

(** [VARINT_CASE] followed by the tag, in a buffer with room: the
    packed record of the spec ends up in front of the output. *)
Lemma VARINT_CASE_output (arr : upb_array) (fn : Z) (w : machine) :
  well_formed w ->
  0 < arr_len arr ->
  10 * (arr_len arr + 2) <= ptr w - buf w ->
  outside_buffer w (arr_data arr) csize (Z.to_nat (arr_len arr)) ->
  0 <= tag_value fn UPB_WIRE_TYPE_DELIMITED ->
  exists w',
    (VARINT_CASE arr csize encode ;;
     upb_put_tag fn UPB_WIRE_TYPE_DELIMITED) w = Ok tt w' /\
    ncalls w' = ncalls w /\
    output w' =
      packed_record fn
        (array_values (mem w) (arr_data arr) csize encode
           (Z.to_nat (arr_len arr)))
      ++ output w.
Proof.
  intros Hwf Hlen Hroom Hout Htag.
  unfold VARINT_CASE. unfold bind at 1. unfold bind at 1. unfold get at 1.
  unfold bind at 1.
  destruct (varint_loop_output (arr_data arr) (Z.to_nat (arr_len arr)) w Hwf
              ltac:(lia) Hout)
    as (w1 & E1 & Hn1 & Hext1 & Hp1 & Hout1).
  rewrite E1. unfold bind at 1. unfold get at 1.
  destruct Hext1 as (Hb1 & Hl1 & Hle1 & _ & Hw1).
  destruct (Hw1 Hwf) as [Hwf1 _].
  set (body := concat (map upb_encode_varint
                         (array_values (mem w) (arr_data arr) csize encode
                            (Z.to_nat (arr_len arr))))) in *.
  assert (Hused : used w1 = Z.of_nat (length body) + used w).
  { destruct Hwf as ((Hbp & Hpl) & Hsz).
    destruct Hwf1 as ((Hbp1 & Hpl1) & Hsz1).
    assert (Hlenout : length (output w1) = (length body + length (output w))%nat)
      by (rewrite Hout1, length_app; reflexivity).
    unfold output in Hlenout. rewrite !load_bytes_length in Hlenout.
    unfold used in *. lia. }
  assert (Hsizeval :
            wrap64 (limit w1 - ptr w1 - wrap64 (limit w - ptr w))
            = Z.of_nat (length body)).
  { destruct Hwf as ((Hbp & Hpl) & Hsz).
    destruct Hwf1 as ((Hbp1 & Hpl1) & Hsz1).
    unfold used in Hused. unfold wrap64.
    rewrite (Z.mod_small (limit w - ptr w)) by lia.
    rewrite Z.mod_small; lia. }
  rewrite Hsizeval.
  destruct (upb_put_varint_output (Z.of_nat (length body)) w1 Hwf1
              ltac:(lia) ltac:(lia))
    as (w2 & E2 & Hn2 & Hext2 & Hp2 & Hout2).
  rewrite E2.
  pose proof (upb_encode_varint_length_max (Z.of_nat (length body))) as Hmax.
  destruct Hext2 as (Hb2 & Hl2 & _ & _ & Hw2).
  destruct (Hw2 Hwf1) as [Hwf2 _].
  unfold upb_put_tag. fold (tag_value fn UPB_WIRE_TYPE_DELIMITED).
  destruct (upb_put_varint_output (tag_value fn UPB_WIRE_TYPE_DELIMITED) w2
              Hwf2 ltac:(lia) Htag)
    as (w3 & E3 & Hn3 & _ & _ & Hout3).
  exists w3. split; [exact E3|]. split; [congruence|].
  rewrite Hout3, Hout2, Hout1. unfold packed_record. fold body.
  rewrite <- !app_assoc. reflexivity.
Qed.

End PackedVarint.

Lemma load_u64_local (m m' : memory) (p : Z) :
  (forall x, p <= x < p + 8 -> m' x = m x) -> load_u64 m' p = load_u64 m p.
Proof. intros H. unfold load_u64. f_equal. apply load_bytes_ext. exact H. Qed.

Lemma load_u32_local (m m' : memory) (p : Z) :
  (forall x, p <= x < p + 4 -> m' x = m x) -> load_u32 m' p = load_u32 m p.
Proof. intros H. unfold load_u32. f_equal. apply load_bytes_ext. exact H. Qed.

Lemma load_bool_local (m m' : memory) (p : Z) :
  (forall x, p <= x < p + 1 -> m' x = m x) -> load_bool m' p = load_bool m p.
Proof.
  intros H. unfold load_bool, load_u8. rewrite H by lia. reflexivity.
Qed.

Lemma load_bool_nonneg (m : memory) (p : Z) : 0 <= load_bool m p.
Proof. unfold load_bool. destruct (load_u8 m p =? 0); lia. Qed.

(** The element encoders of [packed_varint] read only their element and
    yield unsigned values. *)
Lemma packed_varint_sound (t : upb_descriptortype_t) (csize : Z)
    (encode : memory -> Z -> Z) :
  packed_varint t = Some (csize, encode) ->
  0 < csize /\
  (forall m p, 0 <= encode m p) /\
  (forall m m' p,
     (forall x, p <= x < p + csize -> m' x = m x) ->
     encode m' p = encode m p).
Proof.
  destruct t; cbn [packed_varint]; intros E; inversion E; subst;
    (split; [lia|]); split; intros;
    try apply load_u64_range; try apply load_u32_range;
    try apply load_bool_nonneg;
    try (unfold upb_zzencode_32, wrap32; apply Z.mod_pos_bound; reflexivity);
    try (unfold upb_zzencode_64, wrap64; apply Z.mod_pos_bound; reflexivity);
    try (apply load_u64_local; assumption);
    try (apply load_u32_local; assumption);
    try (apply load_bool_local; assumption);
    try (do 2 f_equal; apply load_u64_local; assumption);
    try (do 2 f_equal; apply load_u32_local; assumption).
Qed.

(** When the buffer has room (ten bytes for each element, the length
    and the tag), a non-empty repeated field of a varint-representable
    type is written as the packed record of the spec: the tag with wire
    type 2, the length varint equal to the sum of the widths of the
    element varints, and the element varints in array order. *)
Lemma packed_field_output
    (layouts : list upb_msglayout_msginit_v1)
    (rec : Z -> upb_msglayout_msginit_v1 -> Z -> M Z)
    (field_mem : Z) (m : upb_msglayout_msginit_v1)
    (f : upb_msglayout_fieldinit_v1) (w : machine)
    (csize : Z) (encode : memory -> Z -> Z) :
  let arr := arrays w (load_u64 (mem w) field_mem) in
  packed_varint (type f) = Some (csize, encode) ->
  load_u64 (mem w) field_mem <> 0 ->
  0 < arr_len arr ->
  arr_type arr = upb_desctype_to_fieldtype2 (type f) ->
  well_formed w ->
  10 * (arr_len arr + 2) <= ptr w - buf w ->
  outside_buffer w (arr_data arr) csize (Z.to_nat (arr_len arr)) ->
  exists w',
    upb_encode_array layouts rec field_mem m f w = Ok tt w' /\
    ncalls w' = ncalls w /\
    output w' =
      packed_record (signed32 (number f))
        (array_values (mem w) (arr_data arr) csize encode
           (Z.to_nat (arr_len arr)))
      ++ output w.
Proof.
  intros arr Hpacked Hnull Hlen Htype Hwf Hroom Hout.
  destruct (packed_varint_sound _ _ _ Hpacked) as (Hsize & Hnonneg & Hlocal).
  assert (Htag : 0 <= tag_value (signed32 (number f)) UPB_WIRE_TYPE_DELIMITED)
    by apply wrap64_range.
  pose proof (VARINT_CASE_output csize encode Hsize Hnonneg Hlocal arr
                (signed32 (number f)) w Hwf Hlen Hroom Hout Htag) as Hcase.
  unfold upb_encode_array. unfold bind at 1. unfold get at 1. fold arr.
  destruct (Z.eqb_spec (load_u64 (mem w) field_mem) 0) as [|_];
    [contradiction|].
  destruct (Z.eqb_spec (arr_len arr) 0) as [|_]; [lia|].
  cbn [orb]. unfold bind at 1. rewrite Htype.
  destruct (type f); cbn [packed_varint] in Hpacked;
    try discriminate Hpacked;
    inversion Hpacked; subst csize encode; exact Hcase.
Qed.

(** The spec's example: [[1, 300, -1]] as a repeated int32 field. *)
Lemma packed_record_example :
  packed_record 1 [1; 300; 2 ^ 32 - 1]
  = [10; 8] ++ [1] ++ [172; 2] ++ [255; 255; 255; 255; 15].
Proof. reflexivity. Qed.

(** C6 (the code departs from the claim). The repeated int32 field
    [[1, 300, -1]] is encoded as one packed record: tag, length 8,
    the three varints in array order. With thirty elements [-1] (150
    bytes of varints) the buffer grows while the elements are written:
    the length prefix is still 150, but only the six elements written
    after the growth are in the output; the twenty-four written before
    it are replaced by 120 zero bytes. *)
Theorem packed_elements_lost_on_growth :
  match upb_encode [Samples.Rep UPB_DESCRIPTOR_TYPE_INT32] 2 1000
          (Samples.Rep UPB_DESCRIPTOR_TYPE_INT32) 0
          (Samples.fresh (Samples.rep_mem Samples.small_int32s)
             (Samples.rep_arrays UPB_TYPE_INT32 3)) with
  | Ok (r, size) w' =>
      output w' = [10; 8] ++ [1] ++ [172; 2] ++ [255; 255; 255; 255; 15]
  | _ => False
  end /\
  match upb_encode [Samples.Rep UPB_DESCRIPTOR_TYPE_INT32] 2 1000
          (Samples.Rep UPB_DESCRIPTOR_TYPE_INT32) 0
          (Samples.fresh (Samples.rep_mem Samples.many_int32s)
             (Samples.rep_arrays UPB_TYPE_INT32 30)) with
  | Ok (r, size) w' =>
      size = 153 /\
      output w' =
        [10; 150; 1]
        ++ concat (repeat [255; 255; 255; 255; 15] 6) ++ repeat 0 120 /\
      output w' <> [10; 150; 1] ++ concat (repeat [255; 255; 255; 255; 15] 30)
  | _ => False
  end.
Proof. vm_compute. repeat split; try reflexivity. discriminate. Qed.

(** * Further properties of the encoder *)

(** ** Width of a varint *)

Lemma varint_value_upper (bs : list Z) :
  varint_value bs < 128 ^ Z.of_nat (length bs).
Proof.
  induction bs as [|b r IH]; cbn [varint_value length]; [reflexivity|].
  rewrite Nat2Z.inj_succ, Z.pow_succ_r by lia. rewrite land_127.
  pose proof (Z.mod_pos_bound b 128 ltac:(lia)). lia.
Qed.

Lemma varint_value_lower (bs : list Z) :
  varint_wf bs -> last bs 0 <> 0 ->
  128 ^ (Z.of_nat (length bs) - 1) <= varint_value bs.
Proof.
  induction bs as [|b r IH]; [intros []|].
  destruct r as [|b2 r].
  - cbn [varint_wf varint_value last length]. intros Hb Hl.
    rewrite land_127, Z.mod_small by lia. simpl. lia.
  - intros Hwf Hl. apply varint_wf_cons in Hwf. destruct Hwf as [Hb Hwf].
    change (last (b :: b2 :: r) 0) with (last (b2 :: r) 0) in Hl.
    specialize (IH Hwf Hl).
    change (varint_value (b :: b2 :: r))
      with (Z.land b 127 + 128 * varint_value (b2 :: r)).
    rewrite land_127.
    pose proof (Z.mod_pos_bound b 128 ltac:(lia)).
    replace (Z.of_nat (length (b :: b2 :: r)) - 1)
      with (Z.succ (Z.of_nat (length (b2 :: r)) - 1))
      by (cbn [length]; lia).
    rewrite Z.pow_succ_r by (cbn [length]; lia). lia.
Qed.

(** X1. The number of bytes [upb_encode_varint] produces for a positive
    64-bit value [v] is the number of base-128 digits of [v]: with [n]
    bytes, [128^(n-1) <= v < 128^n]. *)
Theorem upb_encode_varint_width (v : Z) (Hv : is_u64 v) (Hpos : 0 < v) :
  128 ^ (Z.of_nat (length (upb_encode_varint v)) - 1) <= v
  < 128 ^ Z.of_nat (length (upb_encode_varint v)).
Proof.
  unfold is_u64 in Hv.
  assert (Hfit : 0 < v < 128 ^ Z.of_nat 10).
  { change (128 ^ Z.of_nat 10) with (2 ^ 70).
    assert (2 ^ 64 < 2 ^ 70) by reflexivity. lia. }
  rewrite upb_encode_varint_loop by lia.
  destruct (varint_loop_props 10 v Hfit) as (Hwf & Hval & _ & Hlast).
  pose proof (varint_value_upper (varint_loop 10 v)) as Hup.
  pose proof (varint_value_lower (varint_loop 10 v) Hwf Hlast) as Hlow.
  rewrite Hval in Hup, Hlow. split; assumption.
Qed.

Lemma upb_encode_varint_width_witness :
  is_u64 16384 /\ 0 < 16384 /\
  length (upb_encode_varint 16384) = 3%nat /\
  128 ^ (Z.of_nat (length (upb_encode_varint 16384)) - 1) <= 16384.
Proof.
  assert (H : is_u64 16384) by (unfold is_u64; lia).
  assert (H0 : 0 < 16384) by lia.
  split; [exact H|]. split; [exact H0|]. split; [reflexivity|].
  apply (upb_encode_varint_width 16384 H H0).
Defined.

(** ** Magnitude of a zigzag code *)

(** X2. Zigzag encoding interleaves the signed values by magnitude:
    [upb_zzencode_32 n] is [2n] for [n >= 0] and [-2n-1] for [n < 0], so
    a value with [-2^k <= n < 2^k] is encoded below [2^(k+1)]; the same
    holds for [upb_zzencode_64]. *)
Theorem zigzag_keeps_magnitude (k n : Z) (Hk : 0 <= k)
    (Hn : - 2 ^ k <= n < 2 ^ k) :
  (k <= 31 ->
   upb_zzencode_32 n = (if 0 <=? n then 2 * n else - 2 * n - 1) /\
   0 <= upb_zzencode_32 n < 2 ^ (k + 1)) /\
  (k <= 63 ->
   upb_zzencode_64 n = (if 0 <=? n then 2 * n else - 2 * n - 1) /\
   0 <= upb_zzencode_64 n < 2 ^ (k + 1)).
Proof.
  assert (Hpow : 2 ^ (k + 1) = 2 * 2 ^ k)
    by (rewrite Z.pow_add_r by lia; change (2 ^ 1) with 2; lia).
  assert (Hbound : 0 <= (if 0 <=? n then 2 * n else - 2 * n - 1)
                   < 2 ^ (k + 1)).
  { rewrite Hpow. destruct (Z.leb_spec 0 n); lia. }
  split; intros Hle.
  - assert (Hi : is_i32 n).
    { unfold is_i32.
      pose proof (Z.pow_le_mono_r 2 k 31 ltac:(lia) Hle). lia. }
    rewrite zz32_closed by exact Hi. split; [reflexivity|exact Hbound].
  - assert (Hi : is_i64 n).
    { unfold is_i64.
      pose proof (Z.pow_le_mono_r 2 k 63 ltac:(lia) Hle). lia. }
    rewrite zz64_closed by exact Hi. split; [reflexivity|exact Hbound].
Qed.

Lemma zigzag_keeps_magnitude_witness :
  0 <= 6 /\ - 2 ^ 6 <= -64 < 2 ^ 6 /\
  upb_zzencode_32 (-64) = 127 /\ upb_encode_varint (upb_zzencode_32 (-64)) = [127].
Proof.
  assert (Hk : 0 <= 6) by lia.
  assert (Hn : - 2 ^ 6 <= -64 < 2 ^ 6) by lia.
  split; [exact Hk|]. split; [exact Hn|].
  destruct (zigzag_keeps_magnitude 6 (-64) Hk Hn) as [H32 _].
  destruct (H32 ltac:(lia)) as [Heq _].
  split; [exact Heq|reflexivity].
Defined.

(** ** Tags *)

Lemma land_shifted (x y k : Z) :
  0 <= k -> 0 <= y < 2 ^ k -> Z.land (Z.shiftl x k) y = 0.
Proof.
  intros Hk Hy. apply Z.bits_inj_0. intros i.
  rewrite Z.land_spec.
  destruct (Z_lt_le_dec i k) as [Hlt|Hge].
  - destruct (Z_lt_le_dec i 0) as [Hneg|Hpos].
    + rewrite (Z.testbit_neg_r _ i) by lia. reflexivity.
    + rewrite Z.shiftl_spec_low by lia. reflexivity.
  - rewrite <- (Z.mod_small y (2 ^ k)) by lia.
    rewrite Z.mod_pow2_bits_high by lia. apply andb_false_r.
Qed.

(** X3. For a field number below [2^28] and a wire type below 8, the
    tag [upb_put_tag] writes is [field_number * 8 + wire_type]; the wire
    type and the field number are read back from it as the remainder and
    the quotient by 8. *)
Theorem tag_value_round_trip (fn wt : Z)
    (Hfn : 0 <= fn < 2 ^ 28) (Hwt : 0 <= wt < 8) :
  tag_value fn wt = fn * 8 + wt /\
  tag_value fn wt mod 8 = wt /\
  tag_value fn wt / 8 = fn /\
  upb_put_tag fn wt = upb_put_varint (fn * 8 + wt).
Proof.
  assert (Hval : tag_value fn wt = fn * 8 + wt).
  { unfold tag_value.
    assert (Hs : signed32 (Z.shiftl fn 3) = Z.shiftl fn 3).
    { apply (signed_small 32); [lia|].
      rewrite Z.shiftl_mul_pow2 by lia. change (2 ^ 3) with 8.
      change (2 ^ (32 - 1)) with (8 * 2 ^ 28). lia. }
    rewrite Hs.
    assert (Hl : Z.land (Z.shiftl fn 3) wt = 0)
      by (apply land_shifted; [lia|exact Hwt]).
    rewrite <- Z.lxor_lor by exact Hl.
    rewrite <- Z.add_nocarry_lxor by exact Hl.
    rewrite Z.shiftl_mul_pow2 by lia. change (2 ^ 3) with 8.
    unfold wrap64. apply Z.mod_small.
    assert (8 * 2 ^ 28 < 2 ^ 64) by reflexivity. lia. }
  split; [exact Hval|].
  split; [|split].
  - rewrite Hval. symmetry. apply (Z.mod_unique _ 8 fn); lia.
  - rewrite Hval. symmetry. apply (Z.div_unique _ 8 fn wt); lia.
  - unfold upb_put_tag. fold (tag_value fn wt). rewrite Hval. reflexivity.
Qed.

Lemma tag_value_round_trip_witness :
  0 <= 2 < 2 ^ 28 /\ 0 <= UPB_WIRE_TYPE_DELIMITED < 8 /\
  tag_value 2 UPB_WIRE_TYPE_DELIMITED = 18.
Proof.
  assert (Hfn : 0 <= 2 < 2 ^ 28) by lia.
  assert (Hwt : 0 <= UPB_WIRE_TYPE_DELIMITED < 8)
    by (unfold UPB_WIRE_TYPE_DELIMITED; lia).
  split; [exact Hfn|]. split; [exact Hwt|].
  apply (tag_value_round_trip 2 UPB_WIRE_TYPE_DELIMITED Hfn Hwt).
Defined.

(** ** Buffer capacity *)

Lemma pow2_double (j : Z) : 0 <= j -> 2 ^ (j + 1) = 2 * 2 ^ j.
Proof.
  intros Hj. rewrite Z.pow_add_r by lia. change (2 ^ 1) with 2. lia.
Qed.

Lemma roundup_loop_spec (fuel : nat) :
  forall j bytes,
    7 <= j <= 63 -> 63 - j < Z.of_nat fuel -> bytes <= 2 ^ 63 ->
    j = 7 \/ 2 ^ (j - 1) < bytes ->
    exists i,
      j <= i <= 63 /\
      roundup_loop fuel (2 ^ j) bytes = Some (2 ^ i) /\
      bytes <= 2 ^ i /\ (i = 7 \/ 2 ^ (i - 1) < bytes).
Proof.
  induction fuel as [|fuel IH]; intros j bytes Hj Hfuel Hb Hinv.
  - lia.
  - cbn [roundup_loop].
    destruct (Z.ltb_spec (2 ^ j) bytes) as [Hlt|Hge].
    + assert (Hj63 : j < 63).
      { destruct (Z_lt_le_dec j 63) as [|Hge]; [assumption|].
        replace j with 63 in Hlt by lia. lia. }
      assert (Hw : wrap64 (2 ^ j * 2) = 2 ^ (j + 1)).
      { rewrite pow2_double by lia. unfold wrap64.
        pose proof (Z.pow_le_mono_r 2 (j + 1) 63 ltac:(lia) ltac:(lia)) as Hle.
        rewrite pow2_double in Hle by lia.
        pose proof (Z.pow_pos_nonneg 2 j ltac:(lia) ltac:(lia)).
        assert (2 ^ 63 < 2 ^ 64) by reflexivity.
        rewrite Z.mod_small; lia. }
      rewrite Hw.
      destruct (IH (j + 1) bytes ltac:(lia) ltac:(lia) Hb)
        as (i & Hi & E & Hle & Hmin).
      { right. replace (j + 1 - 1) with j by lia. exact Hlt. }
      exists i. split; [lia|]. split; [exact E|]. split; assumption.
    + exists j. split; [lia|]. split; [reflexivity|]. split; assumption.
Qed.

(** X4. For a request of at most [2^63] bytes, [upb_roundup_pow2]
    returns the smallest power of two that is at least 128 and at least
    the request. *)
Theorem upb_roundup_pow2_spec (bytes : Z) (w : machine)
    (Hbytes : bytes <= 2 ^ 63) :
  exists i,
    7 <= i <= 63 /\
    upb_roundup_pow2 bytes w = Ok (2 ^ i) w /\
    bytes <= 2 ^ i /\ (i = 7 \/ 2 ^ (i - 1) < bytes).
Proof.
  destruct (roundup_loop_spec 64 7 bytes ltac:(lia) ltac:(simpl; lia) Hbytes
              ltac:(left; reflexivity))
    as (i & Hi & E & Hle & Hmin).
  exists i. split; [exact Hi|]. split; [|split; assumption].
  unfold upb_roundup_pow2. change 128 with (2 ^ 7). rewrite E. reflexivity.
Qed.

Lemma upb_roundup_pow2_spec_witness :
  300 <= 2 ^ 63 /\
  upb_roundup_pow2 300 (Samples.fresh Samples.zeros Samples.no_arrays)
  = Ok 512 (Samples.fresh Samples.zeros Samples.no_arrays) /\
  exists i,
    7 <= i <= 63 /\
    upb_roundup_pow2 300 (Samples.fresh Samples.zeros Samples.no_arrays)
    = Ok (2 ^ i) (Samples.fresh Samples.zeros Samples.no_arrays) /\
    300 <= 2 ^ i /\ (i = 7 \/ 2 ^ (i - 1) < 300).
Proof.
  assert (H : 300 <= 2 ^ 63) by (intro Hc; discriminate Hc).
  split; [exact H|]. split; [reflexivity|].
  exact (upb_roundup_pow2_spec 300
           (Samples.fresh Samples.zeros Samples.no_arrays) H).
Defined.

Lemma roundup_loop_stuck (bytes : Z) (fuel : nat) :
  2 ^ 63 < bytes ->
  forall ret, ret = 0 \/ (exists j, 7 <= j <= 63 /\ ret = 2 ^ j) ->
    roundup_loop fuel ret bytes = None.
Proof.
  intros Hb. induction fuel as [|fuel IH]; intros ret Hret; [reflexivity|].
  cbn [roundup_loop].
  assert (Hlt : ret < bytes).
  { destruct Hret as [->|(j & Hj & ->)]; [lia|].
    pose proof (Z.pow_le_mono_r 2 j 63 ltac:(lia) ltac:(lia)). lia. }
  destruct (Z.ltb_spec ret bytes); [|lia].
  apply IH. destruct Hret as [->|(j & Hj & ->)]; [left; reflexivity|].
  destruct (Z.eq_dec j 63) as [->|Hne].
  - left. reflexivity.
  - right. exists (j + 1). split; [lia|].
    rewrite pow2_double by lia. unfold wrap64.
    pose proof (Z.pow_le_mono_r 2 (j + 1) 63 ltac:(lia) ltac:(lia)) as Hle.
    rewrite pow2_double in Hle by lia.
    pose proof (Z.pow_pos_nonneg 2 j ltac:(lia) ltac:(lia)).
    assert (2 ^ 63 < 2 ^ 64) by reflexivity.
    rewrite Z.mod_small; lia.
Qed.

(** X5. For a request above [2^63] bytes the loop of [upb_roundup_pow2]
    never ends: [ret] doubles up to [2^63], wraps to 0 and stays below
    the request, whatever the number of rounds. A growth whose total
    (request plus used bytes) exceeds [2^63] therefore never returns. *)
Theorem upb_roundup_pow2_diverges (bytes : Z) (Hbytes : 2 ^ 63 < bytes) :
  (forall fuel, roundup_loop fuel 128 bytes = None) /\
  (forall w, upb_roundup_pow2 bytes w = Timeout) /\
  (forall req w,
     wrap64 (req + (limit w - ptr w)) = bytes ->
     upb_encode_growbuffer req w = Timeout).
Proof.
  assert (Hloop : forall fuel, roundup_loop fuel 128 bytes = None).
  { intros fuel. apply roundup_loop_stuck; [exact Hbytes|].
    right. exists 7. split; [lia|reflexivity]. }
  split; [exact Hloop|]. split.
  - intros w. unfold upb_roundup_pow2. rewrite Hloop. reflexivity.
  - intros req w Hreq.
    unfold upb_encode_growbuffer, bind, get, upb_roundup_pow2.
    rewrite Hreq, Hloop. reflexivity.
Qed.

Lemma upb_roundup_pow2_diverges_witness :
  2 ^ 63 < 2 ^ 63 + 1 /\
  upb_roundup_pow2 (2 ^ 63 + 1)
    (Samples.fresh Samples.zeros Samples.no_arrays) = Timeout.
Proof.
  assert (H : 2 ^ 63 < 2 ^ 63 + 1) by reflexivity.
  split; [exact H|].
  apply (upb_roundup_pow2_diverges (2 ^ 63 + 1) H).
Defined.

(** ** Growth and reservation in a well-formed state *)

Ltac decide_cmp :=
  vm_compute; repeat split; try reflexivity;
  try (let Hc := fresh "Hc" in intro Hc; discriminate Hc).

Lemma load_bytes_ext_u8 (m m' : memory) (n : nat) :
  forall a,
    (forall x, a <= x < a + Z.of_nat n -> load_u8 m' x = load_u8 m x) ->
    load_bytes m' a n = load_bytes m a n.
Proof.
  induction n as [|n IH]; intros a H; cbn [load_bytes]; [reflexivity|].
  f_equal; [apply H; lia|]. apply IH. intros x Hx. apply H. lia.
Qed.

(** [upb_encode_growbuffer] calls the allocator once; a NULL answer
    leaves buffer and memory as they were, any other answer gives a
    buffer of the smallest fitting power-of-two capacity holding the
    old contents at its beginning. *)
Lemma upb_encode_growbuffer_total (bytes : Z) (w : machine)
    (Hwf : well_formed w) (Hbytes : 0 <= bytes)
    (Htotal : bytes + used w <= 2 ^ 63) :
  (alloc w (ncalls w) = 0 ->
   exists w1,
     upb_encode_growbuffer bytes w = Fail w1 /\
     buf w1 = buf w /\ ptr w1 = ptr w /\ limit w1 = limit w /\
     mem w1 = mem w /\ ncalls w1 = S (ncalls w)) /\
  (alloc w (ncalls w) <> 0 ->
   exists w' i,
     upb_encode_growbuffer bytes w = Ok tt w' /\
     ncalls w' = S (ncalls w) /\
     7 <= i <= 63 /\
     buf w' = alloc w (ncalls w) /\ limit w' = buf w' + 2 ^ i /\
     bytes + used w <= 2 ^ i /\ (i = 7 \/ 2 ^ (i - 1) < bytes + used w) /\
     used w' = used w /\ bytes <= ptr w' - buf w' /\
     load_bytes (mem w') (buf w')
       (Z.to_nat (Z.min (limit w - buf w) (2 ^ i)))
     = load_bytes (mem w) (buf w)
         (Z.to_nat (Z.min (limit w - buf w) (2 ^ i))) /\
     forall a, a < buf w' \/ buf w' + (limit w - buf w) <= a ->
       load_u8 (mem w') a = load_u8 (mem w) a).
Proof.
  destruct Hwf as ((Hbp & Hpl) & Hsz).
  assert (Hreq : wrap64 (bytes + (limit w - ptr w)) = bytes + used w).
  { unfold wrap64, used. assert (2 ^ 63 < 2 ^ 64) by reflexivity.
    unfold used in Htotal. apply Z.mod_small. lia. }
  assert (Hold : wrap64 (limit w - buf w) = limit w - buf w)
    by (apply Z.mod_small; lia).
  destruct (roundup_loop_spec 64 7 (bytes + used w) ltac:(lia)
              ltac:(simpl; lia) Htotal ltac:(left; reflexivity))
    as (i & Hi & E & Hle & Hmin).
  change (2 ^ 7) with 128 in E.
  split.
  - intros Hz.
    unfold upb_encode_growbuffer, bind, get, upb_roundup_pow2.
    rewrite Hreq, E. unfold ret, upb_env_realloc. rewrite Hz.
    cbn [Z.eqb negb CHK]. eexists. split; [reflexivity|].
    cbn [buf ptr limit mem ncalls with_ncalls]. repeat split.
  - intros Hnz.
    pose proof (upb_encode_growbuffer_memory bytes w) as Hmem.
    unfold upb_encode_growbuffer, bind, get, upb_roundup_pow2 in *.
    rewrite Hreq, E in *. unfold ret, upb_env_realloc in *.
    destruct (Z.eqb_spec (alloc w (ncalls w)) 0) as [|_]; [contradiction|].
    unfold CHK in *.
    destruct (Z.eqb_spec (alloc w (ncalls w)) 0) as [|_]; [contradiction|].
    cbn [negb] in *.
    unfold memmove, set_mem, set_ptr, set_limit, set_buf, bind, get in *.
    eexists. exists i. split; [reflexivity|].
    specialize (Hmem _ ltac:(lia) eq_refl).
    destruct Hmem as (Hu & _ & Hout).
    cbn [mem buf ptr limit ncalls with_mem with_ptr with_buf with_limit
         with_ncalls] in *.
    split; [reflexivity|]. split; [lia|]. split; [reflexivity|].
    split; [reflexivity|]. split; [exact Hle|]. split; [exact Hmin|].
    split; [exact Hu|]. split; [unfold used in *; lia|].
    split; [|exact Hout].
    rewrite Hold.
    replace (limit w - (limit w - buf w)) with (buf w) by lia.
    set (n := Z.to_nat (Z.min (limit w - buf w) (2 ^ i))).
    rewrite (load_bytes_ext_u8
               (mem_move (mem w) (alloc w (ncalls w)) (buf w)
                  (Z.min (limit w - buf w) (2 ^ i))))
      by (intros x _; apply self_move).
    unfold mem_move. fold n.
    rewrite <- (load_bytes_length (mem w) n (buf w)) at 2.
    apply load_store_same. apply load_bytes_range.
Qed.

(** X6. [upb_encode_growbuffer] in a well-formed state, for a total of
    at most [2^63] bytes: it calls the allocator once. On a NULL answer
    it returns false and leaves buffer and memory as they were. On any
    other answer [p] it returns true; the new buffer starts at [p], its
    capacity is the smallest power of two that is at least 128 and at
    least the request plus the used bytes, the number of used bytes is
    kept and the request fits below the cursor; the old buffer contents
    are at the beginning of the new region and no byte outside that
    prefix has changed. *)
Theorem upb_encode_growbuffer_spec (bytes : Z) (w : machine)
    (Hwf : well_formed w) (Hbytes : 0 <= bytes)
    (Htotal : bytes + used w <= 2 ^ 63) :
  (alloc w (ncalls w) = 0 ->
   exists w1,
     upb_encode_growbuffer bytes w = Fail w1 /\
     buf w1 = buf w /\ ptr w1 = ptr w /\ limit w1 = limit w /\
     mem w1 = mem w /\ ncalls w1 = S (ncalls w)) /\
  (alloc w (ncalls w) <> 0 ->
   exists w' i,
     upb_encode_growbuffer bytes w = Ok tt w' /\
     ncalls w' = S (ncalls w) /\
     7 <= i <= 63 /\
     buf w' = alloc w (ncalls w) /\ limit w' = buf w' + 2 ^ i /\
     bytes + used w <= 2 ^ i /\ (i = 7 \/ 2 ^ (i - 1) < bytes + used w) /\
     used w' = used w /\ bytes <= ptr w' - buf w' /\
     load_bytes (mem w') (buf w')
       (Z.to_nat (Z.min (limit w - buf w) (2 ^ i)))
     = load_bytes (mem w) (buf w)
         (Z.to_nat (Z.min (limit w - buf w) (2 ^ i))) /\
     forall a, a < buf w' \/ buf w' + (limit w - buf w) <= a ->
       load_u8 (mem w') a = load_u8 (mem w) a).
Proof. exact (upb_encode_growbuffer_total bytes w Hwf Hbytes Htotal). Qed.

Lemma upb_encode_growbuffer_spec_witness :
  let w := Fixtures.midway Samples.zeros Samples.no_arrays 120 in
  well_formed w /\ 0 <= 10 /\ 10 + used w <= 2 ^ 63 /\
  exists w' i,
    upb_encode_growbuffer 10 w = Ok tt w' /\
    buf w' = 131072 /\ limit w' = buf w' + 2 ^ i /\ used w' = 120.
Proof.
  intros w.
  assert (Hwf : well_formed w) by decide_cmp.
  assert (Hb : 0 <= 10) by lia.
  assert (Ht : 10 + used w <= 2 ^ 63) by decide_cmp.
  split; [exact Hwf|]. split; [exact Hb|]. split; [exact Ht|].
  destruct (upb_encode_growbuffer_spec 10 w Hwf Hb Ht) as [_ Hok].
  destruct (Hok ltac:(decide_cmp))
    as (w' & i & E & _ & _ & Hbuf & Hlim & _ & _ & Hu & _).
  exists w', i. split; [exact E|]. split; [exact Hbuf|].
  split; [exact Hlim|exact Hu].
Defined.

(** X7. [upb_encode_reserve] keeps the encoder state well-formed, on
    both of its paths, as long as the total stays within [2^63] bytes:
    after a successful reservation the cursor is inside the buffer with
    the reserved bytes between it and the written output. Either the
    allocator was not called and the buffer is the same, or it was
    called once and the capacity is a strictly larger power of two. *)
Theorem upb_encode_reserve_well_formed (bytes : Z) (w w' : machine)
    (Hwf : well_formed w) (Hbytes : 0 <= bytes)
    (Htotal : bytes + used w <= 2 ^ 63)
    (Hrun : upb_encode_reserve bytes w = Ok tt w') :
  well_formed w' /\ used w' = used w + bytes /\
  ((ncalls w' = ncalls w /\ buf w' = buf w /\ limit w' = limit w /\
    mem w' = mem w)
   \/
   (ncalls w' = S (ncalls w) /\
    limit w - buf w < limit w' - buf w' /\
    exists i, 7 <= i <= 63 /\ limit w' - buf w' = 2 ^ i)).
Proof.
  pose proof Hwf as ((Hbp & Hpl) & Hsz).
  unfold upb_encode_reserve, bind, get in Hrun.
  destruct (Z.leb_spec bytes (wrap64 (ptr w - buf w))) as [Hroom|Hfull].
  - cbv [ret set_ptr] in Hrun. inversion Hrun. subst w'. clear Hrun.
    unfold wrap64 in Hroom. rewrite Z.mod_small in Hroom by lia.
    unfold well_formed, used. cbn [buf ptr limit mem ncalls with_ptr].
    split; [lia|]. split; [lia|]. left. repeat split.
  - unfold wrap64 in Hfull. rewrite Z.mod_small in Hfull by lia.
    destruct (upb_encode_growbuffer_total bytes w Hwf Hbytes Htotal)
      as [Hfail Hok].
    destruct (Z.eq_dec (alloc w (ncalls w)) 0) as [Hz|Hnz].
    + destruct (Hfail Hz) as (w1 & E & _). rewrite E in Hrun. discriminate.
    + destruct (Hok Hnz)
        as (w1 & i & E & Hn & Hi & Hbuf & Hlim & Hle & _ & Hu & Hfit & _).
      rewrite E in Hrun. cbv [set_ptr] in Hrun. inversion Hrun. subst w'.
      clear Hrun.
      assert (2 ^ 63 < 2 ^ 64) by reflexivity.
      pose proof (Z.pow_le_mono_r 2 i 63 ltac:(lia) ltac:(lia)) as Hcap.
      unfold well_formed, used in *.
      cbn [buf ptr limit mem ncalls with_ptr].
      split; [lia|]. split; [lia|]. right.
      split; [exact Hn|]. split; [lia|].
      exists i. split; [exact Hi|lia].
Qed.

Lemma upb_encode_reserve_well_formed_witness :
  let w := Fixtures.midway Samples.zeros Samples.no_arrays 120 in
  let w' := final_state (upb_encode_reserve 10 w) w in
  well_formed w /\ upb_encode_reserve 10 w = Ok tt w' /\
  well_formed w' /\ used w' = 130 /\ limit w' - buf w' = 256.
Proof.
  intros w w'.
  assert (Hwf : well_formed w) by decide_cmp.
  assert (Ht : 10 + used w <= 2 ^ 63) by decide_cmp.
  assert (E : upb_encode_reserve 10 w = Ok tt w')
    by (apply returns_final; vm_compute; reflexivity).
  split; [exact Hwf|]. split; [exact E|].
  destruct (upb_encode_reserve_well_formed 10 w w' Hwf ltac:(lia) Ht E)
    as (Hwf' & Hu & _).
  split; [exact Hwf'|]. split; [exact Hu|]. vm_compute. reflexivity.
Defined.

(** ** What the write primitives put into the output *)

Lemma wrap64_well_formed (w : machine) :
  well_formed w -> wrap64 (ptr w - buf w) = ptr w - buf w.
Proof.
  intros ((Hbp & Hpl) & Hsz). unfold wrap64. apply Z.mod_small. lia.
Qed.

Lemma upb_put_varint_quiet (val : Z) (w w' : machine) :
  upb_put_varint val w = Ok tt w' -> ncalls w' = ncalls w ->
  UPB_PB_VARINT_MAX_LEN <= wrap64 (ptr w - buf w).
Proof.
  intros E Hn.
  pose proof (upb_put_varint_after_reserve val w) as Hafter.
  pose proof (upb_encode_reserve_cases UPB_PB_VARINT_MAX_LEN w) as Hres.
  rewrite E in Hafter.
  destruct (upb_encode_reserve UPB_PB_VARINT_MAX_LEN w) as [u w1|w1| |];
    try contradiction.
  destruct Hafter as (_ & Hn1 & _).
  destruct Hres as (_ & _ & [(_ & Hroom & _)|Hgrown]); [exact Hroom|lia].
Qed.

Lemma upb_put_bytes_quiet (data : data_ptr) (len : Z) (w w' : machine) :
  0 <= len ->
  upb_put_bytes data len w = Ok tt w' -> ncalls w' = ncalls w ->
  len <= wrap64 (ptr w - buf w).
Proof.
  intros Hlen E Hn.
  pose proof (upb_put_bytes_after_reserve data len w Hlen) as Hafter.
  pose proof (upb_encode_reserve_cases len w) as Hres.
  rewrite E in Hafter.
  destruct (upb_encode_reserve len w) as [u w1|w1| |]; try contradiction.
  destruct Hafter as (_ & Hn1 & _).
  destruct Hres as (_ & _ & [(_ & Hroom & _)|Hgrown]); [exact Hroom|lia].
Qed.

Lemma outputs_put_varint (val : Z) :
  0 <= val -> outputs (upb_put_varint val) (fun _ => upb_encode_varint val).
Proof.
  intros Hval w w' Hwf E Hn.
  pose proof (upb_put_varint_quiet val w w' E Hn) as Hroom.
  rewrite wrap64_well_formed in Hroom by exact Hwf.
  destruct (upb_put_varint_output val w Hwf Hroom Hval)
    as (w2 & E2 & _ & _ & _ & Hout).
  rewrite E in E2. inversion E2. subst w2. exact Hout.
Qed.

Lemma outputs_put_tag (fn wt : Z) :
  outputs (upb_put_tag fn wt)
    (fun _ => upb_encode_varint (tag_value fn wt)).
Proof. apply outputs_put_varint. apply wrap64_range. Qed.

Lemma read_data_exact (m : memory) (data : data_ptr) (len : Z) :
  exact_data data len ->
  Z.of_nat (length (read_data m data len)) = len /\
  Forall (fun b => 0 <= b < 256) (read_data m data len).
Proof.
  destruct data as [a|bs]; cbn [exact_data read_data].
  - intros Hlen. rewrite load_bytes_length. split; [lia|].
    apply load_bytes_range.
  - intros [Hlen Hbs]. rewrite firstn_all2 by lia. split; assumption.
Qed.

Lemma outputs_put_bytes (data : data_ptr) (len : Z) :
  exact_data data len ->
  outputs (upb_put_bytes data len) (fun w => read_data (mem w) data len).
Proof.
  intros Hdata w w' Hwf E Hn.
  destruct (read_data_exact (mem w) data len Hdata) as [Hlen Hbytes].
  assert (Hpos : 0 <= len) by lia.
  pose proof (upb_put_bytes_quiet data len w w' Hpos E Hn) as Hroom.
  destruct (upb_put_bytes_room data len w ltac:(lia))
    as (w2 & E2 & (_ & _ & Hp & _) & _ & Hmem).
  rewrite E in E2. inversion E2. subst w2.
  pose proof (adds_grew _ _ _ _ _ (adds_put_bytes data len Hpos) E)
    as (_ & _ & _ & Hext).
  specialize (Hext Hn).
  destruct Hwf as ((Hbp & Hpl) & Hsz).
  rewrite (extended_output w w' Hext) by lia.
  f_equal. rewrite Hp, Hmem.
  replace (Z.to_nat (ptr w - (ptr w - len)))
    with (length (read_data (mem w) data len)) by lia.
  apply load_store_same. exact Hbytes.
Qed.

Lemma outputs_seq (c1 c2 : M unit) (b1 : machine -> list Z) (b2 : list Z) :
  adds 0 c1 -> adds 0 c2 ->
  outputs c1 b1 -> outputs c2 (fun _ => b2) ->
  outputs (c1 ;; c2) (fun w => b2 ++ b1 w).
Proof.
  intros Ha1 Ha2 Ho1 Ho2 w w' Hwf E Hn.
  apply bind_ok in E. destruct E as ([] & w1 & E1 & E2).
  pose proof (adds_grew _ _ _ _ _ Ha1 E1) as (_ & _ & Hn1 & Hext1).
  pose proof (adds_grew _ _ _ _ _ Ha2 E2) as (_ & _ & Hn2 & _).
  assert (Hq1 : ncalls w1 = ncalls w) by lia.
  destruct (Hext1 Hq1) as (_ & _ & _ & _ & Hw1).
  destruct (Hw1 Hwf) as [Hwf1 _].
  rewrite (Ho2 w1 w' Hwf1 E2 ltac:(lia)), (Ho1 w w1 Hwf E1 Hq1).
  rewrite app_assoc. reflexivity.
Qed.

Lemma le_bytes_length (n : nat) : forall v, length (le_bytes n v) = n.
Proof.
  induction n as [|n IH]; intros v; cbn [le_bytes length]; [reflexivity|].
  rewrite IH. reflexivity.
Qed.

Lemma le_bytes_range (n : nat) :
  forall v, Forall (fun b => 0 <= b < 256) (le_bytes n v).
Proof.
  induction n as [|n IH]; intros v; cbn [le_bytes]; constructor.
  - apply Z.mod_pos_bound. lia.
  - apply IH.
Qed.

Lemma le_value_le_bytes (n : nat) :
  forall v, le_value (le_bytes n v) = v mod 256 ^ Z.of_nat n.
Proof.
  induction n as [|n IH]; intros v.
  - cbn [le_bytes le_value]. simpl. rewrite Z.mod_1_r. reflexivity.
  - cbn [le_bytes le_value]. rewrite IH.
    rewrite Nat2Z.inj_succ, Z.pow_succ_r by lia.
    pose proof (Z.pow_pos_nonneg 256 (Z.of_nat n) ltac:(lia) ltac:(lia)).
    rewrite Z.rem_mul_r by lia. reflexivity.
Qed.

Lemma exact_local (n : nat) (v : Z) :
  exact_data (Local (le_bytes n v)) (Z.of_nat n).
Proof.
  cbn [exact_data]. rewrite le_bytes_length.
  split; [reflexivity|apply le_bytes_range].
Qed.

Lemma outputs_put_fixed64 (val : Z) :
  outputs (upb_put_fixed64 val) (fun _ => le_bytes 8 val).
Proof.
  intros w w' Hwf E Hn.
  rewrite (outputs_put_bytes _ _ (exact_local 8 val) w w' Hwf E Hn).
  cbn [read_data]. rewrite firstn_all2 by (rewrite le_bytes_length; lia).
  reflexivity.
Qed.

Lemma outputs_put_fixed32 (val : Z) :
  outputs (upb_put_fixed32 val) (fun _ => le_bytes 4 val).
Proof.
  intros w w' Hwf E Hn.
  rewrite (outputs_put_bytes _ _ (exact_local 4 val) w w' Hwf E Hn).
  cbn [read_data]. rewrite firstn_all2 by (rewrite le_bytes_length; lia).
  reflexivity.
Qed.

(** X8. When the allocator is not called, [upb_put_varint] puts exactly
    the varint of its value in front of the output of a well-formed
    state - the bytes it shifted up from the ten it reserved - and the
    state stays well-formed; read back, those bytes give the value. *)
Theorem upb_put_varint_prepends (val : Z) (w w' : machine)
    (Hwf : well_formed w) (Hval : is_u64 val)
    (Hrun : upb_put_varint val w = Ok tt w')
    (Hquiet : ncalls w' = ncalls w) :
  output w' = upb_encode_varint val ++ output w /\
  well_formed w' /\
  varint_value (firstn (length (upb_encode_varint val)) (output w')) = val.
Proof.
  unfold is_u64 in Hval.
  pose proof (outputs_put_varint val ltac:(lia) w w' Hwf Hrun Hquiet) as Hout.
  split; [exact Hout|]. split.
  - pose proof (adds_grew _ _ _ _ _ (adds_put_varint val) Hrun)
      as (_ & _ & _ & Hext).
    destruct (Hext Hquiet) as (_ & _ & _ & _ & Hw). apply Hw. exact Hwf.
  - rewrite Hout, firstn_app, Nat.sub_diag, firstn_all. cbn [firstn].
    rewrite app_nil_r.
    destruct (Z.eq_dec val 0) as [->|Hnz]; [reflexivity|].
    rewrite upb_encode_varint_loop by lia.
    apply varint_loop_props. change (128 ^ Z.of_nat 10) with (2 ^ 70).
    assert (2 ^ 64 < 2 ^ 70) by reflexivity. lia.
Qed.

Lemma upb_put_varint_prepends_witness :
  let w := Fixtures.midway Samples.zeros Samples.no_arrays 0 in
  let w' := final_state (upb_put_varint 300 w) w in
  well_formed w /\ is_u64 300 /\
  upb_put_varint 300 w = Ok tt w' /\ ncalls w' = ncalls w /\
  output w' = [172; 2] ++ output w.
Proof.
  intros w w'.
  assert (Hwf : well_formed w) by decide_cmp.
  assert (Hv : is_u64 300) by (unfold is_u64; lia).
  assert (E : upb_put_varint 300 w = Ok tt w')
    by (apply returns_final; vm_compute; reflexivity).
  assert (Hq : ncalls w' = ncalls w) by (vm_compute; reflexivity).
  split; [exact Hwf|]. split; [exact Hv|]. split; [exact E|].
  split; [exact Hq|].
  apply (upb_put_varint_prepends 300 w w' Hwf Hv E Hq).
Defined.

(** X9. When the allocator is not called, [upb_put_fixed64] and
    [upb_put_fixed32] put the eight, respectively four, little-endian
    bytes of their value in front of the output of a well-formed state,
    and [upb_put_bytes] puts the [len] source bytes as they were when it
    was called; the little-endian bytes read back as the value modulo
    [2^64], respectively [2^32]. *)
Theorem upb_put_fixed_prepends (val : Z) (w : machine)
    (Hwf : well_formed w) :
  (forall w', upb_put_fixed64 val w = Ok tt w' -> ncalls w' = ncalls w ->
     output w' = le_bytes 8 val ++ output w) /\
  (forall w', upb_put_fixed32 val w = Ok tt w' -> ncalls w' = ncalls w ->
     output w' = le_bytes 4 val ++ output w) /\
  (forall data len w',
     0 <= len ->
     upb_put_bytes (InMem data) len w = Ok tt w' -> ncalls w' = ncalls w ->
     output w' = load_bytes (mem w) data (Z.to_nat len) ++ output w) /\
  le_value (le_bytes 8 val) = val mod 2 ^ 64 /\
  le_value (le_bytes 4 val) = val mod 2 ^ 32.
Proof.
  split; [|split; [|split; [|split]]].
  - intros w' E Hn. apply (outputs_put_fixed64 val w w' Hwf E Hn).
  - intros w' E Hn. apply (outputs_put_fixed32 val w w' Hwf E Hn).
  - intros data len w' Hlen E Hn.
    apply (outputs_put_bytes (InMem data) len Hlen w w' Hwf E Hn).
  - apply (le_value_le_bytes 8).
  - apply (le_value_le_bytes 4).
Qed.

Lemma upb_put_fixed_prepends_witness :
  let w := Fixtures.midway Samples.zeros Samples.no_arrays 0 in
  let w' := final_state (upb_put_fixed32 258 w) w in
  well_formed w /\
  upb_put_fixed32 258 w = Ok tt w' /\
  output w' = [2; 1; 0; 0] ++ output w.
Proof.
  intros w w'.
  assert (Hwf : well_formed w) by decide_cmp.
  assert (E : upb_put_fixed32 258 w = Ok tt w')
    by (apply returns_final; vm_compute; reflexivity).
  split; [exact Hwf|]. split; [exact E|].
  destruct (upb_put_fixed_prepends 258 w Hwf) as (_ & H32 & _).
  apply (H32 w' E). vm_compute. reflexivity.
Defined.

(** ** Wire records of singular fields *)

Lemma record_varint (val fn wt : Z) :
  0 <= val ->
  outputs (upb_put_varint val ;; upb_put_tag fn wt)
    (fun _ => upb_encode_varint (tag_value fn wt) ++ upb_encode_varint val).
Proof.
  intros Hval.
  apply (outputs_seq _ _ (fun _ => upb_encode_varint val)).
  - apply adds0_put_varint.
  - apply adds0_put_tag.
  - apply outputs_put_varint. exact Hval.
  - apply outputs_put_tag.
Qed.

Lemma record_fixed64 (val fn wt : Z) :
  outputs (upb_put_fixed64 val ;; upb_put_tag fn wt)
    (fun _ => upb_encode_varint (tag_value fn wt) ++ le_bytes 8 val).
Proof.
  apply (outputs_seq _ _ (fun _ => le_bytes 8 val)).
  - apply adds_put_fixed64.
  - apply adds0_put_tag.
  - apply outputs_put_fixed64.
  - apply outputs_put_tag.
Qed.

Lemma record_fixed32 (val fn wt : Z) :
  outputs (upb_put_fixed32 val ;; upb_put_tag fn wt)
    (fun _ => upb_encode_varint (tag_value fn wt) ++ le_bytes 4 val).
Proof.
  apply (outputs_seq _ _ (fun _ => le_bytes 4 val)).
  - apply adds_put_fixed32.
  - apply adds0_put_tag.
  - apply outputs_put_fixed32.
  - apply outputs_put_tag.
Qed.

Lemma record_string (data size fn wt : Z) :
  0 <= size ->
  outputs (upb_put_bytes (InMem data) size ;;
           upb_put_varint size ;; upb_put_tag fn wt)
    (fun w => upb_encode_varint (tag_value fn wt)
              ++ upb_encode_varint size
              ++ load_bytes (mem w) data (Z.to_nat size)).
Proof.
  intros Hsize w w' Hwf E Hn.
  assert (Hrest : adds 0 (upb_put_varint size ;; upb_put_tag fn wt))
    by adds0.
  rewrite (outputs_seq _ _
             (fun w => load_bytes (mem w) data (Z.to_nat size))
             (upb_encode_varint (tag_value fn wt) ++ upb_encode_varint size)
             (adds0_put_bytes _ _ Hsize)
             Hrest
             (outputs_put_bytes (InMem data) size Hsize)
             (record_varint size fn wt Hsize)
             w w' Hwf E Hn).
  rewrite <- !app_assoc. reflexivity.
Qed.

Lemma upb_zzencode_32_nonneg (n : Z) : 0 <= upb_zzencode_32 n.
Proof. unfold upb_zzencode_32, wrap32. apply Z.mod_pos_bound. reflexivity. Qed.

Lemma upb_zzencode_64_nonneg (n : Z) : 0 <= upb_zzencode_64 n.
Proof. unfold upb_zzencode_64, wrap64. apply Z.mod_pos_bound. reflexivity. Qed.

(** X10. When the allocator is not called, a singular field that is
    neither a message nor a group, and that is not elided, is written in
    front of the output as its wire record: the tag, then the value
    (varint, zigzag varint, little-endian fixed-width bytes, or length
    and bytes of a string) - tag first when read forward, although the
    value is written first. *)
Theorem scalar_field_record
    (layouts : list upb_msglayout_msginit_v1)
    (rec : Z -> upb_msglayout_msginit_v1 -> Z -> M Z)
    (field_mem : Z) (m : upb_msglayout_msginit_v1)
    (f : upb_msglayout_fieldinit_v1) (is_proto3 : bool)
    (w w' : machine) (r : list Z)
    (Hwf : well_formed w)
    (Hrecord : scalar_record (mem w) field_mem f = Some r)
    (Hkept : elided (mem w) field_mem f is_proto3 = false)
    (Hrun : upb_encode_scalarfield layouts rec field_mem m f is_proto3 w
            = Ok tt w')
    (Hquiet : ncalls w' = ncalls w) :
  output w' = r ++ output w.
Proof.
  unfold upb_encode_scalarfield in Hrun.
  unfold bind at 1 in Hrun. unfold get at 1 in Hrun.
  unfold elided in Hkept. unfold scalar_record in Hrecord.
  destruct (type f); cbn [zero_valued] in Hkept;
    try discriminate Hrecord;
    inversion Hrecord; subst r; clear Hrecord;
    unfold CASE in Hrun;
    rewrite ?double_is_zero_spec, ?float_is_zero_spec, ?load_bool_zero,
      ?(signed_zero 32), ?(signed_zero 64) in Hrun
      by first [lia | apply load_u32_range | apply load_u64_range];
    rewrite Hkept in Hrun.
  - exact (record_fixed64 _ _ _ w w' Hwf Hrun Hquiet).
  - exact (record_fixed32 _ _ _ w w' Hwf Hrun Hquiet).
  - exact (record_varint _ _ _ (proj1 (load_u64_range _ _))
             w w' Hwf Hrun Hquiet).
  - exact (record_varint _ _ _ (proj1 (load_u64_range _ _))
             w w' Hwf Hrun Hquiet).
  - exact (record_varint _ _ _ (proj1 (load_u32_range _ _))
             w w' Hwf Hrun Hquiet).
  - exact (record_fixed64 _ _ _ w w' Hwf Hrun Hquiet).
  - exact (record_fixed32 _ _ _ w w' Hwf Hrun Hquiet).
  - exact (record_varint _ _ _ (load_bool_nonneg _ _) w w' Hwf Hrun Hquiet).
  - exact (record_string _ _ _ _ (proj1 (load_u64_range _ _))
             w w' Hwf Hrun Hquiet).
  - exact (record_string _ _ _ _ (proj1 (load_u64_range _ _))
             w w' Hwf Hrun Hquiet).
  - exact (record_varint _ _ _ (proj1 (load_u32_range _ _))
             w w' Hwf Hrun Hquiet).
  - exact (record_varint _ _ _ (proj1 (load_u32_range _ _))
             w w' Hwf Hrun Hquiet).
  - exact (record_fixed32 _ _ _ w w' Hwf Hrun Hquiet).
  - exact (record_fixed64 _ _ _ w w' Hwf Hrun Hquiet).
  - exact (record_varint _ _ _ (upb_zzencode_32_nonneg _)
             w w' Hwf Hrun Hquiet).
  - exact (record_varint _ _ _ (upb_zzencode_64_nonneg _)
             w w' Hwf Hrun Hquiet).
Qed.

Lemma scalar_field_record_witness :
  let w := Fixtures.midway Samples.three_mem Samples.no_arrays 0 in
  let f := Samples.field 2 4 UPB_DESCRIPTOR_TYPE_INT32 UPB_LABEL_OPTIONAL in
  let run :=
    upb_encode_scalarfield [] (fun _ _ _ => ret 0) 1004 Samples.Three f true in
  let w' := final_state (run w) w in
  well_formed w /\
  scalar_record (mem w) 1004 f = Some [16; 20] /\
  elided (mem w) 1004 f true = false /\
  run w = Ok tt w' /\ ncalls w' = ncalls w /\
  output w' = [16; 20] ++ output w.
Proof.
  intros w f run w'.
  assert (Hwf : well_formed w) by decide_cmp.
  assert (Hr : scalar_record (mem w) 1004 f = Some [16; 20])
    by (vm_compute; reflexivity).
  assert (Hk : elided (mem w) 1004 f true = false)
    by (vm_compute; reflexivity).
  assert (E : run w = Ok tt w')
    by (apply returns_final; vm_compute; reflexivity).
  assert (Hq : ncalls w' = ncalls w) by (vm_compute; reflexivity).
  split; [exact Hwf|]. split; [exact Hr|]. split; [exact Hk|].
  split; [exact E|]. split; [exact Hq|].
  apply (scalar_field_record [] (fun _ _ _ => ret 0) 1004 Samples.Three f true
           w w' [16; 20] Hwf Hr Hk E Hq).
Defined.

Lemma submsg_layout_ok (layouts : list upb_msglayout_msginit_v1)
    (m : upb_msglayout_msginit_v1) (f : upb_msglayout_fieldinit_v1)
    (w : machine) (subm : upb_msglayout_msginit_v1) (w0 : machine) :
  submsg_layout layouts m f w = Ok subm w0 -> w0 = w.
Proof.
  unfold submsg_layout.
  destruct (nth_error (submsgs m) (submsg_index f)) as [r|];
    [|discriminate].
  destruct (nth_error layouts r) as [s|]; [|discriminate].
  unfold ret. intros E. inversion E. reflexivity.
Qed.

(** X11. A singular message field whose pointer is not null, encoded
    without a call of the allocator from a well-formed state: the
    submessage is encoded first, into bytes [body] put in front of the
    output; the size it reports is the length of [body]; and the field
    is, read forward, the tag with wire type 2, the varint of that
    length, and [body]. *)
Theorem message_field_record
    (layouts : list upb_msglayout_msginit_v1) (k : nat)
    (field_mem : Z) (m : upb_msglayout_msginit_v1)
    (f : upb_msglayout_fieldinit_v1) (is_proto3 : bool)
    (w w' : machine)
    (Htype : type f = UPB_DESCRIPTOR_TYPE_MESSAGE)
    (Hwf : well_formed w)
    (Hsub : load_u64 (mem w) field_mem <> 0)
    (Hrun : upb_encode_scalarfield layouts (upb_encode_message layouts k)
              field_mem m f is_proto3 w = Ok tt w')
    (Hquiet : ncalls w' = ncalls w) :
  exists subm size body,
    submsg_layout layouts m f w = Ok subm w /\
    (exists w1,
       upb_encode_message layouts k (load_u64 (mem w) field_mem) subm
         (junk w) w = Ok size w1 /\
       output w1 = body ++ output w) /\
    size = Z.of_nat (length body) /\
    output w' =
      upb_encode_varint
        (tag_value (signed32 (number f)) UPB_WIRE_TYPE_DELIMITED)
      ++ upb_encode_varint size ++ body ++ output w.
Proof.
  unfold upb_encode_scalarfield in Hrun.
  unfold bind at 1 in Hrun. unfold get at 1 in Hrun.
  rewrite Htype in Hrun.
  apply bind_ok in Hrun. destruct Hrun as (subm & w0 & Esub & Hrun).
  pose proof (submsg_layout_ok _ _ _ _ _ _ Esub) as ->.
  destruct (Z.eqb_spec (load_u64 (mem w) field_mem) 0) as [Hz|_];
    [contradiction|].
  rewrite andb_false_r in Hrun.
  apply bind_ok in Hrun. destruct Hrun as (size & w1 & Erec & Hrest).
  pose proof (adds_grew _ _ _ _ _
                (adds_upb_encode_message layouts k _ _ _) Erec) as G1.
  assert (Hadd : adds 0 (upb_put_varint size ;;
                         upb_put_tag (signed32 (number f))
                           UPB_WIRE_TYPE_DELIMITED)) by adds0.
  pose proof (adds_grew _ _ _ _ _ Hadd Hrest) as G2.
  assert (Hn1 : ncalls w1 = ncalls w).
  { destruct G1 as (_ & _ & Hle1 & _). destruct G2 as (_ & _ & Hle2 & _).
    lia. }
  assert (Hn2 : ncalls w' = ncalls w1) by congruence.
  destruct (upb_encode_message_size _ _ _ _ _ _ _ _ Hsub Erec Hn1)
    as (Hext & _ & Hs).
  destruct (Hs Hwf) as [Hsz Hpos].
  pose proof Hext as (Hb & Hl & Hp & _ & Hw1).
  destruct (Hw1 Hwf) as [Hwf1 _].
  pose proof Hwf as ((_ & Hpl) & _).
  exists subm, size,
    (load_bytes (mem w1) (ptr w1) (Z.to_nat (ptr w - ptr w1))).
  split; [exact Esub|]. split.
  - exists w1. split; [exact Erec|]. apply extended_output; assumption.
  - split.
    + rewrite load_bytes_length. unfold used in Hsz. lia.
    + rewrite (record_varint size _ _ Hpos w1 w' Hwf1 Hrest Hn2).
      rewrite (extended_output w w1 Hext Hpl).
      rewrite <- !app_assoc. reflexivity.
Qed.

Lemma message_field_record_witness :
  let w := Fixtures.midway Samples.nested_mem Samples.no_arrays 0 in
  let f := Samples.field 1 0 UPB_DESCRIPTOR_TYPE_MESSAGE UPB_LABEL_OPTIONAL in
  let run :=
    upb_encode_scalarfield Samples.nested_layouts
      (upb_encode_message Samples.nested_layouts 1) 1000 Samples.Outer f true in
  let w' := final_state (run w) w in
  (well_formed w /\ load_u64 (mem w) 1000 <> 0 /\
   run w = Ok tt w' /\ ncalls w' = ncalls w) /\
  output w' = [10; 2; 8; 5] /\
  exists subm size body,
    submsg_layout Samples.nested_layouts Samples.Outer f w = Ok subm w /\
    (exists w1,
       upb_encode_message Samples.nested_layouts 1 (load_u64 (mem w) 1000)
         subm (junk w) w = Ok size w1 /\
       output w1 = body ++ output w) /\
    size = Z.of_nat (length body) /\
    output w' =
      upb_encode_varint
        (tag_value (signed32 (number f)) UPB_WIRE_TYPE_DELIMITED)
      ++ upb_encode_varint size ++ body ++ output w.
Proof.
  intros w f run w'.
  assert (Hwf : well_formed w) by decide_cmp.
  assert (Hs : load_u64 (mem w) 1000 <> 0) by decide_cmp.
  assert (E : run w = Ok tt w')
    by (apply returns_final; vm_compute; reflexivity).
  assert (Hq : ncalls w' = ncalls w) by (vm_compute; reflexivity).
  split; [split; [exact Hwf|split; [exact Hs|split; [exact E|exact Hq]]]|].
  split; [vm_compute; reflexivity|].
  exact (message_field_record Samples.nested_layouts 1 1000 Samples.Outer f
           true w w' eq_refl Hwf Hs E Hq).
Defined.

(** X12. A singular group field that is not elided, encoded without a
    call of the allocator from a well-formed state: the end-group tag is
    written first, then the group's fields in front of it, then the
    start-group tag; read forward, the field is the start-group tag, the
    body and the end-group tag, both tags carrying the field number. A
    null group pointer gives an empty body. *)
Theorem group_field_record
    (layouts : list upb_msglayout_msginit_v1) (k : nat)
    (field_mem : Z) (m : upb_msglayout_msginit_v1)
    (f : upb_msglayout_fieldinit_v1) (is_proto3 : bool)
    (w w' : machine)
    (Htype : type f = UPB_DESCRIPTOR_TYPE_GROUP)
    (Hwf : well_formed w)
    (Hkept : elided (mem w) field_mem f is_proto3 = false)
    (Hrun : upb_encode_scalarfield layouts (upb_encode_message layouts k)
              field_mem m f is_proto3 w = Ok tt w')
    (Hquiet : ncalls w' = ncalls w) :
  exists subm size body w1 w2,
    submsg_layout layouts m f w = Ok subm w /\
    upb_put_tag (signed32 (number f)) UPB_WIRE_TYPE_END_GROUP w = Ok tt w1 /\
    upb_encode_message layouts k (load_u64 (mem w) field_mem) subm
      (junk w) w1 = Ok size w2 /\
    output w2 = body ++ output w1 /\
    (load_u64 (mem w) field_mem = 0 -> body = []) /\
    output w' =
      upb_encode_varint
        (tag_value (signed32 (number f)) UPB_WIRE_TYPE_START_GROUP)
      ++ body
      ++ upb_encode_varint
           (tag_value (signed32 (number f)) UPB_WIRE_TYPE_END_GROUP)
      ++ output w.
Proof.
  unfold upb_encode_scalarfield in Hrun.
  unfold bind at 1 in Hrun. unfold get at 1 in Hrun.
  unfold elided in Hkept.
  rewrite Htype in Hrun, Hkept. cbn [zero_valued] in Hkept.
  apply bind_ok in Hrun. destruct Hrun as (subm & w0 & Esub & Hrun).
  pose proof (submsg_layout_ok _ _ _ _ _ _ Esub) as ->.
  rewrite Hkept in Hrun.
  apply bind_ok in Hrun. destruct Hrun as ([] & w1 & Eend & Hrun).
  apply bind_ok in Hrun. destruct Hrun as (size & w2 & Erec & Estart).
  pose proof (adds_grew _ _ _ _ _ (adds0_put_tag _ _) Eend) as G1.
  pose proof (adds_grew _ _ _ _ _
                (adds_upb_encode_message layouts k _ _ _) Erec) as G2.
  pose proof (adds_grew _ _ _ _ _ (adds0_put_tag _ _) Estart) as G3.
  assert (Hn : ncalls w1 = ncalls w /\ ncalls w2 = ncalls w1
               /\ ncalls w' = ncalls w2).
  { destruct G1 as (_ & _ & Hle1 & _). destruct G2 as (_ & _ & Hle2 & _).
    destruct G3 as (_ & _ & Hle3 & _). lia. }
  destruct Hn as (Hn1 & Hn2 & Hn3).
  assert (Hext1 : extended w w1) by (apply G1; exact Hn1).
  assert (Hext2 : extended w1 w2) by (apply G2; exact Hn2).
  destruct Hext1 as (_ & _ & _ & _ & Hw1).
  destruct (Hw1 Hwf) as [Hwf1 _].
  pose proof Hext2 as (_ & _ & _ & _ & Hw2).
  destruct (Hw2 Hwf1) as [Hwf2 _].
  pose proof Hwf1 as ((_ & Hpl1) & _).
  exists subm, size,
    (load_bytes (mem w2) (ptr w2) (Z.to_nat (ptr w1 - ptr w2))), w1, w2.
  split; [exact Esub|]. split; [exact Eend|]. split; [exact Erec|].
  split; [apply extended_output; assumption|]. split.
  - intros Hz. rewrite Hz in Erec.
    destruct k as [|k]; cbn [upb_encode_message] in Erec;
      [discriminate Erec|].
    unfold bind, get in Erec. cbn [Z.eqb] in Erec. unfold ret in Erec.
    inversion Erec. subst w2. rewrite Z.sub_diag. reflexivity.
  - rewrite (outputs_put_tag _ _ w2 w' Hwf2 Estart Hn3).
    rewrite (extended_output w1 w2 Hext2 Hpl1).
    rewrite (outputs_put_tag _ _ w w1 Hwf Eend Hn1).
    reflexivity.
Qed.

Lemma group_field_record_witness :
  let w := Fixtures.midway Samples.nested_mem Samples.no_arrays 0 in
  let f := Fixtures.group_field in
  let run :=
    upb_encode_scalarfield Fixtures.holder_layouts
      (upb_encode_message Fixtures.holder_layouts 1) 1000 Fixtures.Holder f
      false in
  let w' := final_state (run w) w in
  (well_formed w /\ elided (mem w) 1000 f false = false /\
   run w = Ok tt w' /\ ncalls w' = ncalls w) /\
  output w' = [11; 8; 5; 12] /\
  exists subm size body w1 w2,
    submsg_layout Fixtures.holder_layouts Fixtures.Holder f w = Ok subm w /\
    upb_put_tag (signed32 (number f)) UPB_WIRE_TYPE_END_GROUP w = Ok tt w1 /\
    upb_encode_message Fixtures.holder_layouts 1 (load_u64 (mem w) 1000) subm
      (junk w) w1 = Ok size w2 /\
    output w2 = body ++ output w1 /\
    (load_u64 (mem w) 1000 = 0 -> body = []) /\
    output w' =
      upb_encode_varint
        (tag_value (signed32 (number f)) UPB_WIRE_TYPE_START_GROUP)
      ++ body
      ++ upb_encode_varint
           (tag_value (signed32 (number f)) UPB_WIRE_TYPE_END_GROUP)
      ++ output w.
Proof.
  intros w f run w'.
  assert (Hwf : well_formed w) by decide_cmp.
  assert (Hk : elided (mem w) 1000 f false = false)
    by (vm_compute; reflexivity).
  assert (E : run w = Ok tt w')
    by (apply returns_final; vm_compute; reflexivity).
  assert (Hq : ncalls w' = ncalls w) by (vm_compute; reflexivity).
  split; [split; [exact Hwf|split; [exact Hk|split; [exact E|exact Hq]]]|].
  split; [vm_compute; reflexivity|].
  exact (group_field_record Fixtures.holder_layouts 1 1000 Fixtures.Holder f
           false w w' eq_refl Hwf Hk E Hq).
Defined.

(** ** The encoder stops at the first denied request *)

Lemma granted_refl (w : machine) : granted w w.
Proof.
  unfold granted. split; [reflexivity|]. split; [lia|]. intros i Hi. lia.
Qed.

Lemma granted_trans (w w1 w2 : machine) :
  granted w w1 -> granted w1 w2 -> granted w w2.
Proof.
  intros (Ha & Hn & Hg) (Ha2 & Hn2 & Hg2). unfold granted.
  split; [congruence|]. split; [lia|]. intros i Hi.
  destruct (Nat.lt_ge_cases i (ncalls w1)) as [Hlt|Hge].
  - apply Hg. lia.
  - rewrite <- Ha. apply Hg2. lia.
Qed.

Lemma first_denial_after (w w1 w2 : machine) :
  granted w w1 -> first_denial w1 w2 -> first_denial w w2.
Proof.
  intros (Ha & Hn & Hg) (Ha2 & Hn2 & Hz & Hg2). unfold first_denial.
  split; [congruence|]. split; [lia|]. split; [rewrite <- Ha; exact Hz|].
  intros i Hi.
  destruct (Nat.lt_ge_cases i (ncalls w1)) as [Hlt|Hge].
  - apply Hg. lia.
  - rewrite <- Ha. apply Hg2. lia.
Qed.

Lemma sd_ret {A} (a : A) : stops_at_denial (ret a).
Proof. intros w. apply granted_refl. Qed.

Lemma sd_bind {A B} (c : M A) (f : A -> M B) :
  stops_at_denial c -> (forall a, stops_at_denial (f a)) ->
  stops_at_denial (bind c f).
Proof.
  intros Hc Hf w. unfold bind. specialize (Hc w).
  destruct (c w) as [a w1|w1| |]; auto.
  specialize (Hf a w1).
  destruct (f a w1) as [b w2|w2| |]; auto.
  - apply (granted_trans w w1 w2); assumption.
  - apply (first_denial_after w w1 w2); assumption.
Qed.

Lemma sd_get {B} (f : machine -> M B) :
  (forall e, stops_at_denial (f e)) -> stops_at_denial (bind get f).
Proof. intros Hf w. unfold bind, get. apply Hf. Qed.

Lemma sd_undefined {A} : stops_at_denial (@undefined A).
Proof. intros w. exact I. Qed.

Lemma sd_timeout {A} : stops_at_denial (@timeout A).
Proof. intros w. exact I. Qed.

Lemma sd_UPB_ASSERT (x : bool) : stops_at_denial (UPB_ASSERT x).
Proof.
  intros w. unfold UPB_ASSERT. destruct x; [|exact I]. apply granted_refl.
Qed.

Lemma sd_set_mem (m : memory) : stops_at_denial (set_mem m).
Proof. intros w. unfold set_mem, granted. cbn. repeat split; lia. Qed.

Lemma sd_set_ptr (a : Z) : stops_at_denial (set_ptr a).
Proof. intros w. unfold set_ptr, granted. cbn. repeat split; lia. Qed.

Lemma sd_upb_encode_growbuffer (bytes : Z) :
  stops_at_denial (upb_encode_growbuffer bytes).
Proof.
  intros w. unfold upb_encode_growbuffer, bind, get, upb_roundup_pow2.
  destruct (roundup_loop 64 128 (wrap64 (bytes + (limit w - ptr w))))
    as [new_size|]; [|exact I].
  unfold ret, upb_env_realloc.
  destruct (Z.eqb_spec (alloc w (ncalls w)) 0) as [Hz|Hnz].
  - rewrite Hz. cbn. unfold first_denial. cbn.
    split; [reflexivity|]. split; [lia|]. split; [exact Hz|].
    intros i Hi. lia.
  - unfold CHK. destruct (Z.eqb_spec (alloc w (ncalls w)) 0); [contradiction|].
    cbn. unfold granted. cbn.
    split; [reflexivity|]. split; [lia|].
    intros i Hi. replace i with (ncalls w) by lia. exact Hnz.
Qed.

Ltac sd_step :=
  lazymatch goal with
  | |- stops_at_denial (bind get _) => apply sd_get; intro
  | |- stops_at_denial (bind _ _) => apply sd_bind; [ | intro ]
  | |- stops_at_denial (ret _) => apply sd_ret
  | |- stops_at_denial undefined => apply sd_undefined
  | |- stops_at_denial timeout => apply sd_timeout
  | |- stops_at_denial (UPB_ASSERT _) => apply sd_UPB_ASSERT
  | |- stops_at_denial (set_mem _) => apply sd_set_mem
  | |- stops_at_denial (set_ptr _) => apply sd_set_ptr
  | |- stops_at_denial (upb_encode_growbuffer _) =>
      apply sd_upb_encode_growbuffer
  | |- stops_at_denial (if ?b then _ else _) => destruct b
  | |- stops_at_denial (match ?o with Some _ => _ | None => _ end) =>
      destruct o
  end.

Lemma sd_upb_encode_reserve (bytes : Z) :
  stops_at_denial (upb_encode_reserve bytes).
Proof. unfold upb_encode_reserve. repeat sd_step. Qed.

Lemma sd_upb_put_bytes (data : data_ptr) (len : Z) :
  stops_at_denial (upb_put_bytes data len).
Proof.
  unfold upb_put_bytes, memcpy.
  apply sd_bind; [apply sd_upb_encode_reserve|]. intros _. repeat sd_step.
Qed.

Lemma sd_upb_put_varint (val : Z) : stops_at_denial (upb_put_varint val).
Proof.
  unfold upb_put_varint, store, memmove.
  apply sd_bind; [apply sd_upb_encode_reserve|]. intros _.
  cbv zeta. repeat sd_step.
Qed.

Lemma sd_array_loop (n : nat) (body : Z -> M unit) :
  (forall i, stops_at_denial (body i)) -> stops_at_denial (array_loop n body).
Proof.
  intros Hb. induction n as [|n IH]; cbn [array_loop].
  - apply sd_ret.
  - apply sd_bind; [apply Hb|intros _; exact IH].
Qed.

Ltac sd :=
  repeat lazymatch goal with
    | |- stops_at_denial (upb_put_varint _) => apply sd_upb_put_varint
    | |- stops_at_denial (upb_put_tag _ _) => apply sd_upb_put_varint
    | |- stops_at_denial (upb_put_bytes _ _) => apply sd_upb_put_bytes
    | |- stops_at_denial (upb_put_fixed64 _) => apply sd_upb_put_bytes
    | |- stops_at_denial (upb_put_fixed32 _) => apply sd_upb_put_bytes
    | |- stops_at_denial (upb_put_double _) => apply sd_upb_put_bytes
    | |- stops_at_denial (upb_put_float _) => apply sd_upb_put_bytes
    | |- stops_at_denial (array_loop _ _) => apply sd_array_loop; intro
    | |- stops_at_denial (upb_put_fixedarray _ _) => unfold upb_put_fixedarray
    | |- stops_at_denial (VARINT_CASE _ _ _) => unfold VARINT_CASE
    | |- stops_at_denial (CASE _ _ _ _ _) => unfold CASE
    | |- stops_at_denial (submsg_layout _ _ _) => unfold submsg_layout
    | |- stops_at_denial (upb_readcase _ _ _) => unfold upb_readcase
    | |- stops_at_denial (upb_readhasbit _ _) => unfold upb_readhasbit
    | |- _ => sd_step
    end.

Section EncoderStops.

Variable layouts : list upb_msglayout_msginit_v1.
Variable rec : Z -> upb_msglayout_msginit_v1 -> Z -> M Z.
Hypothesis Hrec : forall msg m size, stops_at_denial (rec msg m size).

Lemma sd_upb_encode_array (field_mem : Z) (m : upb_msglayout_msginit_v1)
    (f : upb_msglayout_fieldinit_v1) :
  stops_at_denial (upb_encode_array layouts rec field_mem m f).
Proof.
  unfold upb_encode_array. apply sd_get. intros e.
  destruct ((load_u64 (mem e) field_mem =? 0)
            || (arr_len (arrays e (load_u64 (mem e) field_mem)) =? 0));
    [apply sd_ret|].
  apply sd_bind; [apply sd_UPB_ASSERT|]. intros _.
  destruct (type f); sd; apply Hrec.
Qed.

Lemma sd_upb_encode_scalarfield (field_mem : Z)
    (m : upb_msglayout_msginit_v1) (f : upb_msglayout_fieldinit_v1)
    (is_proto3 : bool) :
  stops_at_denial (upb_encode_scalarfield layouts rec field_mem m f is_proto3).
Proof.
  unfold upb_encode_scalarfield. apply sd_get. intros e.
  destruct (type f); sd; apply Hrec.
Qed.

Lemma sd_encode_field (msg : Z) (m : upb_msglayout_msginit_v1)
    (f : upb_msglayout_fieldinit_v1) :
  stops_at_denial (encode_field layouts rec msg m f).
Proof.
  unfold encode_field.
  destruct (upb_label_t_beq (label f) UPB_LABEL_REPEATED).
  - apply sd_upb_encode_array.
  - apply sd_bind.
    + unfold upb_encode_hasscalarfield. sd.
    + intros [|]; [apply sd_upb_encode_scalarfield|apply sd_ret].
Qed.

Lemma sd_fields_loop (msg : Z) (m : upb_msglayout_msginit_v1)
    (fs : list upb_msglayout_fieldinit_v1) :
  stops_at_denial (fields_loop layouts rec msg m fs).
Proof.
  induction fs as [|f fs IH]; cbn [fields_loop].
  - apply sd_ret.
  - apply sd_bind; [apply sd_encode_field|intros _; exact IH].
Qed.

End EncoderStops.

Lemma sd_upb_encode_message (layouts : list upb_msglayout_msginit_v1)
    (fuel : nat) :
  forall msg m size,
    stops_at_denial (upb_encode_message layouts fuel msg m size).
Proof.
  induction fuel as [|k IH]; intros msg m size; cbn [upb_encode_message].
  - apply sd_timeout.
  - apply sd_get. intros e. destruct (msg =? 0); [apply sd_ret|].
    apply sd_bind; [apply sd_fields_loop; exact IH|].
    intros _. sd.
Qed.

(** X13. [upb_encode] stops at the first request the allocator denies.
    When it returns a pointer that is not NULL, every call of the
    allocator it made was answered with a pointer that is not NULL.
    When it returns NULL, it made at least one call, the last one was
    answered NULL and every earlier one was not: no call follows a
    denied request, and a failure on the very first request costs
    exactly one call. *)
Theorem upb_encode_stops_at_first_denial
    (layouts : list upb_msglayout_msginit_v1) (fuel : nat) (msg : Z)
    (m : upb_msglayout_msginit_v1) (size : Z) (w : machine) :
  match upb_encode layouts fuel msg m size w with
  | Ok (r, sz) w' =>
      alloc w' = alloc w /\
      (r <> NullPtr ->
       (ncalls w <= ncalls w')%nat /\
       forall i, (ncalls w <= i < ncalls w')%nat -> alloc w i <> 0) /\
      (r = NullPtr ->
       (ncalls w < ncalls w')%nat /\
       alloc w (pred (ncalls w')) = 0 /\
       (forall i, (ncalls w <= i < pred (ncalls w'))%nat -> alloc w i <> 0) /\
       (alloc w (ncalls w) = 0 -> ncalls w' = S (ncalls w)))
  | Fail _ => False
  | Undef => True
  | Timeout => True
  end.
Proof.
  unfold upb_encode.
  pose proof (sd_upb_encode_message layouts fuel msg m size
                (empty_encstate w)) as Hinv.
  destruct (upb_encode_message layouts fuel msg m size (empty_encstate w))
    as [s w1|w1| |]; try exact I.
  - destruct Hinv as (Ha & Hn & Hg).
    change (alloc (empty_encstate w)) with (alloc w) in *.
    change (ncalls (empty_encstate w)) with (ncalls w) in *.
    destruct (wrap64 (limit w1 - ptr w1) =? 0).
    + split; [exact Ha|]. split; [intros _; split; assumption|].
      intros Habs. discriminate Habs.
    + destruct (ptr w1 =? 0); [exact I|].
      split; [exact Ha|]. split; [intros _; split; assumption|].
      intros Habs. discriminate Habs.
  - destruct Hinv as (Ha & Hn & Hz & Hg).
    change (alloc (empty_encstate w)) with (alloc w) in *.
    change (ncalls (empty_encstate w)) with (ncalls w) in *.
    split; [exact Ha|]. split; [intros Habs; contradiction|].
    intros _. split; [exact Hn|]. split; [exact Hz|]. split; [exact Hg|].
    intros Hfirst.
    destruct (Nat.eq_dec (pred (ncalls w1)) (ncalls w)) as [He|Hne]; [lia|].
    exfalso. apply (Hg (ncalls w)); [lia|exact Hfirst].
Qed.

Lemma upb_encode_stops_at_first_denial_witness :
  let w := Samples.starved Samples.three_mem Samples.no_arrays in
  let o := upb_encode [Samples.Three] 3 1000 Samples.Three 0 w in
  returns o (NullPtr, 0) /\ alloc w (ncalls w) = 0 /\
  ncalls (final_state o w) = S (ncalls w).
Proof.
  intros w o.
  assert (Hr : returns o (NullPtr, 0)) by (vm_compute; reflexivity).
  assert (Hz : alloc w (ncalls w) = 0) by reflexivity.
  split; [exact Hr|]. split; [exact Hz|].
  pose proof (upb_encode_stops_at_first_denial [Samples.Three] 3 1000
                Samples.Three 0 w) as H.
  fold o in H. rewrite (returns_final o _ w Hr) in H.
  destruct H as (_ & _ & Hnull).
  destruct (Hnull eq_refl) as (_ & _ & _ & Hone).
  exact (Hone Hz).
Defined.

(** ** Packed repeated fields of fixed-width elements *)

Lemma bind_assoc {A B C} (c : M A) (f : A -> M B) (g : B -> M C)
    (w : machine) :
  bind (bind c f) g w = bind c (fun a => bind (f a) g) w.
Proof. unfold bind. destruct (c w); reflexivity. Qed.

Lemma le_bytes_le_value (bs : list Z) :
  Forall (fun b => 0 <= b < 256) bs ->
  le_bytes (length bs) (le_value bs) = bs.
Proof.
  induction 1 as [|b bs Hb _ IH]; cbn [length le_bytes le_value];
    [reflexivity|].
  f_equal.
  - rewrite (Z.mul_comm 256), Z.mod_add by lia.
    apply Z.mod_small. exact Hb.
  - rewrite (Z.mul_comm 256), Z.div_add by lia.
    rewrite (Z.div_small b 256) by exact Hb. exact IH.
Qed.

(** The bytes of an array are the little-endian bytes of its elements,
    one element after the other. *)
Lemma load_bytes_elements (m : memory) (size n : nat) :
  forall a,
    load_bytes m a (n * size)
    = concat (map (le_bytes size) (fixed_values m a size n)).
Proof.
  unfold fixed_values. induction n as [|n IH]; intros a; [reflexivity|].
  cbn [Nat.mul]. rewrite load_bytes_app. cbn [seq map concat].
  f_equal.
  - replace (a + Z.of_nat 0 * Z.of_nat size) with a by lia.
    pose proof (le_bytes_le_value (load_bytes m a size)
                  (load_bytes_range m size a)) as Hle.
    rewrite load_bytes_length in Hle. rewrite Hle. reflexivity.
  - rewrite IH. rewrite <- seq_shift, !map_map. f_equal.
    apply map_ext. intros i. do 3 f_equal. lia.
Qed.

Lemma fixed_values_length (m : memory) (a : Z) (size n : nat) :
  length (fixed_values m a size n) = n.
Proof. unfold fixed_values. rewrite length_map, length_seq. reflexivity. Qed.

(** X14. A non-empty repeated field of fixed-width elements (double,
    float, fixed32/64, sfixed32/64) whose byte length fits a [size_t],
    encoded without a call of the allocator from a well-formed state,
    is written as one packed record: the tag with wire type 2, the
    length [len * size], and the elements as they lie in memory - that
    is, their little-endian encodings in array order. *)
Theorem fixed_packed_field_output
    (layouts : list upb_msglayout_msginit_v1)
    (rec : Z -> upb_msglayout_msginit_v1 -> Z -> M Z)
    (field_mem : Z) (m : upb_msglayout_msginit_v1)
    (f : upb_msglayout_fieldinit_v1) (size : nat) (w w' : machine)
    (Hwidth : fixed_width (type f) = Some size)
    (Hnull : load_u64 (mem w) field_mem <> 0)
    (Hlen : 0 < arr_len (arrays w (load_u64 (mem w) field_mem)))
    (Hfit : arr_len (arrays w (load_u64 (mem w) field_mem)) * Z.of_nat size
            < 2 ^ 64)
    (Hwf : well_formed w)
    (Hrun : upb_encode_array layouts rec field_mem m f w = Ok tt w')
    (Hquiet : ncalls w' = ncalls w) :
  let arr := arrays w (load_u64 (mem w) field_mem) in
  arr_type arr = upb_desctype_to_fieldtype2 (type f) /\
  output w' =
    fixed_record (signed32 (number f)) size
      (fixed_values (mem w) (arr_data arr) size (Z.to_nat (arr_len arr)))
    ++ output w.
Proof.
  intros arr. fold arr in Hlen, Hfit.
  unfold upb_encode_array in Hrun.
  unfold bind at 1 in Hrun. unfold get at 1 in Hrun. fold arr in Hrun.
  destruct (Z.eqb_spec (load_u64 (mem w) field_mem) 0) as [|_];
    [contradiction|].
  destruct (Z.eqb_spec (arr_len arr) 0) as [|_]; [lia|].
  cbn [orb] in Hrun.
  apply bind_ok in Hrun. destruct Hrun as ([] & w0 & Hassert & Hrun).
  unfold UPB_ASSERT in Hassert.
  destruct (upb_fieldtype_t_beq (arr_type arr)
              (upb_desctype_to_fieldtype2 (type f))) eqn:Hty;
    [|discriminate Hassert].
  inversion Hassert. subst w0. clear Hassert.
  split; [apply internal_upb_fieldtype_t_dec_bl; exact Hty|].
  assert (Hbytes : wrap64 (arr_len arr * Z.of_nat size)
                   = arr_len arr * Z.of_nat size).
  { unfold wrap64. apply Z.mod_small. lia. }
  assert (Hout : output w' =
                 (upb_encode_varint
                    (tag_value (signed32 (number f)) UPB_WIRE_TYPE_DELIMITED)
                  ++ upb_encode_varint (arr_len arr * Z.of_nat size)
                  ++ load_bytes (mem w) (arr_data arr)
                       (Z.to_nat (arr_len arr * Z.of_nat size)))
                 ++ output w).
  { assert (Hcase :
              (upb_put_fixedarray arr (Z.of_nat size) ;;
               upb_put_tag (signed32 (number f)) UPB_WIRE_TYPE_DELIMITED) w
              = Ok tt w').
    { destruct (type f); cbn [fixed_width] in Hwidth;
        try discriminate Hwidth;
        inversion Hwidth; subst size; exact Hrun. }
    unfold upb_put_fixedarray in Hcase. rewrite bind_assoc in Hcase.
    rewrite Hbytes in Hcase.
    assert (Hpos : 0 <= arr_len arr * Z.of_nat size) by lia.
    exact (record_string _ _ _ _ Hpos w w' Hwf Hcase Hquiet). }
  rewrite Hout. unfold fixed_record.
  rewrite fixed_values_length, Z2Nat.id by lia.
  rewrite <- load_bytes_elements.
  replace (Z.to_nat (arr_len arr * Z.of_nat size))
    with (Z.to_nat (arr_len arr) * size)%nat by lia.
  rewrite <- !app_assoc. reflexivity.
Qed.

Lemma fixed_packed_field_output_witness :
  let ty := UPB_DESCRIPTOR_TYPE_FIXED32 in
  let w :=
    Fixtures.midway (Samples.rep_mem Samples.small_int32s)
      (Samples.rep_arrays (upb_desctype_to_fieldtype2 ty) 3) 0 in
  let f := Samples.field 1 0 ty UPB_LABEL_REPEATED in
  let run :=
    upb_encode_array [] (fun _ _ _ => ret 0) 1000 (Samples.Rep ty) f in
  let w' := final_state (run w) w in
  (fixed_width (type f) = Some 4%nat /\
   load_u64 (mem w) 1000 <> 0 /\
   0 < arr_len (arrays w (load_u64 (mem w) 1000)) /\
   arr_len (arrays w (load_u64 (mem w) 1000)) * Z.of_nat 4 < 2 ^ 64 /\
   well_formed w /\ run w = Ok tt w' /\ ncalls w' = ncalls w) /\
  fixed_values (mem w) 6000 4 3 = [1; 300; 2 ^ 32 - 1] /\
  output w' =
    fixed_record 1 4 [1; 300; 2 ^ 32 - 1] ++ output w /\
  output w' = [10; 12; 1; 0; 0; 0; 44; 1; 0; 0; 255; 255; 255; 255].
Proof.
  intros ty w f run w'.
  assert (Hw : fixed_width (type f) = Some 4%nat) by reflexivity.
  assert (Hn : load_u64 (mem w) 1000 <> 0) by decide_cmp.
  assert (Hl : 0 < arr_len (arrays w (load_u64 (mem w) 1000)))
    by (vm_compute; reflexivity).
  assert (Hf : arr_len (arrays w (load_u64 (mem w) 1000)) * Z.of_nat 4
               < 2 ^ 64) by (vm_compute; reflexivity).
  assert (Hwf : well_formed w) by decide_cmp.
  assert (E : run w = Ok tt w')
    by (apply returns_final; vm_compute; reflexivity).
  assert (Hq : ncalls w' = ncalls w) by (vm_compute; reflexivity).
  assert (Hv : fixed_values (mem w) 6000 4 3 = [1; 300; 2 ^ 32 - 1])
    by (vm_compute; reflexivity).
  split; [repeat (split; [assumption|]); assumption|].
  split; [exact Hv|].
  split; [|vm_compute; reflexivity].
  rewrite <- Hv.
  exact (proj2 (fixed_packed_field_output [] (fun _ _ _ => ret 0) 1000
                  (Samples.Rep ty) f 4 w w' Hw Hn Hl Hf Hwf E Hq)).
Defined.

(** ** Whole messages *)

Lemma output_length (w : machine) :
  Z.of_nat (length (output w)) = Z.max 0 (used w).
Proof. unfold output. rewrite load_bytes_length. lia. Qed.



(** ** Records with nothing to encode *)

Lemma encode_field_unset
    (layouts : list upb_msglayout_msginit_v1)
    (rec : Z -> upb_msglayout_msginit_v1 -> Z -> M Z)
    (msg : Z) (m : upb_msglayout_msginit_v1)
    (f : upb_msglayout_fieldinit_v1) (w : machine) :
  unset layouts (mem w) (arrays w) msg m f = true ->
  encode_field layouts rec msg m f w = Ok tt w.
Proof.
  unfold unset, encode_field.
  destruct (upb_label_t_beq (label f) UPB_LABEL_REPEATED).
  - intros H. unfold upb_encode_array. unfold bind at 1. unfold get at 1.
    cbv zeta in H. rewrite H. reflexivity.
  - unfold upb_encode_hasscalarfield.
    destruct (oneof_index f) as [oi|] eqn:Hone.
    + unfold upb_readcase.
      destruct (nth_error (oneofs m) oi) as [o|]; [|discriminate].
      intros H. cbv [bind get ret].
      apply negb_true_iff in H. rewrite H. reflexivity.
    + destruct (is_proto2 m).
      * unfold upb_readhasbit. destruct (hasbit f) as [h|]; [|discriminate].
        intros H. cbv [bind get ret].
        rewrite land_bit by (apply Z.mod_pos_bound; lia).
        apply negb_true_iff in H. rewrite H. reflexivity.
      * intros H. apply andb_true_iff in H. destruct H as [Hz Hl].
        unfold bind at 1. unfold ret at 1.
        unfold upb_encode_scalarfield. unfold bind at 1. unfold get at 1.
        rewrite Hone. cbn [negb andb].
        unfold has_layout in Hl.
        destruct (type f); cbn [zero_valued] in Hz; unfold CASE;
          rewrite ?double_is_zero_spec, ?float_is_zero_spec, ?load_bool_zero,
            ?(signed_zero 32), ?(signed_zero 64)
            by first [lia | apply load_u32_range | apply load_u64_range];
          try (rewrite Hz; reflexivity);
          unfold bind at 1; unfold submsg_layout;
          (destruct (nth_error (submsgs m) (submsg_index f)) as [r|];
           [|discriminate Hl]);
          (destruct (nth_error layouts r); [|discriminate Hl]);
          unfold ret at 1; rewrite Hz; reflexivity.
Qed.

Lemma fields_loop_unset
    (layouts : list upb_msglayout_msginit_v1)
    (rec : Z -> upb_msglayout_msginit_v1 -> Z -> M Z)
    (msg : Z) (m : upb_msglayout_msginit_v1) (w : machine)
    (fs : list upb_msglayout_fieldinit_v1) :
  Forall (fun f => unset layouts (mem w) (arrays w) msg m f = true) fs ->
  fields_loop layouts rec msg m fs w = Ok tt w.
Proof.
  induction 1 as [|f fs Hf _ IH]; cbn [fields_loop]; [reflexivity|].
  unfold bind. rewrite (encode_field_unset _ _ _ _ _ _ Hf). exact IH.
Qed.

(** X16. A record none of whose fields is set - every repeated field
    null or empty, every oneof member not the current case, every
    proto2 hasbit clear, every proto3 value zero - encodes to nothing:
    [upb_encode_message] reports size 0 and leaves the state as it was,
    and [upb_encode] returns the static sentinel with length 0 without
    calling the allocator. The same holds for a null record, whatever
    its layout. *)
Theorem upb_encode_nothing_set
    (layouts : list upb_msglayout_msginit_v1) (k : nat) (msg : Z)
    (m : upb_msglayout_msginit_v1) (size : Z) (w : machine)
    (Hmsg : msg <> 0)
    (Hunset : forallb (unset layouts (mem w) (arrays w) msg m) (fields m)
              = true) :
  upb_encode_message layouts (S k) msg m size w = Ok 0 w /\
  upb_encode layouts (S k) msg m size w = Ok (StaticCh, 0) (empty_encstate w) /\
  upb_encode layouts (S k) 0 m size w = Ok (StaticCh, 0) (empty_encstate w).
Proof.
  assert (Hall : forall e,
             mem e = mem w -> arrays e = arrays w ->
             upb_encode_message layouts (S k) msg m size e = Ok 0 e).
  { intros e Hm Ha. cbn [upb_encode_message].
    unfold bind at 1. unfold get at 1.
    destruct (Z.eqb_spec msg 0) as [|_]; [contradiction|].
    unfold bind at 1. rewrite fields_loop_unset.
    - unfold bind, get, ret. rewrite Z.sub_diag. reflexivity.
    - apply Forall_forall. intros f Hin. rewrite Hm, Ha.
      rewrite forallb_forall in Hunset. apply Hunset.
      apply in_rev. exact Hin. }
  split; [apply Hall; reflexivity|]. split.
  - unfold upb_encode. rewrite Hall by reflexivity. reflexivity.
  - unfold upb_encode. cbn [upb_encode_message]. reflexivity.
Qed.

Lemma upb_encode_nothing_set_witness :
  let w := Samples.starved Samples.zeros Samples.no_arrays in
  (1000 <> 0 /\
   forallb (unset [Samples.Three] (mem w) (arrays w) 1000 Samples.Three)
     (fields Samples.Three) = true) /\
  upb_encode [Samples.Three] 1 1000 Samples.Three 9 w
  = Ok (StaticCh, 0) (empty_encstate w).
Proof.
  intros w.
  assert (Hm : 1000 <> 0) by discriminate.
  assert (Hu : forallb (unset [Samples.Three] (mem w) (arrays w) 1000
                          Samples.Three) (fields Samples.Three) = true)
    by (vm_compute; reflexivity).
  split; [split; [exact Hm|exact Hu]|].
  exact (proj1 (proj2 (upb_encode_nothing_set [Samples.Three] 0 1000
                         Samples.Three 9 w Hm Hu))).
Defined.

(** ** Loops over the elements of an array *)

Lemma extended_outside (w0 e : machine) :
  well_formed w0 -> extended w0 e ->
  forall a, a < buf w0 \/ limit w0 <= a -> mem e a = mem w0 a.
Proof.
  intros Hwf (_ & _ & _ & Hm & Hw) a Ha.
  destruct (Hw Hwf) as [_ Hlow]. destruct Hwf as ((_ & Hpl) & _).
  destruct Ha as [Ha|Ha]; [apply Hlow; exact Ha|apply Hm; lia].
Qed.

Lemma extended_well_formed (w0 e : machine) :
  well_formed w0 -> extended w0 e -> well_formed e.
Proof. intros Hwf (_ & _ & _ & _ & Hw). apply (Hw Hwf). Qed.

Lemma indices_snoc (k : nat) : indices (S k) = indices k ++ [Z.of_nat k].
Proof. unfold indices. rewrite seq_S, map_app. reflexivity. Qed.

Lemma Forall2_eq_map {A B} (g : A -> B) (l : list A) (rs : list B) :
  Forall2 (fun i r => r = g i) l rs -> rs = map g l.
Proof.
  induction 1 as [|i r l rs Hr _ IH]; cbn [map]; [reflexivity|].
  rewrite Hr, IH. reflexivity.
Qed.

Section ArrayLoop.

Variable w0 : machine.
Variable body : Z -> M unit.
Hypothesis Hadds : forall i, adds 0 (body i).
Variable bound : nat.
Variable R : Z -> list Z -> Prop.
Hypothesis Hbody :
  forall i e e',
    0 <= i < Z.of_nat bound ->
    extended w0 e -> body i e = Ok tt e' -> ncalls e' = ncalls e ->
    exists r, R i r /\ output e' = r ++ output e.

(** The loop visits the elements last to first, each record going in
    front of the ones written before: read forward they come in array
    order. *)
Lemma array_loop_records (n : nat) :
  (n <= bound)%nat ->
  forall e w',
    extended w0 e -> array_loop n body e = Ok tt w' ->
    ncalls w' = ncalls e ->
    exists rs,
      Forall2 R (indices n) rs /\ output w' = concat rs ++ output e.
Proof.
  induction n as [|k IH]; intros Hn e w' Hext E Hq.
  - cbv [array_loop ret] in E. inversion E. subst w'.
    exists []. split; [constructor|reflexivity].
  - cbn [array_loop] in E. apply bind_ok in E.
    destruct E as ([] & e1 & Ebody & Erest).
    pose proof (adds_grew _ _ _ _ _ (Hadds (Z.of_nat k)) Ebody)
      as (_ & _ & Hn1 & Hext1).
    pose proof (adds_grew _ _ _ _ _ (adds_array_loop k body Hadds) Erest)
      as (_ & _ & Hn2 & _).
    assert (Hq1 : ncalls e1 = ncalls e) by lia.
    assert (Hq2 : ncalls w' = ncalls e1) by lia.
    destruct (Hbody (Z.of_nat k) e e1 ltac:(lia) Hext Ebody Hq1)
      as (r & Hr & Hout1).
    destruct (IH ltac:(lia) e1 w'
                (extended_trans w0 e e1 Hext (Hext1 Hq1)) Erest Hq2)
      as (rs & Hall & Hout).
    exists (rs ++ [r]). split.
    + rewrite indices_snoc. apply Forall2_app; [exact Hall|].
      constructor; [exact Hr|constructor].
    + rewrite Hout, Hout1, concat_app. cbn [concat].
      rewrite app_nil_r, <- app_assoc. reflexivity.
Qed.

End ArrayLoop.

(** The run of [upb_encode_array] on an array that is neither null nor
    empty: the assertion on the element type holds, and what remains
    is the case of the field's type. *)
Ltac enter_array Hrun Hnull Hlen :=
  unfold upb_encode_array in Hrun;
  unfold bind at 1 in Hrun; unfold get at 1 in Hrun;
  lazymatch type of Hnull with
  | ?p <> 0 =>
      destruct (Z.eqb_spec p 0) as [|_]; [contradiction|]
  end;
  lazymatch type of Hlen with
  | 0 < ?n =>
      destruct (Z.eqb_spec n 0) as [|_]; [lia|]
  end;
  cbn [orb] in Hrun;
  apply bind_ok in Hrun;
  let w1 := fresh "w" in
  let Hassert := fresh "Hassert" in
  destruct Hrun as ([] & w1 & Hassert & Hrun);
  unfold UPB_ASSERT in Hassert;
  lazymatch type of Hassert with
  | (if ?b then _ else _) = _ =>
      destruct b; [|discriminate Hassert]
  end;
  inversion Hassert; subst w1; clear Hassert.

(** X17. A non-empty repeated string or bytes field whose array and
    strings lie outside the buffer, encoded without a call of the
    allocator from a well-formed state, is written unpacked: one record
    per element - tag with wire type 2, length, bytes - and, although
    the loop runs from the last element to the first, the records read
    forward in array order. *)
Theorem repeated_string_field_output
    (layouts : list upb_msglayout_msginit_v1)
    (rec : Z -> upb_msglayout_msginit_v1 -> Z -> M Z)
    (field_mem : Z) (m : upb_msglayout_msginit_v1)
    (f : upb_msglayout_fieldinit_v1) (w w' : machine)
    (Hkind : type f = UPB_DESCRIPTOR_TYPE_STRING
             \/ type f = UPB_DESCRIPTOR_TYPE_BYTES)
    (Hnull : load_u64 (mem w) field_mem <> 0)
    (Hlen : 0 < arr_len (arrays w (load_u64 (mem w) field_mem)))
    (Hwf : well_formed w)
    (Harr : outside_buffer w
              (arr_data (arrays w (load_u64 (mem w) field_mem))) 16
              (Z.to_nat (arr_len (arrays w (load_u64 (mem w) field_mem)))))
    (Hstr : forall i,
        0 <= i < arr_len (arrays w (load_u64 (mem w) field_mem)) ->
        let p := arr_data (arrays w (load_u64 (mem w) field_mem)) + i * 16 in
        outside_buffer w (load_u64 (mem w) p) 1
          (Z.to_nat (load_u64 (mem w) (p + 8))))
    (Hrun : upb_encode_array layouts rec field_mem m f w = Ok tt w')
    (Hquiet : ncalls w' = ncalls w) :
  let arr := arrays w (load_u64 (mem w) field_mem) in
  output w' =
    concat (map (fun i => string_record (mem w) (signed32 (number f))
                            (arr_data arr + i * 16))
              (indices (Z.to_nat (arr_len arr))))
    ++ output w.
Proof.
  intros arr. enter_array Hrun Hnull Hlen.
  fold arr in Hlen, Harr, Hstr, Hrun.
  set (fn := signed32 (number f)) in *.
  set (n := Z.to_nat (arr_len arr)) in *.
  set (body := fun i : Z =>
         e <- get ;;
         upb_put_bytes (InMem (load_u64 (mem e) (arr_data arr + i * 16)))
           (load_u64 (mem e) (arr_data arr + i * 16 + 8)) ;;
         upb_put_varint (load_u64 (mem e) (arr_data arr + i * 16 + 8)) ;;
         upb_put_tag fn UPB_WIRE_TYPE_DELIMITED).
  assert (Hloop : array_loop n body w = Ok tt w').
  { destruct Hkind as [Hk|Hk]; rewrite Hk in Hrun; exact Hrun. }
  clear Hrun.
  assert (Hadds : forall i, adds 0 (body i)) by (intros i; unfold body; adds0).
  assert (Hstep : forall i e e',
             0 <= i < Z.of_nat n ->
             extended w e -> body i e = Ok tt e' -> ncalls e' = ncalls e ->
             exists r,
               r = string_record (mem w) fn (arr_data arr + i * 16) /\
               output e' = r ++ output e).
  { intros i e e' Hi Hext E Hq.
    pose proof (extended_outside w e Hwf Hext) as Hsame.
    pose proof (extended_well_formed w e Hwf Hext) as Hwfe.
    assert (Hd : load_u64 (mem e) (arr_data arr + i * 16)
                 = load_u64 (mem w) (arr_data arr + i * 16)).
    { apply load_u64_local. intros x Hx. apply Hsame.
      unfold outside_buffer in Harr. fold n in Harr. lia. }
    assert (Hs : load_u64 (mem e) (arr_data arr + i * 16 + 8)
                 = load_u64 (mem w) (arr_data arr + i * 16 + 8)).
    { apply load_u64_local. intros x Hx. apply Hsame.
      unfold outside_buffer in Harr. fold n in Harr. lia. }
    unfold body in E. unfold bind at 1 in E. unfold get at 1 in E.
    rewrite Hd, Hs in E.
    pose proof (load_u64_range (mem w) (arr_data arr + i * 16 + 8)) as Hsz.
    eexists. split; [reflexivity|].
    rewrite (record_string _ _ _ _ (proj1 Hsz) e e' Hwfe E Hq).
    unfold string_record. rewrite <- !app_assoc. do 3 f_equal.
    apply load_bytes_ext. intros x Hx. apply Hsame.
    specialize (Hstr i ltac:(lia)). cbv zeta in Hstr.
    unfold outside_buffer in Hstr. lia. }
  destruct (array_loop_records w body Hadds n _ Hstep n (le_n n) w w'
              (extended_refl w) Hloop Hquiet) as (rs & Hall & Hout).
  rewrite Hout. f_equal. f_equal. apply Forall2_eq_map. exact Hall.
Qed.

Lemma repeated_string_field_output_witness :
  let ty := UPB_DESCRIPTOR_TYPE_STRING in
  let w :=
    Fixtures.midway Fixtures.strings_mem
      (Samples.rep_arrays (upb_desctype_to_fieldtype2 ty) 2) 0 in
  let f := Samples.field 1 0 ty UPB_LABEL_REPEATED in
  let run :=
    upb_encode_array [] (fun _ _ _ => ret 0) 1000 (Samples.Rep ty) f in
  let w' := final_state (run w) w in
  (well_formed w /\ run w = Ok tt w' /\ ncalls w' = ncalls w) /\
  output w' =
    concat (map (fun i => string_record (mem w) 1 (6000 + i * 16)) [0; 1])
    ++ output w /\
  output w' = [10; 2; 104; 105; 10; 1; 33].
Proof.
  intros ty w f run w'.
  assert (Hk : type f = UPB_DESCRIPTOR_TYPE_STRING
               \/ type f = UPB_DESCRIPTOR_TYPE_BYTES) by (left; reflexivity).
  assert (Hn : load_u64 (mem w) 1000 <> 0) by decide_cmp.
  assert (Hl2 : arr_len (arrays w (load_u64 (mem w) 1000)) = 2)
    by (vm_compute; reflexivity).
  assert (Hl : 0 < arr_len (arrays w (load_u64 (mem w) 1000)))
    by (rewrite Hl2; reflexivity).
  assert (Hwf : well_formed w) by decide_cmp.
  assert (Ha : outside_buffer w
                 (arr_data (arrays w (load_u64 (mem w) 1000))) 16
                 (Z.to_nat (arr_len (arrays w (load_u64 (mem w) 1000)))))
    by (left; vm_compute; discriminate).
  assert (Hs : forall i,
             0 <= i < arr_len (arrays w (load_u64 (mem w) 1000)) ->
             let p := arr_data (arrays w (load_u64 (mem w) 1000)) + i * 16 in
             outside_buffer w (load_u64 (mem w) p) 1
               (Z.to_nat (load_u64 (mem w) (p + 8)))).
  { intros i Hi. rewrite Hl2 in Hi.
    assert (Hcases : i = 0 \/ i = 1) by lia.
    destruct Hcases as [->| ->]; left; vm_compute; discriminate. }
  assert (E : run w = Ok tt w')
    by (apply returns_final; vm_compute; reflexivity).
  assert (Hq : ncalls w' = ncalls w) by (vm_compute; reflexivity).
  split; [split; [exact Hwf|split; [exact E|exact Hq]]|].
  split; [|vm_compute; reflexivity].
  exact (repeated_string_field_output [] (fun _ _ _ => ret 0) 1000
           (Samples.Rep ty) f w w' Hk Hn Hl Hwf Ha Hs E Hq).
Defined.

(** ** Repeated submessages and groups *)








(** ** Packed varint fields, from the run *)

Lemma array_values_indices (mm : memory) (start csize : Z)
    (encode : memory -> Z -> Z) (n : nat) :
  map (fun i => upb_encode_varint (encode mm (start + i * csize))) (indices n)
  = map upb_encode_varint (array_values mm start csize encode n).
Proof. unfold indices, array_values. rewrite !map_map. reflexivity. Qed.

Lemma VARINT_CASE_record (csize : Z) (encode : memory -> Z -> Z)
    (arr : upb_array) (fn : Z) (w w' : machine) :
  0 < csize ->
  (forall m p, 0 <= encode m p) ->
  (forall m m' p,
     (forall x, p <= x < p + csize -> m' x = m x) ->
     encode m' p = encode m p) ->
  well_formed w ->
  outside_buffer w (arr_data arr) csize (Z.to_nat (arr_len arr)) ->
  (VARINT_CASE arr csize encode ;;
   upb_put_tag fn UPB_WIRE_TYPE_DELIMITED) w = Ok tt w' ->
  ncalls w' = ncalls w ->
  output w' =
    packed_record fn
      (array_values (mem w) (arr_data arr) csize encode
         (Z.to_nat (arr_len arr)))
    ++ output w.
Proof.
  intros Hsize Hnonneg Hlocal Hwf Harr Hrun Hquiet.
  set (n := Z.to_nat (arr_len arr)) in *.
  apply bind_ok in Hrun. destruct Hrun as ([] & w2 & Hcase & Htag).
  unfold VARINT_CASE in Hcase.
  unfold bind at 1 in Hcase. unfold get at 1 in Hcase. fold n in Hcase.
  apply bind_ok in Hcase. destruct Hcase as ([] & w1 & Hloop & Hsize1).
  unfold bind at 1 in Hsize1. unfold get at 1 in Hsize1.
  set (body := fun i : Z =>
         e <- get ;;
         upb_put_varint (encode (mem e) (arr_data arr + i * csize)))
    in Hloop.
  assert (Hadds : forall i, adds 0 (body i)) by (intros i; unfold body; adds0).
  pose proof (adds_grew _ _ _ _ _ (adds_array_loop n body Hadds) Hloop)
    as (_ & _ & Hle1 & Hext1).
  pose proof (adds_grew _ _ _ _ _ (adds0_put_varint _) Hsize1)
    as (_ & _ & Hle2 & Hext2).
  pose proof (adds_grew _ _ _ _ _ (adds0_put_tag _ _) Htag)
    as (_ & _ & Hle3 & _).
  assert (Hq1 : ncalls w1 = ncalls w) by lia.
  assert (Hq2 : ncalls w2 = ncalls w1) by lia.
  assert (Hq3 : ncalls w' = ncalls w2) by lia.
  specialize (Hext1 Hq1). specialize (Hext2 Hq2).
  pose proof (extended_well_formed w w1 Hwf Hext1) as Hwf1.
  pose proof (extended_well_formed w1 w2 Hwf1 Hext2) as Hwf2.
  assert (Hstep : forall i e e',
             0 <= i < Z.of_nat n ->
             extended w e -> body i e = Ok tt e' -> ncalls e' = ncalls e ->
             exists r,
               r = upb_encode_varint
                     (encode (mem w) (arr_data arr + i * csize)) /\
               output e' = r ++ output e).
  { intros i e e' Hi Hext E Hq.
    pose proof (extended_outside w e Hwf Hext) as Hsame.
    pose proof (extended_well_formed w e Hwf Hext) as Hwfe.
    unfold body in E. unfold bind at 1 in E. unfold get at 1 in E.
    assert (Hv : encode (mem e) (arr_data arr + i * csize)
                 = encode (mem w) (arr_data arr + i * csize)).
    { apply Hlocal. intros x Hx. apply Hsame.
      unfold outside_buffer in Harr. fold n in Harr. nia. }
    rewrite Hv in E. eexists. split; [reflexivity|].
    exact (outputs_put_varint _ (Hnonneg _ _) e e' Hwfe E Hq). }
  destruct (array_loop_records w body Hadds n _ Hstep n (le_n n) w w1
              (extended_refl w) Hloop Hq1) as (rs & Hall & Hout1).
  apply Forall2_eq_map in Hall. rewrite array_values_indices in Hall.
  subst rs.
  set (payload := concat (map upb_encode_varint
                            (array_values (mem w) (arr_data arr) csize encode
                               n))) in *.
  assert (Hlen : wrap64 (limit w1 - ptr w1 - wrap64 (limit w - ptr w))
                 = Z.of_nat (length payload)).
  { pose proof (output_length w1) as L1.
    pose proof (output_length w) as L0.
    rewrite Hout1, length_app, Nat2Z.inj_add in L1.
    destruct Hext1 as (Hb & Hl & Hp & _).
    destruct Hwf as ((Hbp & Hpl) & Hsz).
    destruct Hwf1 as ((Hbp1 & Hpl1) & Hsz1).
    unfold used in *. unfold wrap64.
    rewrite (Z.mod_small (limit w - ptr w)) by lia.
    rewrite Z.mod_small by lia. lia. }
  rewrite Hlen in Hsize1.
  rewrite (outputs_put_tag _ _ w2 w' Hwf2 Htag Hq3).
  rewrite (outputs_put_varint _ (Nat2Z.is_nonneg _) w1 w2 Hwf1 Hsize1 Hq2).
  rewrite Hout1. unfold packed_record. cbv zeta. fold payload.
  rewrite <- !app_assoc. reflexivity.
Qed.

(** X20. A non-empty repeated field of a varint-representable type
    whose array lies outside the buffer, in any run of
    [upb_encode_array] from a well-formed state that returns true
    without calling the allocator: the output gains the packed record
    of the field - one tag with wire type 2, the byte length of the
    payload, and the varints of the elements (zigzag first for
    sint32/sint64) in array order; the length is measured as the
    growth of the output around the loop. *)
Theorem packed_varint_field_record
    (layouts : list upb_msglayout_msginit_v1)
    (rec : Z -> upb_msglayout_msginit_v1 -> Z -> M Z)
    (field_mem : Z) (m : upb_msglayout_msginit_v1)
    (f : upb_msglayout_fieldinit_v1) (w w' : machine)
    (csize : Z) (encode : memory -> Z -> Z)
    (Hpacked : packed_varint (type f) = Some (csize, encode))
    (Hnull : load_u64 (mem w) field_mem <> 0)
    (Hlen : 0 < arr_len (arrays w (load_u64 (mem w) field_mem)))
    (Hwf : well_formed w)
    (Harr : outside_buffer w
              (arr_data (arrays w (load_u64 (mem w) field_mem))) csize
              (Z.to_nat (arr_len (arrays w (load_u64 (mem w) field_mem)))))
    (Hrun : upb_encode_array layouts rec field_mem m f w = Ok tt w')
    (Hquiet : ncalls w' = ncalls w) :
  let arr := arrays w (load_u64 (mem w) field_mem) in
  output w' =
    packed_record (signed32 (number f))
      (array_values (mem w) (arr_data arr) csize encode
         (Z.to_nat (arr_len arr)))
    ++ output w.
Proof.
  intros arr. enter_array Hrun Hnull Hlen.
  fold arr in Hlen, Harr, Hrun.
  destruct (packed_varint_sound _ _ _ Hpacked) as (Hsize & Hnonneg & Hlocal).
  apply (VARINT_CASE_record csize encode arr _ w w' Hsize Hnonneg Hlocal Hwf
           Harr); [|exact Hquiet].
  destruct (type f); cbn [packed_varint] in Hpacked;
    try discriminate Hpacked;
    inversion Hpacked; subst csize encode; exact Hrun.
Qed.

Lemma packed_varint_field_record_witness :
  let ty := UPB_DESCRIPTOR_TYPE_SINT32 in
  let w :=
    Fixtures.midway (Samples.rep_mem Samples.small_int32s)
      (Samples.rep_arrays (upb_desctype_to_fieldtype2 ty) 3) 0 in
  let f := Samples.field 1 0 ty UPB_LABEL_REPEATED in
  let run :=
    upb_encode_array [] (fun _ _ _ => ret 0) 1000 (Samples.Rep ty) f in
  let w' := final_state (run w) w in
  (well_formed w /\ run w = Ok tt w' /\ ncalls w' = ncalls w) /\
  output w' = packed_record 1 [2; 600; 1] ++ output w /\
  output w' = [10; 4; 2; 216; 4; 1].
Proof.
  intros ty w f run w'.
  assert (Hp : packed_varint (type f)
               = Some (4, fun m p => upb_zzencode_32 (signed32 (load_u32 m p))))
    by reflexivity.
  assert (Hn : load_u64 (mem w) 1000 <> 0) by decide_cmp.
  assert (Hl : 0 < arr_len (arrays w (load_u64 (mem w) 1000)))
    by (vm_compute; reflexivity).
  assert (Hwf : well_formed w) by decide_cmp.
  assert (Ha : outside_buffer w
                 (arr_data (arrays w (load_u64 (mem w) 1000))) 4
                 (Z.to_nat (arr_len (arrays w (load_u64 (mem w) 1000)))))
    by (left; vm_compute; discriminate).
  assert (E : run w = Ok tt w')
    by (apply returns_final; vm_compute; reflexivity).
  assert (Hq : ncalls w' = ncalls w) by (vm_compute; reflexivity).
  assert (Hv : array_values (mem w) 6000 4
                 (fun m p => upb_zzencode_32 (signed32 (load_u32 m p))) 3
               = [2; 600; 1]) by (vm_compute; reflexivity).
  split; [split; [exact Hwf|split; [exact E|exact Hq]]|].
  split; [|vm_compute; reflexivity].
  rewrite <- Hv.
  exact (packed_varint_field_record [] (fun _ _ _ => ret 0) 1000
           (Samples.Rep ty) f w w' 4 _ Hp Hn Hl Hwf Ha E Hq).
Defined.

(** ** Write primitives that have to grow the buffer *)

Lemma upb_encode_reserve_grows (bytes : Z) (w : machine) :
  well_formed w -> 0 <= bytes -> bytes + used w <= 2 ^ 63 ->
  ptr w - buf w < bytes ->
  (alloc w (ncalls w) = 0 ->
   exists w1,
     upb_encode_reserve bytes w = Fail w1 /\
     buf w1 = buf w /\ ptr w1 = ptr w /\ limit w1 = limit w /\
     mem w1 = mem w /\ ncalls w1 = S (ncalls w)) /\
  (alloc w (ncalls w) <> 0 ->
   exists w1,
     upb_encode_reserve bytes w = Ok tt w1 /\
     ncalls w1 = S (ncalls w) /\ well_formed w1 /\
     used w1 = used w + bytes /\ buf w1 = alloc w (ncalls w)).
Proof.
  intros Hwf Hbytes Htotal Hfull.
  pose proof (wrap64_well_formed w Hwf) as Hroom.
  destruct (upb_encode_growbuffer_total bytes w Hwf Hbytes Htotal)
    as [Hfail Hok].
  unfold upb_encode_reserve, bind, get.
  destruct (Z.leb_spec bytes (wrap64 (ptr w - buf w))) as [Hle|_]; [lia|].
  split.
  - intros Hz. destruct (Hfail Hz) as (w1 & E & Hrest).
    rewrite E. exists w1. split; [reflexivity|exact Hrest].
  - intros Hnz.
    destruct (Hok Hnz)
      as (w1 & i & E & Hn & Hi & Hbuf & Hlim & _ & _ & Hu & Hfit & _).
    rewrite E. unfold set_ptr. eexists. split; [reflexivity|].
    unfold well_formed, used in *.
    cbn [buf ptr limit mem ncalls with_ptr].
    destruct Hwf as ((Hbp & Hpl) & Hsz).
    pose proof (Z.pow_le_mono_r 2 i 63 ltac:(lia) ltac:(lia)) as Hpow.
    assert (Hlt : 2 ^ 63 < 2 ^ 64) by reflexivity.
    split; [exact Hn|]. split; [lia|]. split; [lia|exact Hbuf].
Qed.

(** X21. A write primitive whose request does not fit the room below
    the cursor, in a well-formed state and for a total of at most
    [2^63] bytes, calls the allocator exactly once. On a NULL answer it
    returns false and leaves buffer, cursor and memory as they were; on
    any other answer it returns true in a well-formed state whose
    buffer is the allocator's answer and whose used size has grown by
    exactly the bytes appended - for a varint its own width although
    ten bytes were reserved. It never fails an assertion and never
    loops. *)
Theorem write_primitive_grows (p : write_primitive) (w : machine)
    (Hwf : well_formed w)
    (Hreq : 0 <= reserved p)
    (Htotal : reserved p + used w <= 2 ^ 63)
    (Hfull : ptr w - buf w < reserved p) :
  (alloc w (ncalls w) = 0 ->
   exists w1,
     run_primitive p w = Fail w1 /\
     buf w1 = buf w /\ ptr w1 = ptr w /\ limit w1 = limit w /\
     mem w1 = mem w /\ ncalls w1 = S (ncalls w)) /\
  (alloc w (ncalls w) <> 0 ->
   exists w',
     run_primitive p w = Ok tt w' /\
     ncalls w' = S (ncalls w) /\ well_formed w' /\
     used w' = used w + appended p /\ buf w' = alloc w (ncalls w)).
Proof.
  destruct (upb_encode_reserve_grows (reserved p) w Hwf Hreq Htotal Hfull)
    as [Hfail Hok].
  assert (Hbytes : forall data len,
             reserved p = len ->
             (alloc w (ncalls w) = 0 ->
              exists w1,
                upb_put_bytes data len w = Fail w1 /\
                buf w1 = buf w /\ ptr w1 = ptr w /\ limit w1 = limit w /\
                mem w1 = mem w /\ ncalls w1 = S (ncalls w)) /\
             (alloc w (ncalls w) <> 0 ->
              exists w',
                upb_put_bytes data len w = Ok tt w' /\
                ncalls w' = S (ncalls w) /\ well_formed w' /\
                used w' = used w + len /\ buf w' = alloc w (ncalls w))).
  { intros data len Hlen. rewrite Hlen in Hfail, Hok.
    unfold upb_put_bytes, bind. split.
    - intros Hz. destruct (Hfail Hz) as (w1 & E & Hrest).
      rewrite E. exists w1. split; [reflexivity|exact Hrest].
    - intros Hnz. destruct (Hok Hnz) as (w1 & E & Hn & Hwf1 & Hu & Hb).
      rewrite E. cbv [bind get memcpy set_mem].
      eexists. split; [reflexivity|].
      unfold well_formed, used in *.
      cbn [buf ptr limit mem ncalls with_mem].
      split; [exact Hn|]. split; [exact Hwf1|]. split; [exact Hu|exact Hb]. }
  assert (Hvarint : forall val,
             reserved p = UPB_PB_VARINT_MAX_LEN ->
             (alloc w (ncalls w) = 0 ->
              exists w1,
                upb_put_varint val w = Fail w1 /\
                buf w1 = buf w /\ ptr w1 = ptr w /\ limit w1 = limit w /\
                mem w1 = mem w /\ ncalls w1 = S (ncalls w)) /\
             (alloc w (ncalls w) <> 0 ->
              exists w',
                upb_put_varint val w = Ok tt w' /\
                ncalls w' = S (ncalls w) /\ well_formed w' /\
                used w' = used w + Z.of_nat (length (upb_encode_varint val))
                /\ buf w' = alloc w (ncalls w))).
  { intros val Hlen. rewrite Hlen in Hfail, Hok.
    pose proof (upb_encode_varint_length val) as Hmin.
    pose proof (upb_encode_varint_length_max val) as Hmax.
    unfold upb_put_varint, bind. split.
    - intros Hz. destruct (Hfail Hz) as (w1 & E & Hrest).
      rewrite E. exists w1. split; [reflexivity|exact Hrest].
    - intros Hnz. destruct (Hok Hnz) as (w1 & E & Hn & Hwf1 & Hu & Hb).
      rewrite E. cbv [bind get store memmove set_mem set_ptr].
      eexists. split; [reflexivity|].
      unfold well_formed, used, UPB_PB_VARINT_MAX_LEN in *.
      cbn [buf ptr limit mem ncalls with_mem with_ptr].
      destruct Hwf as ((Hbp & Hpl) & Hsz).
      split; [exact Hn|]. split; [lia|]. split; [lia|exact Hb]. }
  destruct p as [n|data len|val|val|val|fn wt];
    cbn [run_primitive reserved appended] in *.
  - split.
    + intros Hz. destruct (Hfail Hz) as (w1 & E & Hrest).
      exists w1. split; [exact E|exact Hrest].
    + intros Hnz. destruct (Hok Hnz) as (w1 & E & Hrest).
      exists w1. split; [exact E|exact Hrest].
  - apply Hbytes. reflexivity.
  - apply Hvarint. reflexivity.
  - apply (Hbytes (Local (le_bytes 4 val)) 4). reflexivity.
  - apply (Hbytes (Local (le_bytes 8 val)) 8). reflexivity.
  - apply (Hvarint (tag_value fn wt)). reflexivity.
Qed.

Lemma write_primitive_grows_witness :
  let w := Fixtures.midway Samples.zeros Samples.no_arrays 120 in
  let p := PutVarint 300 in
  (well_formed w /\ 0 <= reserved p /\ reserved p + used w <= 2 ^ 63 /\
   ptr w - buf w < reserved p /\ alloc w (ncalls w) <> 0) /\
  exists w',
    run_primitive p w = Ok tt w' /\
    ncalls w' = S (ncalls w) /\ well_formed w' /\
    used w' = used w + appended p /\ buf w' = alloc w (ncalls w).
Proof.
  intros w p.
  assert (Hwf : well_formed w) by decide_cmp.
  assert (Hr : 0 <= reserved p) by decide_cmp.
  assert (Ht : reserved p + used w <= 2 ^ 63) by decide_cmp.
  assert (Hf : ptr w - buf w < reserved p) by decide_cmp.
  assert (Hnz : alloc w (ncalls w) <> 0) by decide_cmp.
  split; [repeat (split; [assumption|]); assumption|].
  exact (proj2 (write_primitive_grows p w Hwf Hr Ht Hf) Hnz).
Defined.
